(** * multi-scrobbler: the scrobble client core and the Spotify play format

    A shallow embedding of
    - [src/backend/scrobblers/AbstractScrobbleClient.ts]: the time-frame
      check, the existing-scrobble comparator, the worker loop, the
      dead-letter queue and the scrobble queue;
    - [SpotifySource.formatPlayObj]: the conversion of a Spotify API object
      into a play.

    Conventions.
    - A [Dayjs] value is its number of milliseconds since the epoch, a [Z].
    - A JavaScript number that holds a score is an exact rational, a [Q]:
      the rounding of IEEE doubles is not modelled.
    - The client object is a record [ClientState] that is passed explicitly;
      a method that can throw returns a [Res] next to the state it leaves.
    - What the client does to the outside world (adapter calls, emitted
      events, log lines, sleeps) is appended to the [trace] of the state. *)

From Stdlib Require Import ZArith QArith Qminmax String List Permutation Sorted Lia Bool.
From stdpp Require Import base option list sorting gmap strings pretty.
Import ListNotations.
Open Scope string_scope.
Open Scope list_scope.
Open Scope nat_scope.
Set Warnings "-register-all".

(** ** Plays *)

Record PlayData := {
  track : string;
  artists : list string;
  albumArtists : list string;
  album : option string;
  duration : option Q;
  playDate : Z
}.

Record PlayMeta := {
  source : option string;
  trackId : option string;
  deviceId : option string;
  trackProgressPosition : option Q;
  newFromSource : bool;
  url_web : option string
}.

Record PlayObject := { data : PlayData; meta : PlayMeta }.

Record QueuedScrobble := {
  qs_id : string;
  qs_source : string;
  qs_play : PlayObject
}.

Record DeadLetterScrobble := {
  dl_id : string;
  dl_source : string;
  dl_play : PlayObject;
  retries : nat;
  error : string;
  lastRetry : option Z
}.

Record ScrobbledPlayObject := { sp_play : PlayObject; sp_scrobble : PlayObject }.

(** ** Errors *)

(** [UpstreamError] extends pony-cause's [ErrorWithCause]; every other
    thrown value is a plain [Error] with an optional cause. *)
Inductive JsError :=
| UpstreamError (message : string) (showStopper : bool) (cause : option JsError)
| PlainError (message : string) (cause : option JsError).

(** pony-cause's [messageWithCauses]: the messages of the error and of its
    chain of causes, joined by a colon. *)
Fixpoint messageWithCauses (e : JsError) : string :=
  match e with
  | UpstreamError m _ None | PlainError m None => m
  | UpstreamError m _ (Some c) | PlainError m (Some c) => m +:+ ": " +:+ messageWithCauses c
  end.

(** [e instanceof UpstreamError && e.showStopper === false] *)
Definition isNonShowStoppingUpstream (e : JsError) : bool :=
  match e with
  | UpstreamError _ showStopper _ => negb showStopper
  | PlainError _ _ => false
  end.

Inductive Res (A : Type) :=
| Ret (a : A)
| Throw (e : JsError).
Arguments Ret {A} a.
Arguments Throw {A} e.

(** ** Temporal accuracy *)

(** Modelled from the spec: the constants [TA_EXACT], [TA_CLOSE], [TA_FUZZY]
    of core/Atomic.js, whose source is not at hand. The spec (4.1) names the
    accuracies EXACT, CLOSE and FUZZY, from finest to coarsest, and treats
    everything else alike; [TA_NONE] stands for every other outcome. *)
Inductive TemporalAccuracy := TA_EXACT | TA_CLOSE | TA_FUZZY | TA_NONE.

Definition TemporalAccuracy_eqb (a b : TemporalAccuracy) : bool :=
  match a, b with
  | TA_EXACT, TA_EXACT | TA_CLOSE, TA_CLOSE | TA_FUZZY, TA_FUZZY | TA_NONE, TA_NONE => true
  | _, _ => false
  end.

Definition accuracyRank (a : TemporalAccuracy) : nat :=
  match a with
  | TA_EXACT => 1
  | TA_CLOSE => 2
  | TA_FUZZY => 3
  | TA_NONE => 99
  end.

(** Modelled from the spec: [temporalAccuracyIsAtLeast] of utils/TimeUtils.js,
    whose source is not at hand. An accuracy is at least the expected one when it
    is that one or a finer one (4.1 maps EXACT and CLOSE to the same time
    score; 4.4 accepts a previous scrobble that is temporally CLOSE). *)
Definition temporalAccuracyIsAtLeast (expected found : TemporalAccuracy) : bool :=
  accuracyRank found <=? accuracyRank expected.

(** ** Helpers of the repository whose source is not at hand *)

(** The functions and constants the client imports from utils.js,
    utils/StringUtils.js, utils/TimeUtils.js, core/StringUtils.js and
    common/infrastructure/Atomic.js, and the library calls whose results
    are text. The client is verified for every choice of them. *)
Class Utils := {
  ARTIST_WEIGHT : Q;
  TITLE_WEIGHT : Q;
  TIME_WEIGHT : Q;
  DUP_SCORE_THRESHOLD : Q;
  (** [playObjDataMatch(a, b)] *)
  playObjDataMatch : PlayObject -> PlayObject -> bool;
  (** [comparePlayTemporally(existing, candidate).match] *)
  comparePlayTemporally : PlayObject -> PlayObject -> TemporalAccuracy;
  (** [compareScrobbleTracks(existing, candidate).highScore] *)
  compareScrobbleTracks : PlayObject -> PlayObject -> Q;
  (** [compareScrobbleArtists(existing, candidate)] *)
  compareScrobbleArtists : PlayObject -> PlayObject -> Q;
  (** [normalizeStr(x, {keepSingleWhitespace: true})] *)
  normalizeStr : string -> string;
  (** [comparingMultipleArtists(existing, candidate)] *)
  comparingMultipleArtists : PlayObject -> PlayObject -> bool;
  (** [buildTrackString(play)] *)
  buildTrackString : PlayObject -> string;
  (** [dayjs.duration(ms).humanize(false)] *)
  humanize : Z -> string;
  (** [d.format()] *)
  formatDate : Z -> string;
  (** the [n]-th identifier that [nanoid()] hands out *)
  nanoid : nat -> string
}.

(** ** Numbers *)

Definition Qltb (x y : Q) : bool := negb (Qle_bool y x).

(** [Math.max(a, b, c)] *)
Definition Math_max3 (a b c : Q) : Q := Qmax (Qmax a b) c.

(** [d.unix()]: whole seconds since the epoch. *)
Definition unix (d : Z) : Z := (d / 1000)%Z.

(** [a.isAfter(b)] *)
Definition isAfter (a b : Z) : bool := (b <? a)%Z.

(** ** The client object *)

Inductive LogLevel := LDebug | LVerbose | LInfo | LWarn | LError.

Inductive Payload :=
| PStatus (status : string)
| PPlay (play : PlayObject)
| PQueued (queued : QueuedScrobble)
| PDead (dead : DeadLetterScrobble).

(** What the client does to its collaborators: log lines (level and text;
    a logged [Error] is its message), [emitEvent], the calls of the methods
    a concrete client implements, and [sleep]. *)
Inductive Effect :=
| ELog (level : LogLevel) (msg : string)
| EEmit (eventName : string) (payload : Payload)
| ECallDoScrobble (play : PlayObject)
| ECallAlreadyScrobbled (play : PlayObject)
| ECallRefreshScrobbles
| ESleep (ms : Z).

Record ClientState := {
  (* set once by the constructor or by the concrete class *)
  requiresAuth : bool;
  checkExistingScrobbles : bool;
  scrobbleDelay : Z;
  scrobbleSleep : Z;
  (** [config.data.options.deadLetterRetries], when it is set *)
  deadLetterRetries : option nat;
  (* the mutable fields *)
  initialized : bool;
  authed : bool;
  recentScrobbles : list PlayObject;
  (** the [data] of the [FixedSizeList], newest first *)
  scrobbledPlayObjs : list ScrobbledPlayObject;
  oldestScrobbleTime : option Z;
  tracksScrobbled : nat;
  lastScrobbleCheck : Z;
  lastScrobbleAttempt : Z;
  scrobbling : bool;
  (** [true] when [userScrobblingStopSignal] is not [undefined] *)
  userScrobblingStopSignal : bool;
  queuedScrobbles : list QueuedScrobble;
  deadLetterScrobbles : list DeadLetterScrobble;
  (* the world the client runs in *)
  (** what [dayjs()] returns *)
  now : Z;
  (** how many identifiers [nanoid()] has handed out *)
  idsDrawn : nat;
  trace : list Effect
}.

Definition set_scrobbledPlayObjs (v : list ScrobbledPlayObject) (st : ClientState) : ClientState :=
  Build_ClientState (requiresAuth st) (checkExistingScrobbles st) (scrobbleDelay st) (scrobbleSleep st)
    (deadLetterRetries st) (initialized st) (authed st) (recentScrobbles st) v
    (oldestScrobbleTime st) (tracksScrobbled st) (lastScrobbleCheck st) (lastScrobbleAttempt st)
    (scrobbling st) (userScrobblingStopSignal st) (queuedScrobbles st) (deadLetterScrobbles st)
    (now st) (idsDrawn st) (trace st).

Definition set_tracksScrobbled (v : nat) (st : ClientState) : ClientState :=
  Build_ClientState (requiresAuth st) (checkExistingScrobbles st) (scrobbleDelay st) (scrobbleSleep st)
    (deadLetterRetries st) (initialized st) (authed st) (recentScrobbles st) (scrobbledPlayObjs st)
    (oldestScrobbleTime st) v (lastScrobbleCheck st) (lastScrobbleAttempt st)
    (scrobbling st) (userScrobblingStopSignal st) (queuedScrobbles st) (deadLetterScrobbles st)
    (now st) (idsDrawn st) (trace st).

Definition set_lastScrobbleAttempt (v : Z) (st : ClientState) : ClientState :=
  Build_ClientState (requiresAuth st) (checkExistingScrobbles st) (scrobbleDelay st) (scrobbleSleep st)
    (deadLetterRetries st) (initialized st) (authed st) (recentScrobbles st) (scrobbledPlayObjs st)
    (oldestScrobbleTime st) (tracksScrobbled st) (lastScrobbleCheck st) v
    (scrobbling st) (userScrobblingStopSignal st) (queuedScrobbles st) (deadLetterScrobbles st)
    (now st) (idsDrawn st) (trace st).

Definition set_scrobbling (v : bool) (st : ClientState) : ClientState :=
  Build_ClientState (requiresAuth st) (checkExistingScrobbles st) (scrobbleDelay st) (scrobbleSleep st)
    (deadLetterRetries st) (initialized st) (authed st) (recentScrobbles st) (scrobbledPlayObjs st)
    (oldestScrobbleTime st) (tracksScrobbled st) (lastScrobbleCheck st) (lastScrobbleAttempt st)
    v (userScrobblingStopSignal st) (queuedScrobbles st) (deadLetterScrobbles st)
    (now st) (idsDrawn st) (trace st).

Definition set_userScrobblingStopSignal (v : bool) (st : ClientState) : ClientState :=
  Build_ClientState (requiresAuth st) (checkExistingScrobbles st) (scrobbleDelay st) (scrobbleSleep st)
    (deadLetterRetries st) (initialized st) (authed st) (recentScrobbles st) (scrobbledPlayObjs st)
    (oldestScrobbleTime st) (tracksScrobbled st) (lastScrobbleCheck st) (lastScrobbleAttempt st)
    (scrobbling st) v (queuedScrobbles st) (deadLetterScrobbles st)
    (now st) (idsDrawn st) (trace st).

Definition set_queuedScrobbles (v : list QueuedScrobble) (st : ClientState) : ClientState :=
  Build_ClientState (requiresAuth st) (checkExistingScrobbles st) (scrobbleDelay st) (scrobbleSleep st)
    (deadLetterRetries st) (initialized st) (authed st) (recentScrobbles st) (scrobbledPlayObjs st)
    (oldestScrobbleTime st) (tracksScrobbled st) (lastScrobbleCheck st) (lastScrobbleAttempt st)
    (scrobbling st) (userScrobblingStopSignal st) v (deadLetterScrobbles st)
    (now st) (idsDrawn st) (trace st).

Definition set_deadLetterScrobbles (v : list DeadLetterScrobble) (st : ClientState) : ClientState :=
  Build_ClientState (requiresAuth st) (checkExistingScrobbles st) (scrobbleDelay st) (scrobbleSleep st)
    (deadLetterRetries st) (initialized st) (authed st) (recentScrobbles st) (scrobbledPlayObjs st)
    (oldestScrobbleTime st) (tracksScrobbled st) (lastScrobbleCheck st) (lastScrobbleAttempt st)
    (scrobbling st) (userScrobblingStopSignal st) (queuedScrobbles st) v
    (now st) (idsDrawn st) (trace st).

Definition set_now (v : Z) (st : ClientState) : ClientState :=
  Build_ClientState (requiresAuth st) (checkExistingScrobbles st) (scrobbleDelay st) (scrobbleSleep st)
    (deadLetterRetries st) (initialized st) (authed st) (recentScrobbles st) (scrobbledPlayObjs st)
    (oldestScrobbleTime st) (tracksScrobbled st) (lastScrobbleCheck st) (lastScrobbleAttempt st)
    (scrobbling st) (userScrobblingStopSignal st) (queuedScrobbles st) (deadLetterScrobbles st)
    v (idsDrawn st) (trace st).

Definition set_idsDrawn (v : nat) (st : ClientState) : ClientState :=
  Build_ClientState (requiresAuth st) (checkExistingScrobbles st) (scrobbleDelay st) (scrobbleSleep st)
    (deadLetterRetries st) (initialized st) (authed st) (recentScrobbles st) (scrobbledPlayObjs st)
    (oldestScrobbleTime st) (tracksScrobbled st) (lastScrobbleCheck st) (lastScrobbleAttempt st)
    (scrobbling st) (userScrobblingStopSignal st) (queuedScrobbles st) (deadLetterScrobbles st)
    (now st) v (trace st).

Definition set_trace (v : list Effect) (st : ClientState) : ClientState :=
  Build_ClientState (requiresAuth st) (checkExistingScrobbles st) (scrobbleDelay st) (scrobbleSleep st)
    (deadLetterRetries st) (initialized st) (authed st) (recentScrobbles st) (scrobbledPlayObjs st)
    (oldestScrobbleTime st) (tracksScrobbled st) (lastScrobbleCheck st) (lastScrobbleAttempt st)
    (scrobbling st) (userScrobblingStopSignal st) (queuedScrobbles st) (deadLetterScrobbles st)
    (now st) (idsDrawn st) v.

(** What a refresh by a concrete client brings back from the upstream
    service: the recent scrobbles, the own scrobbles still in their time
    frame ([filterScrobbledTracks]), the oldest scrobble time and the time
    of the check. *)
Record Refreshed := {
  r_recentScrobbles : list PlayObject;
  r_scrobbledPlayObjs : list ScrobbledPlayObject;
  r_oldestScrobbleTime : option Z;
  r_lastScrobbleCheck : Z
}.

(** The methods a concrete client implements or overrides; each reads the
    client. [doScrobble] and [alreadyScrobbled] are abstract in the base
    class, whose [refreshScrobbles] only logs. *)
Class Adapter := {
  doScrobble : ClientState -> PlayObject -> Res PlayObject;
  alreadyScrobbled : ClientState -> PlayObject -> Res bool;
  refreshScrobbles : ClientState -> Res Refreshed
}.

(** ** Effects *)

Definition perform (e : Effect) (st : ClientState) : ClientState :=
  set_trace (trace st ++ [e]) st.

Definition logMsg (level : LogLevel) (msg : string) : ClientState -> ClientState :=
  perform (ELog level msg).

Definition emitEvent (eventName : string) (payload : Payload) : ClientState -> ClientState :=
  perform (EEmit eventName payload).

(** [await sleep(ms)]: the clock moves on by [ms]. *)
Definition sleep (ms : Z) (st : ClientState) : ClientState :=
  set_now (now st + ms)%Z (perform (ESleep ms) st).

(** [isReady = async () => this.initialized && !this.authGated()] *)
Definition authGated (st : ClientState) : bool := requiresAuth st && negb (authed st).
Definition isReady (st : ClientState) : bool := initialized st && negb (authGated st).

(** ** AbstractScrobbleClient: the pure checks *)

Section Checks.
Context `{Utils}.

(** [timeFrameIsValid]: the pair [[validTime, log]]. *)
Definition timeFrameIsValid (st : ClientState) (playObj : PlayObject) : bool * string :=
  match oldestScrobbleTime st with
  | None => (true, "")
  | Some oldest =>
      let playDate := playDate (data playObj) in
      let validTime := isAfter playDate oldest in
      let log :=
        if negb validTime
        then "occurred " +:+ humanize (Z.abs (playDate - oldest))
             +:+ " before the oldest scrobble returned by this client ("
             +:+ formatDate oldest +:+ ")"
        else "" in
      (validTime, log)
  end.

Definition MAX_STORED_SCROBBLES : nat := 40.

(** [FixedSizeList.add] of the fixed-size-list package: the new item goes
    to the front and the list is cut to its maximal size. *)
Definition FixedSizeList_add {A : Type} (maxSize : nat) (item : A) (l : list A) : list A :=
  take maxSize (item :: l).

Definition addScrobbledTrack (playObj scrobbledPlay : PlayObject) (st : ClientState) : ClientState :=
  let st := set_scrobbledPlayObjs
              (FixedSizeList_add MAX_STORED_SCROBBLES
                 {| sp_play := playObj; sp_scrobble := scrobbledPlay |} (scrobbledPlayObjs st)) st in
  set_tracksScrobbled (S (tracksScrobbled st)) st.

Definition findExistingSubmittedPlayObj (st : ClientState) (playObj : PlayObject)
  : option ScrobbledPlayObject * list ScrobbledPlayObject :=
  let dtInvariantMatches :=
    List.filter (fun x => playObjDataMatch playObj (sp_play x)) (scrobbledPlayObjs st) in
  if length dtInvariantMatches =? 0 then (None, [])
  else
    let matchPlayDate :=
      List.find (fun x => temporalAccuracyIsAtLeast TA_CLOSE (comparePlayTemporally (sp_play x) playObj))
                dtInvariantMatches in
    (matchPlayDate, dtInvariantMatches).

Definition compareExistingScrobbleTitle (existing candidate : PlayObject) : Q :=
  Qmin (compareScrobbleTracks existing candidate / 100)%Q 1%Q.

(** [setIntersection(new Set(a), new Set(b)).size] *)
Definition setIntersectionSize (a b : list string) : nat :=
  size ((list_to_set a : gset string) ∩ list_to_set b).

Definition compareExistingScrobbleArtist (existing candidate : PlayObject) : Q * nat :=
  let normExisting := map normalizeStr (artists (data existing)) in
  let candidateExisting := map normalizeStr (artists (data candidate)) in
  let wholeMatches := setIntersectionSize normExisting candidateExisting in
  (Qmin (compareScrobbleArtists existing candidate / 100)%Q 1%Q, wholeMatches).

(** The time subscore the callback of [recentScrobbles.find] computes from
    [temporalComparison.match]. *)
Definition timeMatchOf (m : TemporalAccuracy) : Q :=
  if temporalAccuracyIsAtLeast TA_CLOSE m then 1%Q
  else if TemporalAccuracy_eqb m TA_FUZZY then 0.6%Q
  else 0%Q.

(** The score the callback of [recentScrobbles.find] gives the recent
    scrobble [x] against [playObj]. *)
Definition candidateScore (x playObj : PlayObject) : Q :=
  let temporalComparison := comparePlayTemporally x playObj in
  let timeMatch := timeMatchOf temporalComparison in
  let titleMatch := compareExistingScrobbleTitle x playObj in
  let '(artistMatch, wholeMatches) := compareExistingScrobbleArtist x playObj in
  let artistScore := (ARTIST_WEIGHT * artistMatch)%Q in
  let titleScore := (TITLE_WEIGHT * titleMatch)%Q in
  let timeScore := (TIME_WEIGHT * timeMatch)%Q in
  let score := (artistScore + titleScore + timeScore)%Q in
  if Qltb score 1%Q && Qltb 0%Q timeMatch && Qltb 0.98%Q titleMatch && Qltb 0.1%Q artistMatch
     && (0 <? wholeMatches) && comparingMultipleArtists x playObj
  then
    let scoreBonus := (artistMatch * 0.5)%Q in
    let scoreGapBonus := ((1 - artistMatch) * 0.75)%Q in
    let artistWholeMatchBonus := Math_max3 scoreBonus scoreGapBonus 0.1%Q in
    let artistScore := ((ARTIST_WEIGHT + 0.05) * (artistMatch + artistWholeMatchBonus))%Q in
    (artistScore + titleScore + timeScore)%Q
  else score.

(** [closestMatch], without its texts. *)
Record ClosestMatch := { cm_score : Q; cm_scrobble : option PlayObject }.

(** [this.recentScrobbles.find(callback)]: the callback scores [x], keeps
    the closest match up to date and accepts the first [x] whose score
    reaches the threshold. *)
Fixpoint findRecentScrobble (playObj : PlayObject) (recent : list PlayObject) (closestMatch : ClosestMatch)
  : option PlayObject * ClosestMatch :=
  match recent with
  | [] => (None, closestMatch)
  | x :: rest =>
      let score := candidateScore x playObj in
      let closestMatch :=
        if Qle_bool (cm_score closestMatch) score && Qltb 0%Q score
        then {| cm_score := score; cm_scrobble := Some x |}
        else closestMatch in
      if Qle_bool DUP_SCORE_THRESHOLD score then (Some x, closestMatch)
      else findRecentScrobble playObj rest closestMatch
  end.

(** [existingScrobble], with the closest match it would log. The debug
    lines it writes under the verbose options are left out. *)
Definition existingScrobbleWithClosest (st : ClientState) (playObj : PlayObject)
  : option PlayObject * ClosestMatch :=
  let closestMatch := {| cm_score := 0%Q; cm_scrobble := None |} in
  if negb (checkExistingScrobbles st) then (None, closestMatch)
  else
    let '(existingExactSubmitted, existingDataSubmitted) := findExistingSubmittedPlayObj st playObj in
    match existingExactSubmitted with
    | Some submitted =>
        (Some (sp_scrobble submitted), {| cm_score := 1%Q; cm_scrobble := Some (sp_scrobble submitted) |})
    | None =>
        if length (recentScrobbles st) =? 0 then (None, closestMatch)
        else findRecentScrobble playObj (recentScrobbles st) closestMatch
    end.

Definition existingScrobble (st : ClientState) (playObj : PlayObject) : option PlayObject :=
  fst (existingScrobbleWithClosest st playObj).

End Checks.

(** ** AbstractScrobbleClient: queues and the worker *)

(** Modelled from the spec: [sortByOldestPlayDate] of utils.js, whose source
    is not at hand. The spec (4.4, 5) says the queue is sorted by [playDate]
    ascending, oldest first: the comparator orders two plays by their
    [playDate]. *)
Definition sortByOldestPlayDate (a b : PlayObject) : comparison :=
  (playDate (data a) ?= playDate (data b))%Z.

(** [Array.prototype.sort(compareFn)]: a stable sort that puts [a] before
    [b] unless [compareFn(a, b) > 0]. *)
Definition Array_sort {A : Type} (compareFn : A -> A -> comparison) (l : list A) : list A :=
  merge_sort (fun a b => compareFn a b <> Gt) l.

Definition typeError : JsError :=
  PlainError "TypeError: Cannot read properties of undefined" None.

Section Worker.
Context `{Utils} `{Adapter}.

(** [scrobble(playObj, opts)]; [delay] is [opts.delay]: [None] when it is
    undefined, [Some None] when it is [false]. *)
Definition scrobble (playObj : PlayObject) (delay : option (option Z)) (st : ClientState)
  : Res PlayObject * ClientState :=
  let scrobbleDelay :=
    match delay with
    | None => scrobbleDelay st
    | Some None => 0%Z
    | Some (Some d) => d
    end in
  let st :=
    if negb (scrobbleDelay =? 0)%Z then
      let lastScrobbleDiff := (now st - lastScrobbleAttempt st)%Z in
      let remainingDelay := (scrobbleDelay - lastScrobbleDiff)%Z in
      if (0 <? remainingDelay)%Z
      then sleep scrobbleDelay
             (logMsg LDebug ("Waiting " +:+ pretty remainingDelay
                             +:+ "ms to scrobble so time passed since previous scrobble is at least "
                             +:+ pretty scrobbleDelay +:+ "ms") st)
      else st
    else st in
  let res := doScrobble st playObj in
  let st := perform (ECallDoScrobble playObj) st in
  (res, set_lastScrobbleAttempt (now st) st).

Definition getLatestQueuePlayDate (st : ClientState) : option Z :=
  match last (queuedScrobbles st) with
  | None => None
  | Some q => Some (playDate (data (qs_play q)))
  end.

Definition queuedByOldestPlayDate (a b : QueuedScrobble) : comparison :=
  sortByOldestPlayDate (qs_play a) (qs_play b).

Definition deadByOldestPlayDate (a b : DeadLetterScrobble) : comparison :=
  sortByOldestPlayDate (dl_play a) (dl_play b).

(** The [for] loop of [queueScrobble]. *)
Fixpoint queuePlays (plays : list PlayObject) (source : string) (st : ClientState) : ClientState :=
  match plays with
  | [] => st
  | p :: rest =>
      let queuedPlay := {| qs_id := nanoid (idsDrawn st); qs_source := source; qs_play := p |} in
      let st := set_idsDrawn (S (idsDrawn st)) st in
      let st := emitEvent "scrobbleQueued" (PQueued queuedPlay) st in
      let st := set_queuedScrobbles (queuedScrobbles st ++ [queuedPlay]) st in
      queuePlays rest source st
  end.

(** [queueScrobble(data, source)]; [data] is one play or an array of plays. *)
Definition queueScrobble (data : PlayObject + list PlayObject) (source : string) (st : ClientState)
  : ClientState :=
  let plays := match data with inl p => [p] | inr ps => ps end in
  let st := queuePlays plays source st in
  set_queuedScrobbles (Array_sort queuedByOldestPlayDate (queuedScrobbles st)) st.

(** [addDeadLetterScrobble(data, error)]. The spread [...data] comes after
    [id: nanoid()], so the entry keeps the identifier of the queued
    scrobble; the fresh identifier is drawn and dropped. *)
Definition addDeadLetterScrobble (data : QueuedScrobble) (error : JsError + string) (st : ClientState)
  : ClientState :=
  let eString := match error with inr s => s | inl e => messageWithCauses e end in
  let st := set_idsDrawn (S (idsDrawn st)) st in
  let deadData := {| dl_id := qs_id data; dl_source := qs_source data; dl_play := qs_play data;
                     retries := 0; error := eString; lastRetry := None |} in
  let st := set_deadLetterScrobbles (deadLetterScrobbles st ++ [deadData]) st in
  let st := set_deadLetterScrobbles (Array_sort deadByOldestPlayDate (deadLetterScrobbles st)) st in
  emitEvent "deadLetter" (PDead deadData) st.

(** [set recentScrobbles(scrobbles)]: a sorted copy is stored. *)
Definition set_recentScrobbles (scrobbles : list PlayObject) (st : ClientState) : ClientState :=
  Build_ClientState (requiresAuth st) (checkExistingScrobbles st) (scrobbleDelay st) (scrobbleSleep st)
    (deadLetterRetries st) (initialized st) (authed st)
    (Array_sort sortByOldestPlayDate scrobbles) (scrobbledPlayObjs st)
    (oldestScrobbleTime st) (tracksScrobbled st) (lastScrobbleCheck st) (lastScrobbleAttempt st)
    (scrobbling st) (userScrobblingStopSignal st) (queuedScrobbles st) (deadLetterScrobbles st)
    (now st) (idsDrawn st) (trace st).

(** The client takes over what a refresh brought back; the queues, which
    the base class owns, stay as they are. *)
Definition applyRefresh (r : Refreshed) (st : ClientState) : ClientState :=
  set_recentScrobbles (r_recentScrobbles r)
    (Build_ClientState (requiresAuth st) (checkExistingScrobbles st) (scrobbleDelay st)
       (scrobbleSleep st) (deadLetterRetries st) (initialized st) (authed st)
       (recentScrobbles st) (r_scrobbledPlayObjs r)
       (r_oldestScrobbleTime r) (tracksScrobbled st) (r_lastScrobbleCheck r)
       (lastScrobbleAttempt st) (scrobbling st) (userScrobblingStopSignal st)
       (queuedScrobbles st) (deadLetterScrobbles st) (now st) (idsDrawn st) (trace st)).

(** [await this.refreshScrobbles()] *)
Definition callRefreshScrobbles (st : ClientState) : Res unit * ClientState :=
  let res := refreshScrobbles st in
  let st := perform ECallRefreshScrobbles st in
  match res with
  | Ret r => (Ret tt, applyRefresh r st)
  | Throw e => (Throw e, st)
  end.

(** [await this.alreadyScrobbled(play)] *)
Definition callAlreadyScrobbled (play : PlayObject) (st : ClientState) : Res bool * ClientState :=
  (alreadyScrobbled st play, perform (ECallAlreadyScrobbled play) st).

(** The first statement of the body of the inner [while] of [doProcessing]:
    refresh when the last check is older than the newest queued play. *)
Definition refreshBeforeDequeue (st : ClientState) : Res unit * ClientState :=
  match getLatestQueuePlayDate st with
  | None => (Throw typeError, st)
  | Some latest =>
      if (unix (lastScrobbleCheck st) <? unix latest)%Z
      then callRefreshScrobbles st
      else (Ret tt, st)
  end.

(** The texts of two log lines of the worker. *)
Definition willNotScrobbleText (play : PlayObject) (source log : string) : string :=
  "Will not scrobble " +:+ buildTrackString play +:+ " from Source '" +:+ source
  +:+ "' because it " +:+ log.

Definition notShowStoppingText (q : QueuedScrobble) : string :=
  "Could not scrobble " +:+ buildTrackString (qs_play q) +:+ " from Source '" +:+ qs_source q
  +:+ "' but error was not show stopping. Adding scrobble to Dead Letter Queue and will retry on next heartbeat.".

(** One pass through the body of the inner [while] of [doProcessing]. *)
Definition processNextQueued (st : ClientState) : Res unit * ClientState :=
  let '(refreshed, st) := refreshBeforeDequeue st in
  match refreshed with
  | Throw e => (Throw e, st)
  | Ret _ =>
      match queuedScrobbles st with
      | [] => (Throw typeError, st)
      | currQueuedPlay :: rest =>
          let st := set_queuedScrobbles rest st in
          let '(timeFrameValid, timeFrameValidLog) := timeFrameIsValid st (qs_play currQueuedPlay) in
          if timeFrameValid then
            match callAlreadyScrobbled (qs_play currQueuedPlay) st with
            | (Throw e, st) => (Throw e, st)
            | (Ret true, st) =>
                (Ret tt, emitEvent "scrobbleDequeued" (PQueued currQueuedPlay) st)
            | (Ret false, st) =>
                match scrobble (qs_play currQueuedPlay) None st with
                | (Ret scrobbledPlay, st) =>
                    let st := emitEvent "scrobble" (PPlay (qs_play currQueuedPlay)) st in
                    let st := addScrobbledTrack (qs_play currQueuedPlay) scrobbledPlay st in
                    (Ret tt, emitEvent "scrobbleDequeued" (PQueued currQueuedPlay) st)
                | (Throw e, st) =>
                    if isNonShowStoppingUpstream e then
                      let st := addDeadLetterScrobble currQueuedPlay (inl e) st in
                      let st := logMsg LWarn (notShowStoppingText currQueuedPlay) st in
                      (Ret tt, emitEvent "scrobbleDequeued" (PQueued currQueuedPlay) st)
                    else
                      let st := set_queuedScrobbles (currQueuedPlay :: queuedScrobbles st) st in
                      (Throw (PlainError "Error occurred while trying to scrobble" (Some e)), st)
                end
            end
          else
            let st := logMsg LDebug
                        (willNotScrobbleText (qs_play currQueuedPlay) (qs_source currQueuedPlay)
                           timeFrameValidLog) st in
            (Ret tt, emitEvent "scrobbleDequeued" (PQueued currQueuedPlay) st)
      end
  end.

(** The inner [while (this.queuedScrobbles.length > 0)] of [doProcessing];
    [None] when the passes allowed by [fuel] do not empty the queue. *)
Fixpoint processQueue (fuel : nat) (st : ClientState) : option (Res unit * ClientState) :=
  match queuedScrobbles st with
  | [] => Some (Ret tt, st)
  | _ :: _ =>
      match fuel with
      | 0 => None
      | S fuel =>
          match processNextQueued st with
          | (Ret _, st) => processQueue fuel st
          | (Throw e, st) => Some (Throw e, st)
          end
      end
  end.

Definition shouldStopScrobbleProcessing (st : ClientState) : bool :=
  negb (scrobbling st) || userScrobblingStopSignal st.

Definition doStopScrobbling (reason : string) (st : ClientState) : ClientState :=
  let st := set_scrobbling false st in
  let st := set_userScrobblingStopSignal false st in
  let st := emitEvent "statusChange" (PStatus "Idle") st in
  logMsg LInfo ("Stopped scrobble processing due to: " +:+ reason) st.

(** The outer [while (!this.shouldStopScrobbleProcessing())] of
    [doProcessing] and the statements after it, inside the [try]. The worker
    runs until it is told to stop: [None] when [fuel] passes do not end it. *)
Fixpoint processingLoop (fuel : nat) (st : ClientState) : option (Res bool * ClientState) :=
  if shouldStopScrobbleProcessing st then
    Some (Ret true,
          doStopScrobbling (if userScrobblingStopSignal st then "user input" else "system") st)
  else
    match fuel with
    | 0 => None
    | S fuel =>
        match processQueue (length (queuedScrobbles st)) st with
        | None => None
        | Some (Throw e, st) => Some (Throw e, st)
        | Some (Ret _, st) => processingLoop fuel (sleep (scrobbleSleep st) st)
        end
    end.

(** The statements of [doProcessing] before its loops. *)
Definition startProcessing (st : ClientState) : ClientState :=
  let st := logMsg LInfo "Scrobble processing started" st in
  let st := emitEvent "statusChange" (PStatus "Running") st in
  set_scrobbling true st.

(** The [catch] of [doProcessing], up to its [throw e]. *)
Definition interruptProcessing (e : JsError) (st : ClientState) : ClientState :=
  let st := logMsg LError "Scrobble processing interrupted" st in
  let st := logMsg LError (messageWithCauses e) st in
  let st := emitEvent "statusChange" (PStatus "Idle") st in
  set_scrobbling false st.

(** [doProcessing] *)
Definition doProcessing (fuel : nat) (st : ClientState) : option (Res bool * ClientState) :=
  if scrobbling st then Some (Ret true, st)
  else
    match processingLoop fuel (startProcessing st) with
    | None => None
    | Some (Ret r, st) => Some (Ret r, st)
    | Some (Throw e, st) => Some (Throw e, interruptProcessing e st)
    end.

End Worker.

(** ** AbstractScrobbleClient: the dead-letter queue *)

Section DeadLetter.
Context `{Utils} `{Adapter}.

(** [this.deadLetterScrobbles.findIndex(x => x.id === id)] with the element
    found there; [None] stands for the index -1. *)
Definition findDeadIndex (id : string) (dead : list DeadLetterScrobble)
  : option (nat * DeadLetterScrobble) :=
  list_find (fun x => dl_id x = id) dead.

(** [removeDeadLetterScrobble(id)]: with no such entry, reading [.play] of
    [this.deadLetterScrobbles[-1]] throws. *)
Definition removeDeadLetterScrobble (id : string) (st : ClientState) : Res unit * ClientState :=
  match findDeadIndex id (deadLetterScrobbles st) with
  | None =>
      (Throw typeError, logMsg LWarn ("No scrobble found with ID " +:+ id) st)
  | Some (index, found) =>
      let st := logMsg LInfo
                  ("Removed scrobble " +:+ buildTrackString (dl_play found) +:+ " from queue") st in
      (Ret tt, set_deadLetterScrobbles (delete index (deadLetterScrobbles st)) st)
  end.

(** The entry after a failed retry: [retries++], the message of the error
    and the time of the failure. *)
Definition failedRetry (deadScrobble : DeadLetterScrobble) (e : JsError) (at_ : Z)
  : DeadLetterScrobble :=
  {| dl_id := dl_id deadScrobble; dl_source := dl_source deadScrobble;
     dl_play := dl_play deadScrobble;
     retries := S (retries deadScrobble);
     error := messageWithCauses e;
     lastRetry := Some at_ |}.

(** The refresh of [processDeadLetterScrobble]: only when a play is queued
    and the last check is older than the newest queued play. *)
Definition refreshBeforeRetry (st : ClientState) : Res unit * ClientState :=
  match getLatestQueuePlayDate st with
  | None => (Ret tt, st)
  | Some latest =>
      if (unix (lastScrobbleCheck st) <? unix latest)%Z
      then callRefreshScrobbles st
      else (Ret tt, st)
  end.

(** [processDeadLetterScrobble(id)]: the pair [[scrobbled, dead]]. *)
Definition processDeadLetterScrobble (id : string) (st : ClientState)
  : Res (bool * option DeadLetterScrobble) * ClientState :=
  let found := findDeadIndex id (deadLetterScrobbles st) in
  if negb (isReady st) then
    (Ret (false, snd <$> found),
     logMsg LWarn "Cannot process dead letter scrobble because client is not ready." st)
  else
    let '(refreshed, st) := refreshBeforeRetry st in
    match refreshed, found with
    | Throw e, _ => (Throw e, st)
    | Ret _, None => (Throw typeError, st)
    | Ret _, Some (deadScrobbleIndex, deadScrobble) =>
        let '(timeFrameValid, timeFrameValidLog) := timeFrameIsValid st (dl_play deadScrobble) in
        let remove (st : ClientState) : Res (bool * option DeadLetterScrobble) * ClientState :=
          match removeDeadLetterScrobble (dl_id deadScrobble) st with
          | (Ret _, st) => (Ret (true, None), st)
          | (Throw e, st) => (Throw e, st)
          end in
        if timeFrameValid then
          match callAlreadyScrobbled (dl_play deadScrobble) st with
          | (Throw e, st) => (Throw e, st)
          | (Ret true, st) => remove st
          | (Ret false, st) =>
              match scrobble (dl_play deadScrobble) None st with
              | (Ret scrobbledPlay, st) =>
                  let st := emitEvent "scrobble" (PPlay (dl_play deadScrobble)) st in
                  let st := addScrobbledTrack (dl_play deadScrobble) scrobbledPlay st in
                  let st := sleep 1000 st in
                  remove st
              | (Throw e, st) =>
                  let deadScrobble := failedRetry deadScrobble e (now st) in
                  let st := logMsg LError
                              ("Could not scrobble " +:+ buildTrackString (dl_play deadScrobble)
                               +:+ " from Source '" +:+ dl_source deadScrobble
                               +:+ "' due to error") st in
                  let st := set_deadLetterScrobbles
                              (<[deadScrobbleIndex := deadScrobble]> (deadLetterScrobbles st)) st in
                  let st := sleep 1000 st in
                  (Ret (false, Some deadScrobble), st)
              end
          end
        else
          let st := logMsg LDebug
                      (willNotScrobbleText (dl_play deadScrobble) (dl_source deadScrobble)
                         timeFrameValidLog) st in
          remove st
    end.

(** The [for (const deadScrobble of this.deadLetterScrobbles)] loop of
    [processDeadLetterQueue]. The array iterator reads the live array at
    the index [i] and stops when [i] is past its end; the array never grows
    in the loop, so [fuel] = its length at the start is enough. *)
Fixpoint retryDeadScrobbles (fuel i limit : nat) (removedIds : list string) (st : ClientState)
  : Res (list string) * ClientState :=
  match fuel with
  | 0 => (Ret removedIds, st)
  | S fuel =>
      match deadLetterScrobbles st !! i with
      | None => (Ret removedIds, st)
      | Some deadScrobble =>
          if retries deadScrobble <? limit then
            match processDeadLetterScrobble (dl_id deadScrobble) st with
            | (Ret (scrobbled, _), st) =>
                retryDeadScrobbles fuel (S i) limit
                  (if scrobbled then removedIds ++ [dl_id deadScrobble] else removedIds) st
            | (Throw e, st) => (Throw e, st)
            end
          else retryDeadScrobbles fuel (S i) limit removedIds st
      end
  end.

(** The retry limit [attemptWithRetries ?? deadLetterRetries], the option
    defaulting to 1. *)
Definition retryLimit (attemptWithRetries : option nat) (st : ClientState) : nat :=
  match attemptWithRetries with
  | Some n => n
  | None => default 1 (deadLetterRetries st)
  end.

(** [processDeadLetterQueue(attemptWithRetries)] *)
Definition processDeadLetterQueue (attemptWithRetries : option nat) (st : ClientState)
  : Res unit * ClientState :=
  if length (deadLetterScrobbles st) =? 0 then (Ret tt, st)
  else
    let limit := retryLimit attemptWithRetries st in
    let processable := List.filter (fun x => retries x <? limit) (deadLetterScrobbles st) in
    let queueStatus :=
      pretty (length processable) +:+ " of " +:+ pretty (length (deadLetterScrobbles st))
      +:+ " dead scrobbles have less than " +:+ pretty limit +:+ " retries, "
      +:+ (if length processable =? 0 then "will skip processing." else "processing now...") in
    if length processable =? 0 then (Ret tt, logMsg LVerbose queueStatus st)
    else
      let st := logMsg LInfo queueStatus st in
      match retryDeadScrobbles (length (deadLetterScrobbles st)) 0 limit [] st with
      | (Throw e, st) => (Throw e, st)
      | (Ret removedIds, st) =>
          if 0 <? length removedIds
          then (Ret tt, logMsg LInfo ("Removed " +:+ pretty (length removedIds)
                                      +:+ " scrobbles from dead letter queue") st)
          else (Ret tt, st)
      end.

End DeadLetter.

(** ** SpotifySource.formatPlayObj *)

Module Spotify.

Record ArtistObjectSimplified := { artist_id : string; artist_name : string }.

Record AlbumObjectSimplified := {
  album_name : string;
  (** [undefined] is [None] *)
  album_artists : option (list ArtistObjectSimplified)
}.

Record TrackObjectFull := {
  track_artists : option (list ArtistObjectSimplified);
  track_name : string;
  track_id : string;
  duration_ms : Z;
  track_album : option AlbumObjectSimplified;
  external_urls_spotify : option string
}.

Record PlayHistoryObject := { ph_track : TrackObjectFull; played_at : string }.

Record UserDevice := { device_id : option string; device_name : option string }.

Record CurrentlyPlayingObject := {
  is_playing : bool;
  progress_ms : Z;
  timestamp : Z;
  device : option UserDevice;
  (** [null] or [undefined] is [None] *)
  item : option TrackObjectFull
}.

(** The object handed to [formatPlayObj]: it has the key [played_at], or
    else the key [is_playing], or neither. *)
Inductive ApiObject :=
| History (obj : PlayHistoryObject)
| Playing (obj : CurrentlyPlayingObject)
| Unknown.

Section Format.
(** [dayjs(isoString)] and [d.toISOString()] *)
Variable parseDate : string -> Z.
Variable toISOString : Z -> string.
(** [combinePartsToString([shortDeviceId(id), name])] of utils.js and
    core/StringUtils.js *)
Variable deviceLabel : option string -> option string -> option string.
(** [NO_DEVICE] and [NO_USER] of common/infrastructure/Atomic.js *)
Variable NO_DEVICE NO_USER : string.

(** [trackArtistIds.includes(id)] *)
Definition includes (ids : list string) (id : string) : bool := existsb (String.eqb id) ids.

(** The part of [formatPlayObj] after the two shapes are told apart. *)
Definition buildPlay (artists : list ArtistObjectSimplified) (album : option AlbumObjectSimplified)
    (name : string) (duration_ms : Z) (played_at : string) (id : string) (url : option string)
    (playbackPosition : option Q) (deviceId : option string) (newFromSource : bool) : PlayObject :=
  let albumName := album_name <$> album in
  let albumArtists := default [] (album ≫= album_artists) in
  let trackArtistIds := map artist_id artists in
  let actualAlbumArtists :=
    if 0 <? length (List.filter (fun x => negb (includes trackArtistIds (artist_id x))) albumArtists)
    then albumArtists
    else [] in
  {| data := {| track := name;
                artists := map artist_name artists;
                albumArtists := map artist_name actualAlbumArtists;
                album := albumName;
                duration := Some (inject_Z duration_ms / 1000)%Q;
                playDate := parseDate played_at |};
     meta := {| source := Some "Spotify";
                trackId := Some id;
                deviceId := Some (default (NO_DEVICE +:+ "-" +:+ NO_USER) deviceId);
                trackProgressPosition := playbackPosition;
                newFromSource := newFromSource;
                url_web := url |} |}.

(** [SpotifySource.formatPlayObj(obj, {newFromSource})] *)
Definition formatPlayObj (obj : ApiObject) (newFromSource : bool) : Res PlayObject :=
  match obj with
  | History h =>
      let track := ph_track h in
      Ret (buildPlay (default [] (track_artists track)) (track_album track) (track_name track)
             (duration_ms track) (played_at h) (track_id track) (external_urls_spotify track)
             None None newFromSource)
  | Playing c =>
      let deviceIdentifier := device c ≫= device_id in
      let deviceName := device c ≫= device_name in
      (* destructuring an [item] that is [null] or [undefined] throws *)
      match item c with
      | None => Throw typeError
      | Some item =>
          match track_artists item with
          | None => Throw typeError
          | Some art =>
              Ret (buildPlay art (track_album item) (track_name item) (duration_ms item)
                     (toISOString (timestamp c)) (track_id item) (external_urls_spotify item)
                     (Some (inject_Z (progress_ms c) / 1000)%Q)
                     (deviceLabel deviceIdentifier deviceName) newFromSource)
          end
      end
  | Unknown => Throw (PlainError "Could not determine format of spotify response data" None)
  end.

End Format.
End Spotify.

(** ** Helpers as the spec describes them *)

(** Modelled from the spec: [playObjDataMatch] of utils.js, whose source is
    not at hand. The spec (4.4) describes the match as track, artist and
    album equality. *)
Definition specPlayObjDataMatch (a b : PlayObject) : bool :=
  bool_decide (track (data a) = track (data b))
  && bool_decide (artists (data a) = artists (data b))
  && bool_decide (album (data a) = album (data b)).

(** Modelled from the spec: [comparePlayTemporally] of utils/TimeUtils.js,
    whose source is not at hand. The spec (4.1) has CLOSE within a small
    tolerance and FUZZY within a larger one, and leaves both tolerances
    open (9); they are the parameters [closeMs] and [fuzzyMs]. *)
Definition specComparePlayTemporally (closeMs fuzzyMs : Z) (a b : PlayObject) : TemporalAccuracy :=
  let diff := Z.abs (playDate (data a) - playDate (data b)) in
  if (diff =? 0)%Z then TA_EXACT
  else if (diff <=? closeMs)%Z then TA_CLOSE
  else if (diff <=? fuzzyMs)%Z then TA_FUZZY
  else TA_NONE.

(** Modelled from the spec: [comparingMultipleArtists] of utils.js, whose
    source is not at hand. The spec gives the bonus its reason (4.1: one
    side often reports only the primary artist while the other reports
    all) and its scenario (8, scenario 1: a play by one artist is a
    duplicate of a scrobble by two, due to the bonus), and the comment in
    [existingScrobble] has the same example (one play is only returning the
    primary artist). All three need the helper to accept a pair in which
    one play has a single artist: it answers whether one of the two plays
    has more than one artist. The clause of 4.1 that both plays have more
    than one artist is at odds with them and is not what is modelled. *)
Definition specComparingMultipleArtists (a b : PlayObject) : bool :=
  (1 <? length (artists (data a))) || (1 <? length (artists (data b))).


(** ** Vocabulary of the properties *)

(** [st'] went on from [st], and every effect added on the way satisfies
    [P]. *)
Definition extendsTrace (P : Effect -> Prop) (st st' : ClientState) : Prop :=
  exists new, trace st' = trace st ++ new /\ Forall P new.

Definition notDoScrobble (e : Effect) : Prop := forall p, e <> ECallDoScrobble p.

(** Every call of the adapter's [doScrobble] is for the play [play]. *)
Definition doScrobbleOnly (play : PlayObject) (e : Effect) : Prop :=
  forall p, e = ECallDoScrobble p -> p = play.

(** The fields a refresh leaves alone. *)
Record sameQueues (st st' : ClientState) : Prop := {
  same_queued : queuedScrobbles st' = queuedScrobbles st;
  same_dead : deadLetterScrobbles st' = deadLetterScrobbles st;
  same_now : now st' = now st;
  same_ready : isReady st' = isReady st;
  same_tracks : tracksScrobbled st' = tracksScrobbled st;
  same_ids : idsDrawn st' = idsDrawn st
}.

(** The dead-letter entry [addDeadLetterScrobble] makes of a queued
    scrobble and the error of its attempt. *)
Definition deadEntryOf (q : QueuedScrobble) (e : JsError) : DeadLetterScrobble :=
  {| dl_id := qs_id q; dl_source := qs_source q; dl_play := qs_play q;
     retries := 0; error := messageWithCauses e; lastRetry := None |}.

(** The error the worker throws when a scrobble fails for good. *)
Definition scrobbleFailure (e : JsError) : JsError :=
  PlainError "Error occurred while trying to scrobble" (Some e).

(** Oldest first, by play date. *)
Definition oldestFirst (a b : PlayObject) : Prop :=
  (playDate (data a) <= playDate (data b))%Z.

(** The fields the calls of the adapter leave alone. *)
Record keepsQueues (st st' : ClientState) : Prop := {
  keeps_queued : queuedScrobbles st' = queuedScrobbles st;
  keeps_dead : deadLetterScrobbles st' = deadLetterScrobbles st;
  keeps_scrobbled : scrobbledPlayObjs st' = scrobbledPlayObjs st;
  keeps_oldest : oldestScrobbleTime st' = oldestScrobbleTime st;
  keeps_flags : scrobbling st' = scrobbling st
                /\ userScrobblingStopSignal st' = userScrobblingStopSignal st
}.

(** The state the pass leaves when the error is not show stopping. *)
Definition deadLettered `{Utils} (q : QueuedScrobble) (e : JsError) (st3 : ClientState)
  : ClientState :=
  emitEvent "scrobbleDequeued" (PQueued q)
    (logMsg LWarn (notShowStoppingText q) (addDeadLetterScrobble q (inl e) st3)).


(** The plays handed to [queueScrobble]. *)
Definition playsOf (data : PlayObject + list PlayObject) : list PlayObject :=
  match data with inl p => [p] | inr ps => ps end.

(** The queue entries the [for] loop of [queueScrobble] makes of [plays]
    for the client [st]. *)
Definition queuedFor `{Utils} (plays : list PlayObject) (source : string) (st : ClientState)
  : list QueuedScrobble :=
  imap (fun k p => {| qs_id := nanoid (idsDrawn st + k); qs_source := source; qs_play := p |}) plays.

(** The track of a Spotify API object, its artists and the artists of its
    album, as [formatPlayObj] reads them. *)
Definition trackOf (obj : Spotify.ApiObject) : option Spotify.TrackObjectFull :=
  match obj with
  | Spotify.History h => Some (Spotify.ph_track h)
  | Spotify.Playing c => Spotify.item c
  | Spotify.Unknown => None
  end.

Definition trackArtistsOf (t : Spotify.TrackObjectFull) : list Spotify.ArtistObjectSimplified :=
  default [] (Spotify.track_artists t).

Definition albumArtistsOf (t : Spotify.TrackObjectFull) : list Spotify.ArtistObjectSimplified :=
  default [] (Spotify.track_album t ≫= Spotify.album_artists).

(** Every album artist is, by its id, one of the track artists. *)
Definition albumArtistsAmongTrackArtists (t : Spotify.TrackObjectFull) : Prop :=
  Forall (fun a => Spotify.artist_id a ∈ map Spotify.artist_id (trackArtistsOf t)) (albumArtistsOf t).

(** [comparingMultipleArtists] answers as modelled from the spec: one of
    the two plays has more than one artist. *)
Definition multipleArtistsAsSpecified `{Utils} : Prop :=
  forall a b : PlayObject, comparingMultipleArtists a b = specComparingMultipleArtists a b.

(** Some artist of [a] and some artist of [b] are equal once normalized. *)
Definition wholeArtistMatch `{Utils} (a b : PlayObject) : Prop :=
  exists n, n ∈ map normalizeStr (artists (data a)) /\ n ∈ map normalizeStr (artists (data b)).

(** [submitted] is an earlier scrobble of this client for [playObj]: its
    play matches the data of [playObj] and is temporally at least CLOSE. *)
Definition submittedMatch `{Utils} (playObj : PlayObject) (submitted : ScrobbledPlayObject) : bool :=
  playObjDataMatch playObj (sp_play submitted)
  && temporalAccuracyIsAtLeast TA_CLOSE (comparePlayTemporally (sp_play submitted) playObj).

(** The state [removeDeadLetterScrobble] leaves when it finds its entry [d]
    at the index [i]. *)
Definition deadRemoved `{Utils} (i : nat) (d : DeadLetterScrobble) (st : ClientState)
  : ClientState :=
  set_deadLetterScrobbles (delete i (deadLetterScrobbles st))
    (logMsg LInfo ("Removed scrobble " +:+ buildTrackString (dl_play d) +:+ " from queue") st).



(** An adapter call for a play for which some entry of [dead] has fewer
    than [limit] retries. *)
Definition retryOfProcessable (dead : list DeadLetterScrobble) (limit : nat) (e : Effect) : Prop :=
  forall p, e = ECallDoScrobble p ->
            exists d, d ∈ dead /\ retries d < limit /\ dl_play d = p.

(** What a run of [processDeadLetterQueue] with the limit [limit] over the
    queue [dead0] keeps true of the queue [dead] it has made of it: the
    ids are distinct, the entries of [dead0] with [limit] retries or more
    are still there unchanged, and every entry is either an entry of
    [dead0] or made of one that had fewer than [limit] retries. *)
Definition retryInvariant (dead0 : list DeadLetterScrobble) (limit : nat)
    (dead : list DeadLetterScrobble) : Prop :=
  NoDup (map dl_id dead)
  /\ (forall d0, d0 ∈ dead0 -> limit <= retries d0 -> d0 ∈ dead)
  /\ (forall d, d ∈ dead ->
        exists d0, d0 ∈ dead0 /\ dl_play d0 = dl_play d /\ (d0 = d \/ retries d0 < limit)).

(** ** Sample helpers and clients

    Concrete helpers, adapters and clients on which the definitions above
    are run. *)

(** A stand-in for the title similarity, in percent: equal titles or not. *)
Definition sampleCompareScrobbleTracks (a b : PlayObject) : Q :=
  if bool_decide (track (data a) = track (data b)) then 100%Q else 0%Q.

(** A stand-in for the artist similarity, in percent: the share of the
    artists of [a] that [b] names as well. *)
Definition sampleCompareScrobbleArtists (a b : PlayObject) : Q :=
  let shared := List.filter (fun x => bool_decide (x ∈ artists (data b))) (artists (data a)) in
  (100 * inject_Z (Z.of_nat (length shared))
   / inject_Z (Z.of_nat (Nat.max 1 (length (artists (data a))))))%Q.

(** The weights and the threshold are the reference values of the spec
    (4.1); the tolerances are 10 seconds and 10 minutes. *)
Definition sampleUtils : Utils := {|
  ARTIST_WEIGHT := 0.3%Q;
  TITLE_WEIGHT := 0.4%Q;
  TIME_WEIGHT := 0.3%Q;
  DUP_SCORE_THRESHOLD := 0.8%Q;
  playObjDataMatch := specPlayObjDataMatch;
  comparePlayTemporally := specComparePlayTemporally 10000 600000;
  compareScrobbleTracks := sampleCompareScrobbleTracks;
  compareScrobbleArtists := sampleCompareScrobbleArtists;
  normalizeStr := fun x => x;
  comparingMultipleArtists := specComparingMultipleArtists;
  buildTrackString := fun p => track (data p);
  humanize := fun _ => "some time";
  formatDate := fun _ => "a date";
  nanoid := fun n => "id-" +:+ pretty n
|}.

Definition samplePlay (title : string) (by_ : list string) (at_ : Z) : PlayObject :=
  {| data := {| track := title; artists := by_; albumArtists := []; album := None;
                duration := None; playDate := at_ |};
     meta := {| source := Some "Sample"; trackId := None; deviceId := None;
                trackProgressPosition := None; newFromSource := false; url_web := None |} |}.

Definition sonora : PlayObject := samplePlay "Sonora" ["The Bongo Hop"] 1695912846000.
Definition sonoraScrobbled : PlayObject :=
  samplePlay "Sonora" ["Nidia Gongora"; "The Bongo Hop"] 1695913174000.
Definition duetA : PlayObject := samplePlay "Duet" ["Ana"; "Ben"] 1700000000000.
Definition duetB : PlayObject := samplePlay "Duet" ["Ben"; "Cleo"] 1700000200000.
Definition oldPlay : PlayObject := samplePlay "Old" ["Ana"] 1000.

(** A ready client with the constructor's defaults. *)
Definition sampleClient (queued : list QueuedScrobble) (dead : list DeadLetterScrobble)
    (scrobbled : list ScrobbledPlayObject) (recent : list PlayObject) (oldest : option Z)
  : ClientState :=
  {| requiresAuth := false; checkExistingScrobbles := true; scrobbleDelay := 1000;
     scrobbleSleep := 2000; deadLetterRetries := None;
     initialized := true; authed := false;
     recentScrobbles := recent; scrobbledPlayObjs := scrobbled; oldestScrobbleTime := oldest;
     tracksScrobbled := 0; lastScrobbleCheck := 0; lastScrobbleAttempt := 0;
     scrobbling := false; userScrobblingStopSignal := false;
     queuedScrobbles := queued; deadLetterScrobbles := dead;
     now := 1700000300000; idsDrawn := 0; trace := [] |}.

Definition keepView (st : ClientState) : Refreshed :=
  {| r_recentScrobbles := recentScrobbles st; r_scrobbledPlayObjs := scrobbledPlayObjs st;
     r_oldestScrobbleTime := oldestScrobbleTime st; r_lastScrobbleCheck := now st |}.

(** An adapter whose service takes every scrobble. *)
Definition acceptingAdapter : Adapter := {|
  doScrobble := fun _ p => Ret p;
  alreadyScrobbled := fun _ _ => Ret false;
  refreshScrobbles := fun st => Ret (keepView st)
|}.

(** An adapter whose service fails every scrobble with [e]. *)
Definition failingAdapter (e : JsError) : Adapter := {|
  doScrobble := fun _ _ => Throw e;
  alreadyScrobbled := fun _ _ => Ret false;
  refreshScrobbles := fun st => Ret (keepView st)
|}.

Definition rateLimited : JsError := UpstreamError "Too many requests" false None.
Definition refused : JsError := UpstreamError "Never accepted" true None.
Definition offline : JsError := PlainError "ECONNREFUSED" None.

Definition queuedDuet : QueuedScrobble :=
  {| qs_id := "q-1"; qs_source := "Sample"; qs_play := duetA |}.
Definition queuedOld : QueuedScrobble :=
  {| qs_id := "q-0"; qs_source := "Sample"; qs_play := oldPlay |}.

Definition deadDuet (n : nat) : DeadLetterScrobble :=
  {| dl_id := "q-1"; dl_source := "Sample"; dl_play := duetA; retries := n;
     error := "Too many requests"; lastRetry := None |}.
Definition deadSonora (n : nat) : DeadLetterScrobble :=
  {| dl_id := "q-2"; dl_source := "Sample"; dl_play := sonora; retries := n;
     error := "Too many requests"; lastRetry := None |}.

(** A client that knows an upstream scrobble of time 5000 and has a play
    of time 1000 queued. *)
Definition clientWithOldQueued : ClientState :=
  sampleClient [queuedOld] [] [] [] (Some 5000%Z).

(** A client with one play queued, before and after the worker started. *)
Definition clientWithDuetQueued : ClientState := sampleClient [queuedDuet] [] [] [] None.
Definition workerWithDuetQueued : ClientState := startProcessing clientWithDuetQueued.

(** The client [st] as the option [checkExistingScrobbles: false] makes it. *)
Definition withoutExistingCheck (st : ClientState) : ClientState :=
  Build_ClientState (requiresAuth st) false (scrobbleDelay st) (scrobbleSleep st)
    (deadLetterRetries st) (initialized st) (authed st) (recentScrobbles st) (scrobbledPlayObjs st)
    (oldestScrobbleTime st) (tracksScrobbled st) (lastScrobbleCheck st) (lastScrobbleAttempt st)
    (scrobbling st) (userScrobblingStopSignal st) (queuedScrobbles st) (deadLetterScrobbles st)
    (now st) (idsDrawn st) (trace st).

(** What the service answered to the scrobble of [duetA]. *)
Definition duetResponse : PlayObject :=
  {| data := data duetA;
     meta := {| source := Some "Upstream"; trackId := Some "s-1"; deviceId := None;
                trackProgressPosition := None; newFromSource := false; url_web := None |} |}.

(** A client that scrobbled [duetA] before and knows no recent scrobbles. *)
Definition clientThatScrobbledDuet : ClientState :=
  sampleClient [] [] [{| sp_play := duetA; sp_scrobble := duetResponse |}] [] None.

Definition nidia : Spotify.ArtistObjectSimplified :=
  {| Spotify.artist_id := "a-1"; Spotify.artist_name := "Nidia Gongora" |}.
Definition bongoHop : Spotify.ArtistObjectSimplified :=
  {| Spotify.artist_id := "a-2"; Spotify.artist_name := "The Bongo Hop" |}.
Definition various : Spotify.ArtistObjectSimplified :=
  {| Spotify.artist_id := "a-0"; Spotify.artist_name := "Various Artists" |}.

Definition spotifyTrack (albumArtists : list Spotify.ArtistObjectSimplified)
  : Spotify.TrackObjectFull :=
  {| Spotify.track_artists := Some [nidia; bongoHop];
     Spotify.track_name := "Sonora";
     Spotify.track_id := "t-1";
     Spotify.duration_ms := 215000;
     Spotify.track_album :=
       Some {| Spotify.album_name := "Satingarona, Pt. 2";
               Spotify.album_artists := Some albumArtists |};
     Spotify.external_urls_spotify := None |}.

Definition spotifyHistory (albumArtists : list Spotify.ArtistObjectSimplified)
  : Spotify.ApiObject :=
  Spotify.History {| Spotify.ph_track := spotifyTrack albumArtists;
                     Spotify.played_at := "2023-09-28T14:54:06Z" |}.

Definition sampleFormat (obj : Spotify.ApiObject) : Res PlayObject :=
  Spotify.formatPlayObj (fun _ => 1695912846000%Z) (fun _ => "2023-09-28T14:54:06Z")
    (fun _ name => name) "NoDevice" "SingleUser" obj false.

(** A client with two dead letters: one never retried, one retried once. *)
Definition clientWithDeadLetters : ClientState :=
  sampleClient [] [deadDuet 0; deadSonora 1] [] [] None.

(** * More of the client and of the Spotify source *)

From Stdlib Require Import Lqa.

(** ** Vocabulary of the further properties *)

(** The state a pass of the worker leaves after a scrobble that the service
    took. *)
Definition scrobbledAndDequeued (q : QueuedScrobble) (scrobbledPlay : PlayObject)
    (st3 : ClientState) : ClientState :=
  emitEvent "scrobbleDequeued" (PQueued q)
    (addScrobbledTrack (qs_play q) scrobbledPlay
       (emitEvent "scrobble" (PPlay (qs_play q)) st3)).

(** The effects [st'] added to the trace of [st]. *)
Definition effectsSince (st st' : ClientState) : list Effect :=
  drop (length (trace st)) (trace st').

(** ** More samples *)

(** An adapter whose service knows every play already. *)
Definition knowingAdapter : Adapter := {|
  doScrobble := fun _ p => Ret p;
  alreadyScrobbled := fun _ _ => Ret true;
  refreshScrobbles := fun st => Ret (keepView st)
|}.

(** [opts.delay] as [scrobble] reads it: the client's [scrobbleDelay] when
    it is undefined, 0 when it is [false]. *)
Definition effectiveDelay (delay : option (option Z)) (st : ClientState) : Z :=
  match delay with
  | None => scrobbleDelay st
  | Some None => 0%Z
  | Some (Some d) => d
  end.

(** An effect that is a log line. *)
Definition isLog (e : Effect) : Prop := exists level text, e = ELog level text.

(** The play dates of the dead-letter queue, in its order. *)
Definition deadDates (dead : list DeadLetterScrobble) : list Z :=
  map (fun d => playDate (data (dl_play d))) dead.

(** A client whose upstream snapshot starts after [oldPlay] and that holds
    [oldPlay] as a dead letter. *)
Definition clientWithOldDeadLetter : ClientState :=
  sampleClient []
    [{| dl_id := "q-0"; dl_source := "Sample"; dl_play := oldPlay; retries := 0;
        error := "Too many requests"; lastRetry := None |}]
    [] [] (Some 5000%Z).

(** A client with two dead letters that were never retried. *)
Definition clientWithTwoDeadLetters : ClientState :=
  sampleClient [] [deadSonora 0; deadDuet 0] [] [] None.

(** [st'] is [st] with log lines added to its trace, and nothing else. *)
Definition onlyLogged (st st' : ClientState) : Prop :=
  exists logs, Forall isLog logs /\ st' = set_trace (trace st ++ logs) st.

(** The sample client before it is initialized. *)
Definition notInitialized (st : ClientState) : ClientState :=
  Build_ClientState (requiresAuth st) (checkExistingScrobbles st) (scrobbleDelay st) (scrobbleSleep st)
    (deadLetterRetries st) false (authed st) (recentScrobbles st) (scrobbledPlayObjs st)
    (oldestScrobbleTime st) (tracksScrobbled st) (lastScrobbleCheck st) (lastScrobbleAttempt st)
    (scrobbling st) (userScrobblingStopSignal st) (queuedScrobbles st) (deadLetterScrobbles st)
    (now st) (idsDrawn st) (trace st).

(** The play date of a queue entry. *)
Definition queuedDate (q : QueuedScrobble) : Z := playDate (data (qs_play q)).

(** The identifiers of the queued scrobbles and of the dead letters. *)
Definition queueIds (st : ClientState) : list string :=
  map qs_id (queuedScrobbles st) ++ map dl_id (deadLetterScrobbles st).

(** No identifier occurs twice in the two queues, and each is one that
    [nanoid()] has handed out already. *)
Definition idsFresh `{Utils} (st : ClientState) : Prop :=
  NoDup (queueIds st)
  /\ forall id, id ∈ queueIds st -> exists k, k < idsDrawn st /\ id = nanoid k.

(** The sample client after two plays were queued. *)
Definition clientAfterQueueing : ClientState :=
  @queueScrobble sampleUtils (inr [duetA; sonora]) "Sample" (sampleClient [] [] [] [] None).

(** The recent scrobble [x] scores at least the threshold against
    [playObj]: what the callback of [recentScrobbles.find] returns. *)
Definition scoresAsDuplicate `{Utils} (playObj x : PlayObject) : bool :=
  Qle_bool DUP_SCORE_THRESHOLD (candidateScore x playObj).

(** [closestMatch] as [existingScrobble] starts with it. *)
Definition noClosestMatch : ClosestMatch := {| cm_score := 0%Q; cm_scrobble := None |}.

(** [closestMatch] when it is the recent scrobble [x]. *)
Definition closestIs `{Utils} (playObj x : PlayObject) : ClosestMatch :=
  {| cm_score := candidateScore x playObj; cm_scrobble := Some x |}.

(** A client that knows the recent scrobbles [recent] and nothing else. *)
Definition clientWithRecent (recent : list PlayObject) : ClientState :=
  sampleClient [] [] [] recent None.

(** The weighted sum of the three subscores of the recent scrobble [x]
    against [playObj], before any bonus. *)
Definition weightedScore `{Utils} (x playObj : PlayObject) : Q :=
  (ARTIST_WEIGHT * fst (compareExistingScrobbleArtist x playObj)
   + TITLE_WEIGHT * compareExistingScrobbleTitle x playObj
   + TIME_WEIGHT * timeMatchOf (comparePlayTemporally x playObj))%Q.

(** ** SpotifySource: requests to the Spotify API *)

Module SpotifyApi.

(** What a request of spotify-web-api-node fails with: the error object
    and its [statusCode], when it has one. *)
Record ApiFailure := { statusCode : option Z; failure : JsError }.

(** The body of the answer to [refreshAccessToken()]. *)
Record TokenBody := { access_token : string; refresh_token : option string }.

(** The object [callApi] writes to the credentials file. *)
Record Credentials := { token : option string; refreshTokenStored : option string }.

(** What the source does to the outside world: log lines (a logged error is
    its message with those of its causes), requests with the access token
    they carry, token refreshes, writes of the credentials file and sleeps. *)
Inductive ApiEffect :=
| ALog (level : LogLevel) (msg : string)
| ARequest (withToken : option string)
| ARefresh
| AWriteFile (creds : Credentials)
| ASleep (ms : Z).

Record SourceState := {
  (** [config.data.maxRequestRetries] and [config.data.retryMultiplier],
      when they are set *)
  maxRequestRetries : option Z;
  retryMultiplier : option Z;
  (** [spotifyApi.getAccessToken()] and [spotifyApi.getRefreshToken()] *)
  accessToken : option string;
  refreshToken : option string;
  (** how many requests the source has made *)
  requests : nat;
  effects : list ApiEffect
}.

Definition note (e : ApiEffect) (st : SourceState) : SourceState :=
  Build_SourceState (maxRequestRetries st) (retryMultiplier st) (accessToken st) (refreshToken st)
    (requests st) (effects st ++ [e]).

Definition logger (level : LogLevel) (msg : string) : SourceState -> SourceState :=
  note (ALog level msg).

Definition logError (e : JsError) : SourceState -> SourceState :=
  note (ALog LError (messageWithCauses e)).

Definition setAccessToken (t : option string) (st : SourceState) : SourceState :=
  Build_SourceState (maxRequestRetries st) (retryMultiplier st) t (refreshToken st)
    (requests st) (effects st).

(** The helpers of the source whose code is not at hand, and the calls that
    leave the process. The source is verified for every choice of them. *)
Class Web := {
  (** [hasApiPermissionError(e)] and [hasApiError(e)]: both search the
      messages of [e] and of its causes with [findCauseByFunc] of utils.js *)
  hasApiPermissionError : JsError -> bool;
  hasApiError : JsError -> bool;
  (** [parseRetryAfterSecsFromObj(e)] of utils.js *)
  parseRetryAfterSecsFromObj : ApiFailure -> option Z;
  (** [spotifyApi.refreshAccessToken()], made with the refresh token; the
      body of the answer can be missing *)
  refreshAccessToken : option string -> JsError + option TokenBody;
  (** [writeFile(this.workingCredsPath, JSON.stringify(creds))]: the error
      it throws, if any *)
  writeFile : Credentials -> option JsError
}.

Section CallApi.
Context `{Web} {T : Type}.

(** [func(this.spotifyApi)]: the answer to the [n]-th request of the
    source, made with the access token the API object holds. *)
Variable func : nat -> option string -> ApiFailure + T.

Definition request (st : SourceState) : (ApiFailure + T) * SourceState :=
  (func (requests st) (accessToken st),
   note (ARequest (accessToken st))
     (Build_SourceState (maxRequestRetries st) (retryMultiplier st) (accessToken st)
        (refreshToken st) (S (requests st)) (effects st))).

(** The first inner [try] of [callApi]: the error it catches, if any. *)
Definition refreshTokens (st : SourceState) : option JsError * SourceState :=
  let answer := refreshAccessToken (refreshToken st) in
  let st := note ARefresh st in
  match answer with
  | inl refreshError => (Some refreshError, st)
  | inr body =>
      let access_token := access_token <$> body in
      let refresh_token :=
        match body ≫= refresh_token with
        | Some r => Some r
        | None => refreshToken st
        end in
      let st := setAccessToken access_token st in
      let creds := {| token := access_token; refreshTokenStored := refresh_token |} in
      (writeFile creds, note (AWriteFile creds) st)
  end.

Definition retryText (retries maxRequestRetries retryAfter : Z) : string :=
  "Request failed but retries (" +:+ pretty retries +:+ ") less than max ("
  +:+ pretty maxRequestRetries +:+ "), retrying request after " +:+ pretty retryAfter
  +:+ " seconds...".

Definition noMoreRetriesText (retries maxRequestRetries : Z) : string :=
  "Request failed on retry (" +:+ pretty retries +:+ ") with no more retries permitted (max "
  +:+ pretty maxRequestRetries +:+ ")".

(** [callApi(func, retries)]; [None] when the recursion is deeper than
    [fuel]. *)
Fixpoint callApi (fuel : nat) (retries : Z) (st : SourceState) : option (Res T * SourceState) :=
  let maxRequestRetries := default 1%Z (maxRequestRetries st) in
  let retryMultiplier := default 2%Z (retryMultiplier st) in
  match request st with
  | (inr result, st) => Some (Ret result, st)
  | (inl e, st) =>
      let spotifyError := UpstreamError "Spotify API call failed" false (Some (failure e)) in
      if bool_decide (statusCode e = Some 401%Z) && negb (hasApiPermissionError (failure e)) then
        match refreshToken st with
        | None =>
            Some (Throw (PlainError "Access token was not valid and no refresh token was present"
                           None), st)
        | Some _ =>
            let st := logger LDebug "Access token was not valid, attempting to refresh" st in
            match refreshTokens st with
            | (Some refreshError, st) =>
                let error := UpstreamError "Refreshing access token encountered an error" false
                               (Some refreshError) in
                let st := logError error st in
                let st := logError spotifyError st in
                Some (Throw error, st)
            | (None, st) =>
                match request st with
                | (inr result, st) => Some (Ret result, st)
                | (inl ee, st) =>
                    let secondSpotifyError :=
                      UpstreamError "Spotify API call failed even after refreshing token" false
                        (Some (failure ee)) in
                    let st := logError secondSpotifyError st in
                    let st := logError spotifyError st in
                    Some (Throw secondSpotifyError, st)
                end
            end
        end
      else if (retries <? maxRequestRetries)%Z then
        let retryAfter :=
          default (retryMultiplier * (retries + 1))%Z (parseRetryAfterSecsFromObj e) in
        let st := logger LWarn (retryText retries maxRequestRetries retryAfter) st in
        let st := note (ASleep (retryAfter * 1000)) st in
        match fuel with
        | 0 => None
        | S fuel => callApi fuel (retries + 1) st
        end
      else
        let error := UpstreamError (noMoreRetriesText retries maxRequestRetries) false
                       (Some (failure e)) in
        Some (Throw error, logError error st)
  end.

End CallApi.

(** *** The calls of the API that make plays *)

(** The body of the answer to [getMyCurrentPlayingTrack()] and to
    [getMyCurrentPlaybackState()]: [item] and [progress_ms] can be [null],
    the device can be missing. *)
Record PlaybackBody := {
  pb_device : option Spotify.UserDevice;
  pb_item : option Spotify.TrackObjectFull;
  pb_is_playing : bool;
  pb_timestamp : Z;
  pb_progress_ms : option Z
}.

Inductive ReportedPlayerStatus := playing | paused | stopped.

Record PlayerStateData := {
  platformId : option string * string;
  status : ReportedPlayerStatus;
  play : option PlayObject;
  ps_timestamp : Z;
  position : option Q
}.

(** What [getCurrentPlaybackState] returns: [{device, playerState}] or [{}]. *)
Record PlaybackState := {
  ps_device : option Spotify.UserDevice;
  playerState : option PlayerStateData
}.

(** The requests of spotify-web-api-node that the source makes: the answer
    to the [n]-th request of the source, made with the access token the
    API object holds. [getMyRecentlyPlayedTracks] answers with
    [body.items]; the two others answer with their body, which is missing
    when nothing is played. *)
Class Endpoints := {
  getMyRecentlyPlayedTracks : Z -> nat -> option string -> ApiFailure + list Spotify.ApiObject;
  getMyCurrentPlayingTrack : nat -> option string -> ApiFailure + option PlaybackBody;
  getMyCurrentPlaybackState : nat -> option string -> ApiFailure + option PlaybackBody
}.

Section Plays.
Context `{Web} `{Endpoints}.
Variable parseDate : string -> Z.
Variable toISOString : Z -> string.
Variable deviceLabel : option string -> option string -> option string.
Variable NO_DEVICE NO_USER : string.

Definition formatPlayObj : Spotify.ApiObject -> bool -> Res PlayObject :=
  Spotify.formatPlayObj parseDate toISOString deviceLabel NO_DEVICE NO_USER.

(** A body that has an item, as [formatPlayObj] reads it: it has the key
    [is_playing]; a [progress_ms] of [null] divides to 0. *)
Definition asPlaying (body : PlaybackBody) (item : Spotify.TrackObjectFull) : Spotify.ApiObject :=
  Spotify.Playing {| Spotify.is_playing := pb_is_playing body;
                     Spotify.progress_ms := default 0%Z (pb_progress_ms body);
                     Spotify.timestamp := pb_timestamp body;
                     Spotify.device := pb_device body;
                     Spotify.item := Some item |}.

(** [items.map(x => SpotifySource.formatPlayObj(x))]: the first item that
    cannot be converted ends the conversion. *)
Fixpoint formatAll (items : list Spotify.ApiObject) : Res (list PlayObject) :=
  match items with
  | [] => Ret []
  | x :: rest =>
      match formatPlayObj x false with
      | Throw e => Throw e
      | Ret play =>
          match formatAll rest with
          | Throw e => Throw e
          | Ret plays => Ret (play :: plays)
          end
      end
  end.

(** [getPlayHistory(options)]; [limit] is [options.limit]. *)
Definition getPlayHistory (limit : option Z) (fuel : nat) (st : SourceState)
  : option (Res (list PlayObject) * SourceState) :=
  let limit := default 20%Z limit in
  match callApi (getMyRecentlyPlayedTracks limit) fuel 0 st with
  | None => None
  | Some (Throw e, st) => Some (Throw e, st)
  | Some (Ret items, st) =>
      match formatAll items with
      | Throw e => Some (Throw e, st)
      | Ret plays => Some (Ret (Array_sort sortByOldestPlayDate plays), st)
      end
  end.


Definition playbackStateText : string :=
  "Error occurred while trying to retrieve current playback state".

(** The body of the [try] of [getCurrentPlaybackState], after the request. *)
Definition readPlaybackState (res : option PlaybackBody) : Res PlaybackState :=
  match res ≫= pb_device, res with
  | Some device, Some body =>
      let status :=
        if pb_is_playing body then playing
        else if bool_decide (pb_item body <> None) then paused
        else stopped in
      let formatted :=
        match pb_item body with
        | Some item =>
            match formatPlayObj (asPlaying body item) true with
            | Ret play => Ret (Some play)
            | Throw e => Throw e
            end
        | None => Ret None
        end in
      match formatted with
      | Throw e => Throw e
      | Ret play =>
          Ret {| ps_device := Some device;
                 playerState :=
                   Some {| platformId :=
                             (deviceLabel (Spotify.device_id device) (Spotify.device_name device),
                              NO_USER);
                           status := status;
                           play := play;
                           ps_timestamp := pb_timestamp body;
                           position :=
                             (fun ms => (inject_Z ms / 1000)%Q) <$> pb_progress_ms body |} |}
      end
  | _, _ => Ret {| ps_device := None; playerState := None |}
  end.

(** [getCurrentPlaybackState()] *)
Definition getCurrentPlaybackState (fuel : nat) (st : SourceState)
  : option (Res PlaybackState * SourceState) :=
  match callApi getMyCurrentPlaybackState fuel 0 st with
  | None => None
  | Some (res, st) =>
      let tried :=
        match res with
        | Throw e => Throw e
        | Ret res => readPlaybackState res
        end in
      match tried with
      | Ret state => Some (Ret state, st)
      | Throw e =>
          if hasApiError e
          then Some (Throw (UpstreamError playbackStateText false (Some e)), st)
          else Some (Throw (PlainError playbackStateText (Some e)), st)
      end
  end.

End Plays.

(** *** Vocabulary of the properties of [callApi] *)

(** [maxRequestRetries] with its default, and the retries that are left
    when [callApi] is entered with [retries]. *)
Definition maxRetries (st : SourceState) : Z := default 1%Z (maxRequestRetries st).

Definition retriesLeft (retries : Z) (st : SourceState) : nat :=
  Z.to_nat (maxRetries st - retries).

Definition isRequest (e : ApiEffect) : bool :=
  match e with ARequest _ => true | _ => false end.

Definition isRefresh (e : ApiEffect) : bool :=
  match e with ARefresh => true | _ => false end.

Definition isWrite (e : ApiEffect) : bool :=
  match e with AWriteFile _ => true | _ => false end.

(** The sleeps among the effects, in milliseconds. *)
Definition sleepsOf (l : list ApiEffect) : list Z :=
  omap (fun e => match e with ASleep ms => Some ms | _ => None end) l.

Definition count (f : ApiEffect -> bool) (l : list ApiEffect) : nat := length (List.filter f l).

(** The wait, in seconds, before the retry that follows the failure [e] of
    the attempt number [attempt] (the first attempt is number 1). *)
Definition waitAfter `{Web} (st : SourceState) (e : ApiFailure) (attempt : Z) : Z :=
  default (default 2%Z (retryMultiplier st) * attempt)%Z (parseRetryAfterSecsFromObj e).

Definition noRefreshToken : JsError :=
  PlainError "Access token was not valid and no refresh token was present" None.

(** The failure [e] makes [callApi] refresh the access token. *)
Definition unauthorized `{Web} (e : ApiFailure) : bool :=
  bool_decide (statusCode e = Some 401%Z) && negb (hasApiPermissionError (failure e)).

End SpotifyApi.

(** *** Samples for the Spotify API *)

Definition sampleWeb : SpotifyApi.Web := {|
  SpotifyApi.hasApiPermissionError := fun _ => false;
  SpotifyApi.hasApiError := isNonShowStoppingUpstream;
  SpotifyApi.parseRetryAfterSecsFromObj := fun _ => None;
  SpotifyApi.refreshAccessToken := fun _ =>
    inr (Some {| SpotifyApi.access_token := "fresh"; SpotifyApi.refresh_token := None |});
  SpotifyApi.writeFile := fun _ => None
|}.

(** A source that may retry a request twice and holds a stale token. *)
Definition sampleSource : SpotifyApi.SourceState :=
  {| SpotifyApi.maxRequestRetries := Some 2%Z; SpotifyApi.retryMultiplier := None;
     SpotifyApi.accessToken := Some "stale"; SpotifyApi.refreshToken := Some "refresh";
     SpotifyApi.requests := 0; SpotifyApi.effects := [] |}.

Definition unavailable : SpotifyApi.ApiFailure :=
  {| SpotifyApi.statusCode := Some 503%Z;
     SpotifyApi.failure := PlainError "Service unavailable" None |}.

Definition expired : SpotifyApi.ApiFailure :=
  {| SpotifyApi.statusCode := Some 401%Z;
     SpotifyApi.failure := PlainError "The access token expired" None |}.

(** An API that is unavailable twice and then wants a fresh token. *)
Definition flaky {T : Type} (answer : T) (n : nat) (withToken : option string)
  : SpotifyApi.ApiFailure + T :=
  if n <? 2 then inl unavailable
  else if bool_decide (withToken = Some "fresh") then inr answer else inl expired.

(** An API that is always unavailable. *)
Definition down {T : Type} (n : nat) (withToken : option string) : SpotifyApi.ApiFailure + T :=
  inl unavailable.

(** A body of the playback state: [spotifyTrack] plays, and no device is
    reported. *)
Definition playingWithoutDevice : SpotifyApi.PlaybackBody :=
  {| SpotifyApi.pb_device := None;
     SpotifyApi.pb_item := Some (spotifyTrack [various]);
     SpotifyApi.pb_is_playing := true;
     SpotifyApi.pb_timestamp := 1695912846000%Z;
     SpotifyApi.pb_progress_ms := Some 1000%Z |}.

Definition sampleEndpoints : SpotifyApi.Endpoints := {|
  SpotifyApi.getMyRecentlyPlayedTracks := fun _ =>
    flaky [spotifyHistory [various]; spotifyHistory [bongoHop; nidia]];
  SpotifyApi.getMyCurrentPlayingTrack := fun _ _ => inr None;
  SpotifyApi.getMyCurrentPlaybackState := flaky (Some playingWithoutDevice)
|}.

(** Sample choices of the date functions and of the device label. *)
Definition sampleParseDate (iso : string) : Z := 1695912846000%Z.
Definition sampleToISOString (d : Z) : string := "2023-09-28T14:54:06Z".
Definition sampleDeviceLabel (id name : option string) : option string := name.

(** ** Vocabulary of the status events *)

(** The status a [statusChange] event announces. *)
Definition statusOf (e : Effect) : option string :=
  match e with
  | EEmit eventName (PStatus status) =>
      if String.eqb eventName "statusChange" then Some status else None
  | _ => None
  end.

(** The statuses announced in a trace, in their order. *)
Definition statusChanges (l : list Effect) : list string := omap statusOf l.

Definition noStatus (e : Effect) : Prop := statusOf e = None.

(** On the way from [st] to [st'] the client announced the statuses [l]. *)
Definition announces (st st' : ClientState) (l : list string) : Prop :=
  exists new, trace st' = trace st ++ new /\ statusChanges new = l.

(** ** AbstractScrobbleClient: starting the worker *)

(** What [notifier.notify] is called with. *)
Record Notification := { title : string; message : string; priority : string }.

(** The client with what [startScrobbling] reads and writes besides the
    fields of [ClientState]. *)
Record Supervised := {
  client : ClientState;
  scrobbleRetries : nat;
  (** [config.data.maxPollRetries] and [config.data.retryMultiplier], when
      they are set *)
  maxPollRetries : option Z;
  pollRetryMultiplier : option Z;
  (** [authFailure], undefined until the first authentication test *)
  authFailure : option bool;
  (** the calls of [notifier.notify], in their order *)
  notified : list Notification
}.

Definition onClient (f : ClientState -> ClientState) (sv : Supervised) : Supervised :=
  Build_Supervised (f (client sv)) (scrobbleRetries sv) (maxPollRetries sv)
    (pollRetryMultiplier sv) (authFailure sv) (notified sv).

Definition set_scrobbleRetries (n : nat) (sv : Supervised) : Supervised :=
  Build_Supervised (client sv) n (maxPollRetries sv) (pollRetryMultiplier sv) (authFailure sv)
    (notified sv).

Definition notify (n : Notification) (sv : Supervised) : Supervised :=
  Build_Supervised (client sv) (scrobbleRetries sv) (maxPollRetries sv)
    (pollRetryMultiplier sv) (authFailure sv) (notified sv ++ [n]).

Definition set_authFailure (b : bool) (sv : Supervised) : Supervised :=
  Build_Supervised (client sv) (scrobbleRetries sv) (maxPollRetries sv)
    (pollRetryMultiplier sv) (Some b) (notified sv).

Definition set_authed (b : bool) (st : ClientState) : ClientState :=
  Build_ClientState (requiresAuth st) (checkExistingScrobbles st) (scrobbleDelay st) (scrobbleSleep st)
    (deadLetterRetries st) (initialized st) b (recentScrobbles st) (scrobbledPlayObjs st)
    (oldestScrobbleTime st) (tracksScrobbled st) (lastScrobbleCheck st) (lastScrobbleAttempt st)
    (scrobbling st) (userScrobblingStopSignal st) (queuedScrobbles st) (deadLetterScrobbles st)
    (now st) (idsDrawn st) (trace st).

(** How [startScrobbling] comes out in the model: it returned; or a run
    of the worker, started on the client given, did not end within the
    worker's fuel; or its own loop went round more often than its fuel. *)
Inductive Started :=
| Returned (sv : Supervised)
| WorkerRunsOn (st : ClientState)
| LoopRunsOn.

(** [e.message] *)
Definition messageOf (e : JsError) : string :=
  match e with
  | UpstreamError m _ _ | PlainError m _ => m
  end.

Section Supervisor.
Context `{Utils} `{Adapter}.
(** [pollingBackoff(attempt, multiplier)] of utils.js and
    [DEFAULT_RETRY_MULTIPLIER] of common/infrastructure/Atomic.js, whose
    source is not at hand: the client is verified for every choice of
    them. *)
Variable pollingBackoff : nat -> Z -> Z.
Variable DEFAULT_RETRY_MULTIPLIER : Z.
(** [this.identifier] and [this.name] *)
Variables identifier name : string.

Definition processingErrorTitle : string := "Client - " +:+ identifier +:+ " - Processing Error".

(** The [catch] in the loop of [startScrobbling]; the flag says whether the
    loop is left by [break]. *)
Definition afterFailedProcessing (e : JsError) (maxRetries retryMultiplier : Z) (sv : Supervised)
  : bool * Supervised :=
  let st := client sv in
  if negb (initialized st) then
    let sv := onClient (logMsg LWarn
                "Stopping scrobble processing due to client no longer being initialized.") sv in
    (true,
     notify {| title := processingErrorTitle;
               message := "Encountered error while scrobble processing and client is no longer initialized, stopping processing!. | Error: "
                          +:+ messageOf e;
               priority := "error" |} sv)
  else if requiresAuth st && negb (authed st) then
    let sv := onClient (logMsg LWarn
                "Stopping scrobble processing due to client no longer being authenticated.") sv in
    (true,
     notify {| title := processingErrorTitle;
               message := "Encountered error while scrobble processing and client is no longer authenticated, stopping processing!. | Error: "
                          +:+ messageOf e;
               priority := "error" |} sv)
  else
    let sv :=
      if (Z.of_nat (scrobbleRetries sv) <? maxRetries)%Z then
        let delayFor := pollingBackoff (scrobbleRetries sv + 1) retryMultiplier in
        let sv := onClient (logMsg LInfo
                    ("Scrobble processing retries (" +:+ pretty (scrobbleRetries sv)
                     +:+ ") less than max processing retries (" +:+ pretty maxRetries
                     +:+ "), restarting processing after " +:+ pretty delayFor
                     +:+ " second delay...")) sv in
        let sv := notify {| title := "Client - " +:+ name +:+ " - Processing Retry";
                            message := "Encountered error while polling but retries ("
                                       +:+ pretty (scrobbleRetries sv)
                                       +:+ ") are less than max poll retries ("
                                       +:+ pretty maxRetries
                                       +:+ "), restarting processing after "
                                       +:+ pretty delayFor +:+ " second delay. | Error: "
                                       +:+ messageOf e;
                            priority := "warn" |} sv in
        onClient (sleep (delayFor * 1000)) sv
      else
        let sv := onClient (logMsg LWarn
                    ("Scrobble processing retries (" +:+ pretty (scrobbleRetries sv)
                     +:+ ") equal to max processing retries (" +:+ pretty maxRetries
                     +:+ "), stopping processing!")) sv in
        notify {| title := processingErrorTitle;
                  message := "Encountered error while scrobble processing and retries ("
                             +:+ pretty (scrobbleRetries sv)
                             +:+ ") are equal to max processing retries ("
                             +:+ pretty maxRetries +:+ "), stopping processing!. | Error: "
                             +:+ messageOf e;
                  priority := "error" |} sv in
    (false, set_scrobbleRetries (S (scrobbleRetries sv)) sv).

(** The [while (pollRes === undefined && this.scrobbleRetries <= maxRetries)]
    of [startScrobbling]; [workerFuel] is the fuel of each [doProcessing].
    A run of the worker that does not end within [workerFuel] ends the
    model's loop with the client that run was started on; a loop that goes
    round more often than [fuel] is told apart from it. *)
Fixpoint pollLoop (fuel workerFuel : nat) (maxRetries retryMultiplier : Z) (sv : Supervised)
  : Started :=
  if (Z.of_nat (scrobbleRetries sv) <=? maxRetries)%Z then
    match fuel with
    | 0 => LoopRunsOn
    | S fuel =>
        match doProcessing workerFuel (client sv) with
        | None => WorkerRunsOn (client sv)
        | Some (Ret _, st) => Returned (onClient (fun _ => st) sv)
        | Some (Throw e, st) =>
            match afterFailedProcessing e maxRetries retryMultiplier (onClient (fun _ => st) sv) with
            | (true, sv) => Returned sv
            | (false, sv) => pollLoop fuel workerFuel maxRetries retryMultiplier sv
            end
        end
    end
  else Returned sv.

(** [startScrobbling()] *)
Definition startScrobbling (fuel workerFuel : nat) (sv : Supervised) : Started :=
  let sv := set_scrobbleRetries 0 sv in
  let maxPollRetries := default 5%Z (maxPollRetries sv) in
  let retryMultiplier := default DEFAULT_RETRY_MULTIPLIER (pollRetryMultiplier sv) in
  let maxRetries := Z.max 0 maxPollRetries in
  if scrobbling (client sv) then
    Returned (onClient (logMsg LWarn
                "Already scrobble processing! Processing needs to be stopped before it can be started")
                sv)
  else pollLoop fuel workerFuel maxRetries retryMultiplier sv.

End Supervisor.

(** *** The authentication test *)

Section Auth.
(** [doAuthentication()], which a concrete client overrides, and the
    helpers [hasNodeNetworkException(e)] of common/errors/NodeErrors.js and
    [hasUpstreamError(e, false)], which searches the causes of [e] with
    [findCauseByFunc] of utils.js; their source is not at hand. *)
Variable doAuthentication : ClientState -> Res bool.
Variable hasNodeNetworkException : JsError -> bool.
Variable hasNonShowStoppingUpstreamError : JsError -> bool.

(** [canTryAuth()] *)
Definition canTryAuth (sv : Supervised) : bool :=
  authGated (client sv) && negb (bool_decide (authFailure sv = Some true)).

(** [testAuth()] *)
Definition testAuth (sv : Supervised) : Supervised :=
  match doAuthentication (client sv) with
  | Ret authed =>
      let sv := onClient (set_authed authed) sv in
      set_authFailure (negb authed) sv
  | Throw e =>
      let sv := set_authFailure
                  (negb (hasNodeNetworkException e || hasNonShowStoppingUpstreamError e)) sv in
      let sv := onClient (set_authed false) sv in
      onClient (logMsg LError
                  (messageWithCauses
                     (PlainError
                        ("Authentication test failed!"
                         +:+ (if bool_decide (authFailure sv = Some false)
                              then " Due to a network issue. Will retry authentication on next heartbeat."
                              else ""))
                        (Some e)))) sv
  end.

End Auth.

(** The retries [startScrobbling] allows: [Math.max(0, maxPollRetries)]. *)
Definition maxRetriesOf (sv : Supervised) : nat :=
  Z.to_nat (Z.max 0 (default 5%Z (maxPollRetries sv))).

(** As many runs of the worker, each announcing its start and its end. *)
Definition runsAnnounced (attempts : nat) : list string :=
  concat (replicate attempts ["Running"; "Idle"]).

(** A client under supervision, with the defaults of the configuration. *)
Definition supervised (st : ClientState) : Supervised :=
  {| client := st; scrobbleRetries := 0; maxPollRetries := Some 2%Z;
     pollRetryMultiplier := None; authFailure := None; notified := [] |}.

(** A sample backoff: the attempt times the multiplier. *)
Definition samplePollingBackoff (attempt : nat) (multiplier : Z) : Z :=
  (Z.of_nat attempt * multiplier)%Z.

(** * Properties *)

(** ** The client at work on the samples *)

(** Two plays queued newest first leave the queue oldest first. *)
Example queueScrobble_sorts_sample :
  map qs_play (queuedScrobbles (@queueScrobble sampleUtils (inr [duetB; duetA]) "Sample"
                                  (sampleClient [] [] [] [] None)))
  = [duetA; duetB].
Proof. vm_compute. reflexivity. Qed.

(** Dead-letter recovery: a scrobble that fails with a rate limit lands in
    the dead-letter queue with no retries; the next run against a service
    that answers removes it and records the scrobble. *)
Example dead_letter_recovery_sample :
  let failed := snd (@processNextQueued sampleUtils (failingAdapter rateLimited)
                       workerWithDuetQueued) in
  let retried := snd (@processDeadLetterQueue sampleUtils acceptingAdapter None failed) in
  deadLetterScrobbles failed = [deadDuet 0]
  /\ queuedScrobbles failed = []
  /\ deadLetterScrobbles retried = []
  /\ scrobbledPlayObjs retried = [{| sp_play := duetA; sp_scrobble := duetA |}].
Proof. vm_compute. repeat split. Qed.

(** With the reference weights the one-artist play of the spec's dedup
    scenario scores 0.88625 against the two-artist scrobble: the weighted
    sum is 0.73 and the multi-artist bonus lifts it over the threshold. *)
Example sonora_score_sample :
  (@candidateScore sampleUtils sonoraScrobbled sonora == 0.88625)%Q
  /\ (@DUP_SCORE_THRESHOLD sampleUtils <= @candidateScore sampleUtils sonoraScrobbled sonora)%Q.
Proof. split; vm_compute; [reflexivity | discriminate]. Qed.

(** ** The time-frame check *)

Lemma timeFrameIsValid_none `{Utils} (st : ClientState) (playObj : PlayObject) :
  oldestScrobbleTime st = None ->
  timeFrameIsValid st playObj = (true, "").
Proof.
  intros Hnone. unfold timeFrameIsValid. now rewrite Hnone.
Qed.

(** C10. When the client has no [oldestScrobbleTime], [timeFrameIsValid]
    answers [true] with an empty log text for every play, whatever its
    play date: two plays of any dates get the same answer. *)
Theorem timeFrameIsValid_without_snapshot `{Utils} (st : ClientState) (playObj : PlayObject) :
  oldestScrobbleTime st = None ->
  timeFrameIsValid st playObj = (true, "")
  /\ forall other : PlayObject, timeFrameIsValid st other = timeFrameIsValid st playObj.
Proof.
  intros Hnone. split.
  - now apply timeFrameIsValid_none.
  - intros other. now rewrite !timeFrameIsValid_none.
Qed.

Lemma timeFrameIsValid_without_snapshot_witness :
  @timeFrameIsValid sampleUtils (sampleClient [] [] [] [] None) oldPlay = (true, "").
Proof.
  destruct (@timeFrameIsValid_without_snapshot sampleUtils (sampleClient [] [] [] [] None) oldPlay)
    as [Hvalid _].
  - reflexivity.
  - exact Hvalid.
Defined.

(** ** Frames and traces

    What the steps of the worker leave alone, and what they add to the
    trace. *)


Lemma notDoScrobble_only play e : notDoScrobble e -> doScrobbleOnly play e.
Proof. intros Hn p ->. now destruct (Hn p). Qed.

Lemma extendsTrace_refl P st st' : trace st' = trace st -> extendsTrace P st st'.
Proof. intros E. exists []. rewrite E, app_nil_r. auto. Qed.

Lemma extendsTrace_trans P st1 st2 st3 :
  extendsTrace P st1 st2 -> extendsTrace P st2 st3 -> extendsTrace P st1 st3.
Proof.
  intros (n1 & E1 & F1) (n2 & E2 & F2). exists (n1 ++ n2).
  rewrite E2, E1, app_assoc. split; [reflexivity | now apply Forall_app].
Qed.

Lemma extendsTrace_perform P e st : P e -> extendsTrace P st (perform e st).
Proof. intros He. exists [e]. split; [reflexivity | now repeat constructor]. Qed.

Lemma extendsTrace_weaken (P Q : Effect -> Prop) st st' :
  (forall e, P e -> Q e) -> extendsTrace P st st' -> extendsTrace Q st st'.
Proof.
  intros HPQ (new & E & F). exists new. split; [exact E |].
  eapply Forall_impl; eauto.
Qed.

Lemma notDoScrobble_log l m : notDoScrobble (ELog l m).
Proof. intros p; discriminate. Qed.
Lemma notDoScrobble_emit n x : notDoScrobble (EEmit n x).
Proof. intros p; discriminate. Qed.
Lemma notDoScrobble_already p : notDoScrobble (ECallAlreadyScrobbled p).
Proof. intros q; discriminate. Qed.
Lemma notDoScrobble_refresh : notDoScrobble ECallRefreshScrobbles.
Proof. intros p; discriminate. Qed.
Lemma notDoScrobble_sleep ms : notDoScrobble (ESleep ms).
Proof. intros p; discriminate. Qed.

Lemma doScrobbleOnly_call play : doScrobbleOnly play (ECallDoScrobble play).
Proof. now intros p [= ->]. Qed.

Create HintDb trace discriminated.
#[local] Hint Resolve notDoScrobble_log notDoScrobble_emit notDoScrobble_already
  notDoScrobble_refresh notDoScrobble_sleep notDoScrobble_only doScrobbleOnly_call : trace.

Section TraceSteps.
Variable P : Effect -> Prop.
Variables st st1 : ClientState.
Hypothesis Hext : extendsTrace P st st1.

Lemma extendsTrace_same st2 : trace st2 = trace st1 -> extendsTrace P st st2.
Proof. intros E. eapply extendsTrace_trans; [exact Hext | now apply extendsTrace_refl]. Qed.

Lemma extendsTrace_then e : P e -> extendsTrace P st (perform e st1).
Proof. intros He. eapply extendsTrace_trans; [exact Hext | now apply extendsTrace_perform]. Qed.

Lemma extendsTrace_log l m : P (ELog l m) -> extendsTrace P st (logMsg l m st1).
Proof. apply extendsTrace_then. Qed.

Lemma extendsTrace_emit n x : P (EEmit n x) -> extendsTrace P st (emitEvent n x st1).
Proof. apply extendsTrace_then. Qed.

Lemma extendsTrace_sleep ms : P (ESleep ms) -> extendsTrace P st (sleep ms st1).
Proof.
  intros He. apply (extendsTrace_trans _ _ (perform (ESleep ms) st1)).
  - now apply extendsTrace_then.
  - now apply extendsTrace_refl.
Qed.

Lemma extendsTrace_set_queuedScrobbles v : extendsTrace P st (set_queuedScrobbles v st1).
Proof. now apply extendsTrace_same. Qed.
Lemma extendsTrace_set_deadLetterScrobbles v : extendsTrace P st (set_deadLetterScrobbles v st1).
Proof. now apply extendsTrace_same. Qed.
Lemma extendsTrace_set_scrobbledPlayObjs v : extendsTrace P st (set_scrobbledPlayObjs v st1).
Proof. now apply extendsTrace_same. Qed.
Lemma extendsTrace_set_tracksScrobbled v : extendsTrace P st (set_tracksScrobbled v st1).
Proof. now apply extendsTrace_same. Qed.
Lemma extendsTrace_set_lastScrobbleAttempt v : extendsTrace P st (set_lastScrobbleAttempt v st1).
Proof. now apply extendsTrace_same. Qed.
Lemma extendsTrace_set_idsDrawn v : extendsTrace P st (set_idsDrawn v st1).
Proof. now apply extendsTrace_same. Qed.
Lemma extendsTrace_set_scrobbling v : extendsTrace P st (set_scrobbling v st1).
Proof. now apply extendsTrace_same. Qed.
Lemma extendsTrace_addScrobbledTrack a b : extendsTrace P st (addScrobbledTrack a b st1).
Proof. now apply extendsTrace_same. Qed.

End TraceSteps.

#[local] Hint Resolve extendsTrace_log extendsTrace_emit extendsTrace_sleep extendsTrace_then
  extendsTrace_set_queuedScrobbles extendsTrace_set_deadLetterScrobbles
  extendsTrace_set_scrobbledPlayObjs extendsTrace_set_tracksScrobbled
  extendsTrace_set_lastScrobbleAttempt extendsTrace_set_idsDrawn extendsTrace_set_scrobbling
  extendsTrace_addScrobbledTrack : trace.


Section WorkerFacts.
Context `{Utils} `{Adapter}.

Lemma callRefreshScrobbles_frame st r st1 :
  callRefreshScrobbles st = (r, st1) ->
  sameQueues st st1 /\ extendsTrace notDoScrobble st st1.
Proof.
  unfold callRefreshScrobbles. destruct (refreshScrobbles st); intros [= <- <-].
  - split; [now constructor |]. apply (extendsTrace_perform _ ECallRefreshScrobbles); auto with trace.
  - split; [now constructor |]. apply extendsTrace_perform; auto with trace.
Qed.

Lemma refreshBeforeDequeue_frame st r st1 :
  refreshBeforeDequeue st = (r, st1) ->
  sameQueues st st1 /\ extendsTrace notDoScrobble st st1.
Proof.
  unfold refreshBeforeDequeue. destruct (getLatestQueuePlayDate st).
  - destruct (_ <? _)%Z.
    + apply callRefreshScrobbles_frame.
    + intros [= <- <-]. split; [now constructor | now apply extendsTrace_refl].
  - intros [= <- <-]. split; [now constructor | now apply extendsTrace_refl].
Qed.

Lemma refreshBeforeRetry_frame st r st1 :
  refreshBeforeRetry st = (r, st1) ->
  sameQueues st st1 /\ extendsTrace notDoScrobble st st1.
Proof.
  unfold refreshBeforeRetry. destruct (getLatestQueuePlayDate st).
  - destruct (_ <? _)%Z.
    + apply callRefreshScrobbles_frame.
    + intros [= <- <-]. split; [now constructor | now apply extendsTrace_refl].
  - intros [= <- <-]. split; [now constructor | now apply extendsTrace_refl].
Qed.

(** The time-frame check reads nothing but [oldestScrobbleTime]. *)
Lemma timeFrameIsValid_oldest st st' playObj :
  oldestScrobbleTime st' = oldestScrobbleTime st ->
  timeFrameIsValid st' playObj = timeFrameIsValid st playObj.
Proof. intros E. unfold timeFrameIsValid. now rewrite E. Qed.

Lemma timeFrameIsValid_after st playObj oldest :
  oldestScrobbleTime st = Some oldest ->
  fst (timeFrameIsValid st playObj) = true <-> (oldest < playDate (data playObj))%Z.
Proof.
  intros E. unfold timeFrameIsValid, isAfter. rewrite E. simpl. apply Z.ltb_lt.
Qed.

(** A play outside the time frame: the pass drops it. *)
Lemma processNextQueued_invalid st st1 q rest :
  queuedScrobbles st = q :: rest ->
  refreshBeforeDequeue st = (Ret tt, st1) ->
  fst (timeFrameIsValid st1 (qs_play q)) = false ->
  processNextQueued st =
    (Ret tt,
     emitEvent "scrobbleDequeued" (PQueued q)
       (logMsg LDebug
          (willNotScrobbleText (qs_play q) (qs_source q) (snd (timeFrameIsValid st1 (qs_play q))))
          (set_queuedScrobbles rest st1))).
Proof.
  intros Hq Hr Hv. unfold processNextQueued. rewrite Hr.
  destruct (refreshBeforeDequeue_frame _ _ _ Hr) as [[Eq _ _ _ _ _] _].
  rewrite Eq, Hq.
  rewrite (timeFrameIsValid_oldest st1 (set_queuedScrobbles rest st1)) by reflexivity.
  destruct (timeFrameIsValid st1 (qs_play q)) as [valid log]. simpl in Hv. subst valid.
  reflexivity.
Qed.

End WorkerFacts.

(** C8. With an [oldestScrobbleTime], [timeFrameIsValid] answers [true]
    exactly for the plays whose play date is strictly after it; and a pass
    of the worker loop over a queued play for which it answers [false]
    takes the play off the queue and goes on, without a call of the
    adapter's [doScrobble] and without adding to [scrobbledPlayObjs] or to
    the dead-letter queue. *)
Theorem timeFrame_invalid_play_dropped `{Utils} `{Adapter}
    (st st1 : ClientState) (q : QueuedScrobble) (rest : list QueuedScrobble) :
  queuedScrobbles st = q :: rest ->
  refreshBeforeDequeue st = (Ret tt, st1) ->
  fst (timeFrameIsValid st1 (qs_play q)) = false ->
  (forall (c : ClientState) (playObj : PlayObject) (oldest : Z),
      oldestScrobbleTime c = Some oldest ->
      fst (timeFrameIsValid c playObj) = true <-> (oldest < playDate (data playObj))%Z)
  /\ (exists oldest, oldestScrobbleTime st1 = Some oldest
                     /\ (playDate (data (qs_play q)) <= oldest)%Z)
  /\ exists st',
      processNextQueued st = (Ret tt, st')
      /\ queuedScrobbles st' = rest
      /\ scrobbledPlayObjs st' = scrobbledPlayObjs st1
      /\ tracksScrobbled st' = tracksScrobbled st
      /\ deadLetterScrobbles st' = deadLetterScrobbles st
      /\ extendsTrace notDoScrobble st st'
      /\ forall fuel, processQueue (S fuel) st = processQueue fuel st'.
Proof.
  intros Hq Hr Hv. split; [| split].
  - intros c playObj oldest. apply timeFrameIsValid_after.
  - destruct (oldestScrobbleTime st1) as [oldest |] eqn:Eo.
    + exists oldest. split; [reflexivity |].
      destruct (Z.le_gt_cases (playDate (data (qs_play q))) oldest) as [Hle | Hgt]; [exact Hle |].
      apply (timeFrameIsValid_after st1 (qs_play q) oldest Eo) in Hgt. congruence.
    + rewrite (timeFrameIsValid_none st1 _ Eo) in Hv. discriminate.
  - destruct (refreshBeforeDequeue_frame _ _ _ Hr) as [[Eq Ed _ _ Et _] Htr].
    eexists. split; [apply (processNextQueued_invalid st st1 q rest Hq Hr Hv) |].
    split; [reflexivity |]. split; [reflexivity |]. split; [exact Et |]. split; [exact Ed |].
    split.
    + auto with trace.
    + intros fuel. simpl. rewrite Hq.
      now rewrite (processNextQueued_invalid st st1 q rest Hq Hr Hv).
Qed.

Lemma timeFrame_invalid_play_dropped_witness :
  exists st',
    @processNextQueued sampleUtils acceptingAdapter clientWithOldQueued = (Ret tt, st')
    /\ queuedScrobbles st' = []
    /\ scrobbledPlayObjs st' = []
    /\ deadLetterScrobbles st' = []
    /\ extendsTrace notDoScrobble clientWithOldQueued st'.
Proof.
  destruct (@timeFrame_invalid_play_dropped sampleUtils acceptingAdapter
              clientWithOldQueued
              (snd (@refreshBeforeDequeue acceptingAdapter clientWithOldQueued))
              queuedOld [])
    as (_ & _ & st' & Hrun & Hq & Hs & _ & Hd & Htr & _).
  - reflexivity.
  - vm_compute. reflexivity.
  - vm_compute. reflexivity.
  - exists st'. repeat (split; [assumption |]). assumption.
Defined.

(** ** The worker loop and a failed scrobble *)

Section FailedScrobble.
Context `{Utils} `{Adapter}.

Lemma callAlreadyScrobbled_frame play st r st2 :
  callAlreadyScrobbled play st = (r, st2) ->
  keepsQueues st st2 /\ extendsTrace notDoScrobble st st2.
Proof.
  unfold callAlreadyScrobbled. intros [= <- <-].
  split; [now constructor | apply extendsTrace_perform; auto with trace].
Qed.

Lemma scrobble_frame play delay st r st3 :
  scrobble play delay st = (r, st3) ->
  keepsQueues st st3 /\ extendsTrace (doScrobbleOnly play) st st3.
Proof.
  unfold scrobble. intros [= <- <-].
  destruct (negb _); [destruct (0 <? _)%Z |];
    (split; [now constructor | auto 8 using extendsTrace_refl with trace]).
Qed.

Lemma addDeadLetterScrobble_dead q e st :
  deadLetterScrobbles (addDeadLetterScrobble q (inl e) st)
  = Array_sort deadByOldestPlayDate (deadLetterScrobbles st ++ [deadEntryOf q e]).
Proof. reflexivity. Qed.

Lemma Array_sort_Permutation {A : Type} (compareFn : A -> A -> comparison) (l : list A) :
  Array_sort compareFn l ≡ₚ l.
Proof. apply merge_sort_Permutation. Qed.

Lemma processNextQueued_failed st st1 st2 st3 q rest e :
  queuedScrobbles st = q :: rest ->
  refreshBeforeDequeue st = (Ret tt, st1) ->
  fst (timeFrameIsValid st1 (qs_play q)) = true ->
  callAlreadyScrobbled (qs_play q) (set_queuedScrobbles rest st1) = (Ret false, st2) ->
  scrobble (qs_play q) None st2 = (Throw e, st3) ->
  processNextQueued st =
    if isNonShowStoppingUpstream e
    then (Ret tt, deadLettered q e st3)
    else (Throw (scrobbleFailure e), set_queuedScrobbles (q :: queuedScrobbles st3) st3).
Proof.
  intros Hq Hr Hv Ha Hs. unfold processNextQueued. rewrite Hr.
  destruct (refreshBeforeDequeue_frame _ _ _ Hr) as [[Eq _ _ _ _ _] _].
  rewrite Eq, Hq.
  rewrite (timeFrameIsValid_oldest st1 (set_queuedScrobbles rest st1)) by reflexivity.
  destruct (timeFrameIsValid st1 (qs_play q)) as [valid log]. simpl in Hv. subst valid.
  rewrite Ha, Hs. reflexivity.
Qed.

(** A pass that does not throw takes exactly one entry off the queue. *)
Lemma processNextQueued_shrinks st r st' :
  processNextQueued st = (Ret r, st') ->
  S (length (queuedScrobbles st')) = length (queuedScrobbles st).
Proof.
  unfold processNextQueued.
  destruct (refreshBeforeDequeue st) as [r0 st1] eqn:Hr.
  destruct (refreshBeforeDequeue_frame _ _ _ Hr) as [[Eq1 _ _ _ _ _] _].
  destruct r0 as [[] | e0]; [| discriminate].
  rewrite <- Eq1. destruct (queuedScrobbles st1) as [| q rest]; [discriminate |].
  destruct (timeFrameIsValid _ _) as [valid log]. destruct valid.
  - destruct (callAlreadyScrobbled _ _) as [ra st2] eqn:Ha.
    destruct (callAlreadyScrobbled_frame _ _ _ _ Ha) as [[Eq2 _ _ _ _] _]. simpl in Eq2.
    destruct ra as [[|] | ea]; [| | discriminate].
    + intros [= _ <-]. simpl. now rewrite Eq2.
    + destruct (scrobble _ _ _) as [rs st3] eqn:Hs.
      destruct (scrobble_frame _ _ _ _ _ Hs) as [[Eq3 _ _ _ _] _].
      destruct rs as [scrobbledPlay | e].
      * intros [= _ <-]. simpl. now rewrite Eq3, Eq2.
      * destruct (isNonShowStoppingUpstream e); [| discriminate].
        intros [= _ <-]. simpl. now rewrite Eq3, Eq2.
  - intros [= _ <-]. reflexivity.
Qed.

(** The fuel the worker gives the inner loop, the length of the queue, is
    enough for it to end. *)
Lemma processQueue_total fuel : forall st,
  length (queuedScrobbles st) <= fuel -> exists res, processQueue fuel st = Some res.
Proof.
  induction fuel as [| fuel IH]; intros st Hlen.
  - destruct (queuedScrobbles st) eqn:Eq; [| simpl in Hlen; lia].
    simpl. rewrite Eq. eauto.
  - simpl. destruct (queuedScrobbles st) eqn:Eq; [eauto |].
    destruct (processNextQueued st) as [r st1] eqn:Hp. destruct r as [u | e]; [| eauto].
    apply IH. apply processNextQueued_shrinks in Hp. rewrite Eq in Hp. simpl in *. lia.
Qed.

End FailedScrobble.

(** C2. A pass of the worker loop over the queued scrobble [q] whose
    scrobble call throws [e]. When [e] is an [UpstreamError] that is not show
    stopping, [q] is added to [deadLetterScrobbles] and the loop goes on
    with the rest of the queue. For every other error [q] is put back at
    the front of [queuedScrobbles] and an error with cause [e] is thrown out
    of the loop and out of [doProcessing], which stops scrobbling. *)
Theorem failed_scrobble_dead_letter_or_rethrow `{Utils} `{Adapter}
    (st st1 st2 st3 : ClientState) (q : QueuedScrobble) (rest : list QueuedScrobble)
    (e : JsError) :
  queuedScrobbles st = q :: rest ->
  refreshBeforeDequeue st = (Ret tt, st1) ->
  fst (timeFrameIsValid st1 (qs_play q)) = true ->
  callAlreadyScrobbled (qs_play q) (set_queuedScrobbles rest st1) = (Ret false, st2) ->
  scrobble (qs_play q) None st2 = (Throw e, st3) ->
  (isNonShowStoppingUpstream e = true ->
     exists st',
       processNextQueued st = (Ret tt, st')
       /\ queuedScrobbles st' = rest
       /\ deadLetterScrobbles st' ≡ₚ deadLetterScrobbles st ++ [deadEntryOf q e]
       /\ forall fuel, processQueue (S fuel) st = processQueue fuel st')
  /\ (isNonShowStoppingUpstream e = false ->
     exists st',
       processNextQueued st = (Throw (scrobbleFailure e), st')
       /\ queuedScrobbles st' = q :: rest
       /\ deadLetterScrobbles st' = deadLetterScrobbles st
       /\ (forall fuel, processQueue (S fuel) st = Some (Throw (scrobbleFailure e), st'))
       /\ forall st0 fuel,
            scrobbling st0 = false ->
            userScrobblingStopSignal st0 = false ->
            st = startProcessing st0 ->
            doProcessing (S fuel) st0
            = Some (Throw (scrobbleFailure e), interruptProcessing (scrobbleFailure e) st')
            /\ queuedScrobbles (interruptProcessing (scrobbleFailure e) st') = q :: rest
            /\ scrobbling (interruptProcessing (scrobbleFailure e) st') = false).
Proof.
  intros Hq Hr Hv Ha Hs.
  pose proof (processNextQueued_failed st st1 st2 st3 q rest e Hq Hr Hv Ha Hs) as Hrun.
  destruct (refreshBeforeDequeue_frame _ _ _ Hr) as [[Eq1 Ed1 _ _ _ _] _].
  destruct (callAlreadyScrobbled_frame _ _ _ _ Ha) as [[Eq2 Ed2 _ _ _] _].
  destruct (scrobble_frame _ _ _ _ _ Hs) as [[Eq3 Ed3 _ _ _] _].
  simpl in Eq2, Ed2.
  assert (Hq3 : queuedScrobbles st3 = rest) by congruence.
  assert (Hd3 : deadLetterScrobbles st3 = deadLetterScrobbles st) by congruence.
  split; intros He; rewrite He in Hrun.
  - exists (deadLettered q e st3). split; [exact Hrun |]. split; [exact Hq3 |]. split.
    + change (deadLetterScrobbles (deadLettered q e st3))
        with (deadLetterScrobbles (addDeadLetterScrobble q (inl e) st3)).
      rewrite addDeadLetterScrobble_dead, Array_sort_Permutation, Hd3. reflexivity.
    + intros fuel. simpl. now rewrite Hq, Hrun.
  - exists (set_queuedScrobbles (q :: queuedScrobbles st3) st3).
    split; [exact Hrun |]. split; [simpl; now rewrite Hq3 |]. split; [exact Hd3 |].
    assert (Hloop : forall fuel, processQueue (S fuel) st
                     = Some (Throw (scrobbleFailure e),
                             set_queuedScrobbles (q :: queuedScrobbles st3) st3)).
    { intros fuel. simpl. now rewrite Hq, Hrun. }
    split; [exact Hloop |].
    intros st0 fuel Hs0 Hu0 Est. split; [| split].
    + unfold doProcessing. rewrite Hs0, <- Est. simpl processingLoop.
      assert (Hstop : shouldStopScrobbleProcessing st = false).
      { subst st. unfold shouldStopScrobbleProcessing. simpl. exact Hu0. }
      rewrite Hstop.
      replace (length (queuedScrobbles st)) with (S (length rest)) by now rewrite Hq.
      rewrite Hloop. reflexivity.
    + simpl. now rewrite Hq3.
    + reflexivity.
Qed.

Lemma failed_scrobble_dead_letter_or_rethrow_witness :
  (exists st',
      @processNextQueued sampleUtils (failingAdapter rateLimited) workerWithDuetQueued = (Ret tt, st')
      /\ queuedScrobbles st' = []
      /\ deadLetterScrobbles st' ≡ₚ [] ++ [deadEntryOf queuedDuet rateLimited])
  /\ (exists st',
      @doProcessing sampleUtils (failingAdapter refused) 1 clientWithDuetQueued
      = Some (Throw (scrobbleFailure refused), interruptProcessing (scrobbleFailure refused) st')
      /\ queuedScrobbles (interruptProcessing (scrobbleFailure refused) st') = [queuedDuet]).
Proof.
  split.
  - pose (A := failingAdapter rateLimited).
    pose (st1 := snd (@refreshBeforeDequeue A workerWithDuetQueued)).
    pose (st2 := snd (@callAlreadyScrobbled A duetA (set_queuedScrobbles [] st1))).
    pose (st3 := snd (@scrobble A duetA None st2)).
    destruct (@failed_scrobble_dead_letter_or_rethrow sampleUtils A
                workerWithDuetQueued st1 st2 st3 queuedDuet [] rateLimited)
      as [Hdead _]; try (vm_compute; reflexivity).
    destruct Hdead as (st' & Hrun & Hq & Hd & _); [reflexivity |].
    exists st'. auto.
  - pose (A := failingAdapter refused).
    pose (st1 := snd (@refreshBeforeDequeue A workerWithDuetQueued)).
    pose (st2 := snd (@callAlreadyScrobbled A duetA (set_queuedScrobbles [] st1))).
    pose (st3 := snd (@scrobble A duetA None st2)).
    destruct (@failed_scrobble_dead_letter_or_rethrow sampleUtils A
                workerWithDuetQueued st1 st2 st3 queuedDuet [] refused)
      as [_ Hthrow]; try (vm_compute; reflexivity).
    destruct Hthrow as (st' & _ & _ & _ & _ & Hdo); [reflexivity |].
    destruct (Hdo clientWithDuetQueued 0) as (Hrun & Hq & _); try reflexivity.
    exists st'. auto.
Defined.

(** ** The scrobble queue *)

Section Queue.
Context `{Utils}.

Lemma queuePlays_queued plays source st :
  queuedScrobbles (queuePlays plays source st) = queuedScrobbles st ++ queuedFor plays source st.
Proof.
  unfold queuedFor. revert st. induction plays as [| p plays IH]; intros st.
  - simpl. now rewrite app_nil_r.
  - simpl queuePlays. rewrite IH. simpl. rewrite <- app_assoc. simpl.
    rewrite Nat.add_0_r. do 2 f_equal.
    apply imap_ext. intros k x _. simpl. do 2 f_equal. lia.
Qed.

Lemma queuedFor_plays plays source st : map qs_play (queuedFor plays source st) = plays.
Proof.
  unfold queuedFor. generalize (idsDrawn st). induction plays as [| p plays IH]; intros n.
  - reflexivity.
  - simpl. f_equal. rewrite <- (IH (S n)) at 2. f_equal.
    apply imap_ext. intros k x _. simpl. do 2 f_equal. lia.
Qed.

Lemma queuedFor_source plays source st :
  Forall (fun q => qs_source q = source) (queuedFor plays source st).
Proof.
  unfold queuedFor. generalize (idsDrawn st). induction plays as [| p plays IH]; intros n.
  - constructor.
  - simpl. constructor; [reflexivity |].
    specialize (IH (S n)). erewrite imap_ext; [exact IH |].
    intros k x _. simpl. do 2 f_equal. lia.
Qed.

Lemma oldestFirst_total : Total (fun a b : QueuedScrobble => queuedByOldestPlayDate a b <> Gt).
Proof. intros a b. unfold queuedByOldestPlayDate, sortByOldestPlayDate. apply Z.le_ge_cases. Qed.

Lemma oldestFirst_trans :
  Transitive (fun a b : QueuedScrobble => queuedByOldestPlayDate a b <> Gt).
Proof.
  intros a b c. unfold queuedByOldestPlayDate, sortByOldestPlayDate. apply Z.le_trans.
Qed.

End Queue.

(** C4. After [queueScrobble] the queue holds the old entries and one new
    entry for each play handed in, and it is sorted by play date, oldest
    first: every entry is no newer than every entry behind it. This holds
    for every queue the client starts from, a sorted one in particular. *)
Theorem queueScrobble_sorted `{Utils}
    (data : PlayObject + list PlayObject) (source : string) (st : ClientState) :
  let st' := queueScrobble data source st in
  let new := queuedFor (playsOf data) source st in
  map qs_play new = playsOf data
  /\ Forall (fun q => qs_source q = source) new
  /\ queuedScrobbles st' ≡ₚ queuedScrobbles st ++ new
  /\ Sorted (fun a b => oldestFirst (qs_play a) (qs_play b)) (queuedScrobbles st')
  /\ StronglySorted (fun a b => oldestFirst (qs_play a) (qs_play b)) (queuedScrobbles st').
Proof.
  intros st' new. subst st' new. unfold queueScrobble. fold (playsOf data).
  split; [apply queuedFor_plays |]. split; [apply queuedFor_source |].
  simpl queuedScrobbles. rewrite queuePlays_queued.
  split; [apply merge_sort_Permutation |].
  split.
  - apply (@Sorted_merge_sort _ _ _ oldestFirst_total).
  - apply (@StronglySorted_merge_sort _ _ _ oldestFirst_trans oldestFirst_total).
Qed.

(** ** The existing-scrobble check *)

(** C5. In the scoring of a recent scrobble against a play, the time
    subscore is 1 when the temporal comparison of the two plays is EXACT or
    CLOSE, 0.6 when it is FUZZY and 0 in every other case. *)
Theorem time_subscore_by_accuracy `{Utils} (x playObj : PlayObject) :
  let m := comparePlayTemporally x playObj in
  ((m = TA_EXACT \/ m = TA_CLOSE) -> timeMatchOf m = 1%Q)
  /\ (m = TA_FUZZY -> timeMatchOf m = 0.6%Q)
  /\ (m <> TA_EXACT -> m <> TA_CLOSE -> m <> TA_FUZZY -> timeMatchOf m = 0%Q).
Proof.
  intros m. generalize m. clear m. intros m. repeat split.
  - intros [-> | ->]; reflexivity.
  - intros ->; reflexivity.
  - intros H1 H2 H3. destruct m; try reflexivity; congruence.
Qed.

Lemma time_subscore_by_accuracy_witness :
  @timeMatchOf (@comparePlayTemporally sampleUtils duetA duetB) = 0.6%Q
  /\ @timeMatchOf (@comparePlayTemporally sampleUtils duetA duetA) = 1%Q
  /\ @timeMatchOf (@comparePlayTemporally sampleUtils oldPlay duetA) = 0%Q.
Proof.
  split; [| split].
  - apply (@time_subscore_by_accuracy sampleUtils duetA duetB). reflexivity.
  - apply (@time_subscore_by_accuracy sampleUtils duetA duetA). left. reflexivity.
  - apply (@time_subscore_by_accuracy sampleUtils oldPlay duetA); discriminate.
Defined.

(** C7. With [checkExistingScrobbles] off, [existingScrobble] finds nothing
    and its closest match stays the initial one: the answer does not depend
    on the plays the client holds nor on the comparison helpers. *)
Theorem existingScrobble_check_disabled `{Utils} (st : ClientState) (playObj : PlayObject) :
  checkExistingScrobbles st = false ->
  existingScrobble st playObj = None
  /\ existingScrobbleWithClosest st playObj = (None, {| cm_score := 0%Q; cm_scrobble := None |})
  /\ forall (U' : Utils) (st' : ClientState),
       checkExistingScrobbles st' = false ->
       @existingScrobble U' st' playObj = existingScrobble st playObj.
Proof.
  intros Hoff.
  assert (Hany : forall (U' : Utils) st', checkExistingScrobbles st' = false ->
            @existingScrobbleWithClosest U' st' playObj
            = (None, {| cm_score := 0%Q; cm_scrobble := None |})).
  { intros U' st' E. unfold existingScrobbleWithClosest. now rewrite E. }
  unfold existingScrobble. split; [| split].
  - now rewrite Hany.
  - now apply Hany.
  - intros U' st' E. now rewrite !Hany.
Qed.

Lemma existingScrobble_check_disabled_witness :
  @existingScrobble sampleUtils (withoutExistingCheck clientThatScrobbledDuet) duetA = None.
Proof.
  destruct (@existingScrobble_check_disabled sampleUtils
              (withoutExistingCheck clientThatScrobbledDuet) duetA) as [Hnone _].
  - reflexivity.
  - exact Hnone.
Defined.

Section Submitted.
Context `{Utils}.

Lemma find_filter {A : Type} (f g : A -> bool) (l : list A) :
  List.find g (List.filter f l) = List.find (fun x => f x && g x) l.
Proof.
  induction l as [| a l IH]; simpl; [reflexivity |].
  destruct (f a); simpl; [| exact IH]. now destruct (g a).
Qed.

Lemma findExistingSubmittedPlayObj_find st playObj :
  fst (findExistingSubmittedPlayObj st playObj)
  = List.find (submittedMatch playObj) (scrobbledPlayObjs st).
Proof.
  unfold findExistingSubmittedPlayObj, submittedMatch.
  rewrite <- find_filter.
  destruct (List.filter _ (scrobbledPlayObjs st)); reflexivity.
Qed.

Lemma existingScrobble_no_recent st playObj :
  checkExistingScrobbles st = true ->
  recentScrobbles st = [] ->
  existingScrobble st playObj
  = sp_scrobble <$> List.find (submittedMatch playObj) (scrobbledPlayObjs st).
Proof.
  intros Hon Hrecent. unfold existingScrobble, existingScrobbleWithClosest.
  rewrite Hon, Hrecent, <- findExistingSubmittedPlayObj_find. simpl.
  destruct (findExistingSubmittedPlayObj st playObj) as [[submitted |] others]; reflexivity.
Qed.

(** A client that holds its own scrobble of a play finds it again, with
    any helpers for which the play matches itself and is temporally at
    least CLOSE to itself. *)
Lemma existingScrobble_finds_own_scrobble st playObj response :
  checkExistingScrobbles st = true ->
  scrobbledPlayObjs st = [{| sp_play := playObj; sp_scrobble := response |}] ->
  playObjDataMatch playObj playObj = true ->
  temporalAccuracyIsAtLeast TA_CLOSE (comparePlayTemporally playObj playObj) = true ->
  existingScrobble st playObj = Some response.
Proof.
  intros Hon Hs Hm Ht. unfold existingScrobble, existingScrobbleWithClosest.
  rewrite Hon. unfold findExistingSubmittedPlayObj. rewrite Hs. simpl.
  rewrite Hm. simpl. now rewrite Ht.
Qed.

End Submitted.

(** C6, as the code has it. With [checkExistingScrobbles] on and no recent
    scrobbles, [existingScrobble] finds nothing exactly when no entry of
    [scrobbledPlayObjs] matches the play's data with a play date that is
    temporally at least CLOSE; otherwise it answers with the scrobble
    stored in the first such entry. *)
Theorem existingScrobble_without_recent `{Utils} (st : ClientState) (playObj : PlayObject) :
  checkExistingScrobbles st = true ->
  recentScrobbles st = [] ->
  existingScrobble st playObj
  = sp_scrobble <$> List.find (submittedMatch playObj) (scrobbledPlayObjs st)
  /\ (existingScrobble st playObj = None
      <-> forall submitted, submitted ∈ scrobbledPlayObjs st ->
                            submittedMatch playObj submitted = false)
  /\ (scrobbledPlayObjs st = [] -> existingScrobble st playObj = None).
Proof.
  intros Hon Hrecent. pose proof (existingScrobble_no_recent st playObj Hon Hrecent) as E.
  split; [exact E |]. split.
  - rewrite E. destruct (List.find _ _) as [found |] eqn:F; simpl.
    + split; [discriminate |]. intros Hall.
      apply find_some in F as [Hin Hm]. apply list_elem_of_In in Hin.
      rewrite (Hall found Hin) in Hm. discriminate.
    + split; [| reflexivity]. intros _ submitted Hin.
      apply (find_none _ _ F). now apply list_elem_of_In.
  - intros Hempty. rewrite E, Hempty. reflexivity.
Qed.

Lemma existingScrobble_without_recent_witness :
  @existingScrobble sampleUtils (sampleClient [] [] [] [] None) duetA = None.
Proof.
  destruct (@existingScrobble_without_recent sampleUtils (sampleClient [] [] [] [] None) duetA)
    as (_ & _ & Hnone).
  - reflexivity.
  - reflexivity.
  - apply Hnone. reflexivity.
Defined.

(** C6 as it is worded does not hold: a client without recent scrobbles
    that scrobbled a play before finds that scrobble again. *)
Lemma existingScrobble_without_recent_counterexample :
  checkExistingScrobbles clientThatScrobbledDuet = true
  /\ recentScrobbles clientThatScrobbledDuet = []
  /\ @existingScrobble sampleUtils clientThatScrobbledDuet duetA = Some duetResponse
  /\ ~ (forall (U : Utils) (st : ClientState) (playObj : PlayObject),
          checkExistingScrobbles st = true -> recentScrobbles st = [] ->
          @existingScrobble U st playObj = None).
Proof.
  split; [reflexivity |]. split; [reflexivity |].
  assert (Hfound : @existingScrobble sampleUtils clientThatScrobbledDuet duetA = Some duetResponse)
    by (vm_compute; reflexivity).
  split; [exact Hfound |].
  intros Hall.
  specialize (Hall sampleUtils clientThatScrobbledDuet duetA eq_refl eq_refl).
  rewrite Hfound in Hall. discriminate.
Qed.

(** ** The Spotify play format *)

Section SpotifyFacts.
Import Spotify.
Variable parseDate : string -> Z.
Variable toISOString : Z -> string.
Variable deviceLabel : option string -> option string -> option string.
Variable NO_DEVICE NO_USER : string.

Lemma includes_elem_of ids id : includes ids id = true <-> id ∈ ids.
Proof.
  unfold includes. rewrite existsb_exists, list_elem_of_In. split.
  - intros (x & Hin & Heq). apply String.eqb_eq in Heq. now subst.
  - intros Hin. exists id. split; [exact Hin | apply String.eqb_refl].
Qed.

Lemma filter_missing_empty (ids : list string) (l : list ArtistObjectSimplified) :
  (0 <? length (List.filter (fun x => negb (includes ids (artist_id x))) l)) = false
  <-> Forall (fun a => artist_id a ∈ ids) l.
Proof.
  induction l as [| a l IH]; simpl.
  - split; [constructor | reflexivity].
  - destruct (includes ids (artist_id a)) eqn:E; simpl.
    + rewrite IH. split.
      * intros Hl. constructor; [now apply includes_elem_of | exact Hl].
      * intros Hl. now inversion Hl.
    + split; [discriminate |].
      intros Hl. inversion Hl as [| ? ? Ha _]; subst.
      apply includes_elem_of in Ha. congruence.
Qed.

Lemma buildPlay_albumArtists artists album name dur played id url pos dev nfs :
  let albumArtists_in := default [] (album ≫= album_artists) in
  albumArtists (data (buildPlay parseDate NO_DEVICE NO_USER
                        artists album name dur played id url pos dev nfs))
  = if 0 <? length (List.filter (fun x => negb (includes (map artist_id artists) (artist_id x)))
                      albumArtists_in)
    then map artist_name albumArtists_in
    else [].
Proof. simpl. now destruct (0 <? _). Qed.

Lemma formatPlayObj_track obj nfs play :
  formatPlayObj parseDate toISOString deviceLabel NO_DEVICE NO_USER obj nfs = Ret play ->
  exists t, trackOf obj = Some t
    /\ albumArtists (data play)
       = if 0 <? length (List.filter
                           (fun x => negb (includes (map artist_id (trackArtistsOf t)) (artist_id x)))
                           (albumArtistsOf t))
         then map artist_name (albumArtistsOf t)
         else [].
Proof.
  destruct obj as [h | c |]; simpl; [| | discriminate].
  - intros [= <-]. exists (ph_track h). split; [reflexivity |].
    apply buildPlay_albumArtists.
  - destruct (item c) as [t |] eqn:Et; [| discriminate].
    destruct (track_artists t) as [art |] eqn:E; [| discriminate].
    intros [= <-]. exists t. split; [reflexivity |].
    rewrite buildPlay_albumArtists. unfold trackArtistsOf. now rewrite E.
Qed.

End SpotifyFacts.

(** C9. For every Spotify API object that [formatPlayObj] converts: when
    every album artist's id is among the ids of the track artists, the play
    has no album artists; otherwise its album artists are the names of all
    the album artists, those that are track artists as well included. *)
Theorem formatPlayObj_albumArtists
    (parseDate : string -> Z) (toISOString : Z -> string)
    (deviceLabel : option string -> option string -> option string)
    (NO_DEVICE NO_USER : string)
    (obj : Spotify.ApiObject) (newFromSource : bool) (play : PlayObject) :
  Spotify.formatPlayObj parseDate toISOString deviceLabel NO_DEVICE NO_USER obj newFromSource
  = Ret play ->
  exists t, trackOf obj = Some t
    /\ (albumArtistsAmongTrackArtists t -> albumArtists (data play) = [])
    /\ (~ albumArtistsAmongTrackArtists t ->
        albumArtists (data play) = map Spotify.artist_name (albumArtistsOf t)).
Proof.
  intros Hfmt. destruct (formatPlayObj_track _ _ _ _ _ _ _ _ Hfmt) as (t & Ht & Ealb).
  exists t. split; [exact Ht |]. unfold albumArtistsAmongTrackArtists.
  destruct (0 <? length _) eqn:E in Ealb.
  - split; [| intros _; exact Ealb].
    intros Hall. apply filter_missing_empty in Hall. congruence.
  - apply filter_missing_empty in E. split; [intros _; exact Ealb |].
    intros Hn. now destruct Hn.
Qed.

Lemma formatPlayObj_albumArtists_witness :
  (exists play, sampleFormat (spotifyHistory [bongoHop; nidia]) = Ret play
                /\ albumArtists (data play) = [])
  /\ (exists play, sampleFormat (spotifyHistory [various; bongoHop]) = Ret play
                   /\ albumArtists (data play) = ["Various Artists"; "The Bongo Hop"]).
Proof.
  split.
  - destruct (sampleFormat (spotifyHistory [bongoHop; nidia])) as [play | e] eqn:E;
      [| discriminate E].
    exists play. split; [reflexivity |].
    destruct (formatPlayObj_albumArtists _ _ _ _ _ _ _ _ E) as (t & Ht & Hsame & _).
    injection Ht as <-. apply Hsame. vm_compute.
    repeat constructor.
  - destruct (sampleFormat (spotifyHistory [various; bongoHop])) as [play | e] eqn:E;
      [| discriminate E].
    exists play. split; [reflexivity |].
    destruct (formatPlayObj_albumArtists _ _ _ _ _ _ _ _ E) as (t & Ht & _ & Hdiff).
    injection Ht as <-. apply Hdiff. vm_compute. intros Hall.
    inversion Hall as [| ? ? Hin _]; subst.
    repeat (apply elem_of_cons in Hin as [Hin | Hin]; [discriminate |]).
    now apply elem_of_nil in Hin.
Defined.

(** ** The multi-artist bonus *)

Lemma Qltb_lt (x y : Q) : Qltb x y = true <-> (x < y)%Q.
Proof.
  unfold Qltb. rewrite negb_true_iff. split.
  - intros Hf. apply Qnot_le_lt. intros Hle. apply Qle_bool_iff in Hle. congruence.
  - intros Hlt. destruct (Qle_bool y x) eqn:E; [| reflexivity].
    apply Qle_bool_iff in E. now apply Qlt_not_le in Hlt.
Qed.

Lemma Math_max3_is_max (a b c : Q) :
  (a <= Math_max3 a b c)%Q /\ (b <= Math_max3 a b c)%Q /\ (c <= Math_max3 a b c)%Q
  /\ (Math_max3 a b c = a \/ Math_max3 a b c = b \/ Math_max3 a b c = c).
Proof.
  unfold Math_max3. repeat split.
  - eapply Qle_trans; [apply (Q.le_max_l a b) | apply Q.le_max_l].
  - eapply Qle_trans; [apply (Q.le_max_r a b) | apply Q.le_max_l].
  - apply Q.le_max_r.
  - assert (Hd : forall x y : Q, Qmax x y = x \/ Qmax x y = y).
    { intros x y. unfold Qmax, GenericMinMax.gmax. destruct (x ?= y)%Q; auto. }
    destruct (Hd (Qmax a b) c) as [-> | ->]; [destruct (Hd a b) as [-> | ->] |]; auto.
Qed.

Lemma setIntersectionSize_pos (a b : list string) :
  0 < setIntersectionSize a b <-> exists n, n ∈ a /\ n ∈ b.
Proof.
  unfold setIntersectionSize. split.
  - intros Hpos.
    destruct (set_choose_L ((list_to_set a : gset string) ∩ list_to_set b)) as [n Hn].
    { intros E. rewrite E, size_empty in Hpos. lia. }
    exists n. set_solver.
  - intros (n & Ha & Hb).
    apply Nat.neq_0_lt_0. intros E. apply size_empty_inv in E.
    assert (Hin : n ∈ (list_to_set a : gset string) ∩ list_to_set b) by set_solver.
    rewrite E in Hin. now apply not_elem_of_empty in Hin.
Qed.

(** C1, as the code has it. The score of a recent scrobble [x] against a
    play: exactly when the weighted score is below 1, the time subscore is
    above 0, the title subscore above 0.98, the artist subscore above 0.1,
    some artist of the one play equals some artist of the other after
    normalization and [comparingMultipleArtists] accepts the pair, the
    score is recomputed with the artist bonus, the title and time terms
    unchanged; in every other case it is the weighted sum. The bonus is
    the largest of [artist * 0.5], [(1 - artist) * 0.75] and [0.1]. Given
    that [comparingMultipleArtists] answers as modelled, it accepts the
    pair exactly when at least one of the two plays has more than one
    artist. *)
Theorem multi_artist_bonus `{Utils} (x playObj : PlayObject) :
  let time := timeMatchOf (comparePlayTemporally x playObj) in
  let title := compareExistingScrobbleTitle x playObj in
  let artist := fst (compareExistingScrobbleArtist x playObj) in
  let plain := (ARTIST_WEIGHT * artist + TITLE_WEIGHT * title + TIME_WEIGHT * time)%Q in
  let artistBonus := Math_max3 (artist * 0.5)%Q ((1 - artist) * 0.75)%Q 0.1%Q in
  let others :=
    (plain < 1)%Q /\ (0 < time)%Q /\ (0.98 < title)%Q /\ (0.1 < artist)%Q
    /\ wholeArtistMatch x playObj in
  let bonusApplies := others /\ comparingMultipleArtists x playObj = true in
  (bonusApplies ->
     candidateScore x playObj
     = ((ARTIST_WEIGHT + 0.05) * (artist + artistBonus) + TITLE_WEIGHT * title
        + TIME_WEIGHT * time)%Q)
  /\ (~ bonusApplies -> candidateScore x playObj = plain)
  /\ ((artist * 0.5 <= artistBonus)%Q /\ ((1 - artist) * 0.75 <= artistBonus)%Q
      /\ (0.1 <= artistBonus)%Q
      /\ (artistBonus = (artist * 0.5)%Q \/ artistBonus = ((1 - artist) * 0.75)%Q
          \/ artistBonus = 0.1%Q))
  /\ (multipleArtistsAsSpecified ->
      (bonusApplies
       <-> others /\ (1 < length (artists (data x)) \/ 1 < length (artists (data playObj))))).
Proof.
  intros time title artist plain artistBonus others bonusApplies.
  assert (Hguard :
    Qltb plain 1 && Qltb 0 time && Qltb 0.98 title && Qltb 0.1 artist
    && (0 <? snd (compareExistingScrobbleArtist x playObj))
    && comparingMultipleArtists x playObj = true <-> bonusApplies).
  { unfold bonusApplies, others, wholeArtistMatch.
    rewrite !andb_true_iff, !Qltb_lt, !Nat.ltb_lt.
    change (snd (compareExistingScrobbleArtist x playObj))
      with (setIntersectionSize (map normalizeStr (artists (data x)))
              (map normalizeStr (artists (data playObj)))).
    rewrite setIntersectionSize_pos. tauto. }
  assert (Hscore :
    candidateScore x playObj
    = if Qltb plain 1 && Qltb 0 time && Qltb 0.98 title && Qltb 0.1 artist
         && (0 <? snd (compareExistingScrobbleArtist x playObj))
         && comparingMultipleArtists x playObj
      then ((ARTIST_WEIGHT + 0.05) * (artist + artistBonus) + TITLE_WEIGHT * title
            + TIME_WEIGHT * time)%Q
      else plain) by reflexivity.
  split; [| split; [| split]].
  - intros Hb. apply Hguard in Hb. now rewrite Hscore, Hb.
  - intros Hnb. rewrite Hscore.
    destruct (_ && _) eqn:G in |- *; [| reflexivity].
    apply Hguard in G. contradiction.
  - apply Math_max3_is_max.
  - intros Hmulti. unfold bonusApplies. rewrite Hmulti.
    unfold specComparingMultipleArtists.
    rewrite orb_true_iff, !Nat.ltb_lt. tauto.
Qed.

Lemma multi_artist_bonus_witness :
  @multipleArtistsAsSpecified sampleUtils
  /\ (@candidateScore sampleUtils sonoraScrobbled sonora == 0.88625)%Q.
Proof.
  assert (Hmulti : @multipleArtistsAsSpecified sampleUtils) by (intros a b; reflexivity).
  split; [exact Hmulti |].
  destruct (@multi_artist_bonus sampleUtils sonoraScrobbled sonora) as (Hbonus & _ & _ & Hiff).
  rewrite Hbonus.
  - vm_compute. reflexivity.
  - apply (Hiff Hmulti). split.
    + repeat split; try (vm_compute; reflexivity).
      exists "The Bongo Hop". split; vm_compute; repeat constructor.
    + left. simpl. lia.
Defined.

(** C1 as it is worded does not hold: it asks for more than one artist on
    both plays. In the spec's own dedup scenario the play has one artist,
    the recent scrobble two, every other condition holds, and the score is
    the recomputed one (0.88625, a duplicate at the threshold 0.8), not the
    weighted sum (0.73). *)
Lemma multi_artist_bonus_counterexample :
  artists (data sonora) = ["The Bongo Hop"]
  /\ artists (data sonoraScrobbled) = ["Nidia Gongora"; "The Bongo Hop"]
  /\ (@candidateScore sampleUtils sonoraScrobbled sonora == 0.88625)%Q
  /\ (@DUP_SCORE_THRESHOLD sampleUtils <= @candidateScore sampleUtils sonoraScrobbled sonora)%Q
  /\ ~ (forall x playObj : PlayObject,
          let time := timeMatchOf (@comparePlayTemporally sampleUtils x playObj) in
          let title := @compareExistingScrobbleTitle sampleUtils x playObj in
          let artist := fst (@compareExistingScrobbleArtist sampleUtils x playObj) in
          let plain :=
            (@ARTIST_WEIGHT sampleUtils * artist + @TITLE_WEIGHT sampleUtils * title
             + @TIME_WEIGHT sampleUtils * time)%Q in
          let artistBonus := Math_max3 (artist * 0.5)%Q ((1 - artist) * 0.75)%Q 0.1%Q in
          let bonusApplies :=
            (plain < 1)%Q /\ (0 < time)%Q /\ (0.98 < title)%Q /\ (0.1 < artist)%Q
            /\ @wholeArtistMatch sampleUtils x playObj
            /\ 1 < length (artists (data x)) /\ 1 < length (artists (data playObj)) in
          (bonusApplies ->
             @candidateScore sampleUtils x playObj
             = ((@ARTIST_WEIGHT sampleUtils + 0.05) * (artist + artistBonus)
                + @TITLE_WEIGHT sampleUtils * title + @TIME_WEIGHT sampleUtils * time)%Q)
          /\ (~ bonusApplies -> (@candidateScore sampleUtils x playObj == plain)%Q)).
Proof.
  split; [reflexivity |]. split; [reflexivity |].
  split; [vm_compute; reflexivity |]. split; [vm_compute; discriminate |].
  intros Hall. destruct (Hall sonoraScrobbled sonora) as [_ Hplain].
  assert (Hone : ~ 1 < length (artists (data sonora))) by (simpl; lia).
  assert (Hsum : (@candidateScore sampleUtils sonoraScrobbled sonora == 0.73)%Q).
  { rewrite Hplain; [vm_compute; reflexivity |].
    intros (_ & _ & _ & _ & _ & _ & Hseveral). now apply Hone. }
  vm_compute in Hsum. discriminate Hsum.
Qed.

(** ** The dead-letter queue *)

Section DeadLetterFacts.
Context `{Utils} `{Adapter}.

(** With distinct ids, the entry an id finds is the entry it came from. *)
Lemma findDeadIndex_lookup (dead : list DeadLetterScrobble) i d :
  NoDup (map dl_id dead) ->
  dead !! i = Some d ->
  findDeadIndex (dl_id d) dead = Some (i, d).
Proof.
  intros Hnd Hi. unfold findDeadIndex. apply list_find_Some.
  split; [exact Hi |]. split; [reflexivity |].
  intros j y Hj Hlt Heq.
  assert (j = i); [| lia].
  apply (NoDup_lookup (map dl_id dead) j i (dl_id d)); [exact Hnd | |].
  - now rewrite list_lookup_fmap, Hj; simpl; rewrite Heq.
  - now rewrite list_lookup_fmap, Hi.
Qed.

Lemma removeDeadLetterScrobble_found st i d :
  findDeadIndex (dl_id d) (deadLetterScrobbles st) = Some (i, d) ->
  removeDeadLetterScrobble (dl_id d) st = (Ret tt, deadRemoved i d st).
Proof. intros F. unfold removeDeadLetterScrobble. now rewrite F. Qed.



Lemma extendsTrace_only play st st' :
  extendsTrace notDoScrobble st st' -> extendsTrace (doScrobbleOnly play) st st'.
Proof. apply extendsTrace_weaken. apply notDoScrobble_only. Qed.

(** The last step of a retry that does not fail: the entry is removed. *)
Lemma removal_step st st_k i d (r : Res (bool * option DeadLetterScrobble)) st' :
  deadLetterScrobbles st_k = deadLetterScrobbles st ->
  findDeadIndex (dl_id d) (deadLetterScrobbles st) = Some (i, d) ->
  match removeDeadLetterScrobble (dl_id d) st_k with
  | (Ret _, s) => (Ret (true, None), s)
  | (Throw e, s) => (Throw e, s)
  end = (r, st') ->
  deadLetterScrobbles st' = delete i (deadLetterScrobbles st)
  /\ extendsTrace (doScrobbleOnly (dl_play d)) st_k st'.
Proof.
  intros Ek F. rewrite (removeDeadLetterScrobble_found st_k i d) by now rewrite Ek.
  intros [= <- <-]. split.
  - simpl. now rewrite Ek.
  - unfold deadRemoved. auto using extendsTrace_refl with trace.
Qed.

(** What a retry can do to the dead-letter queue, and which adapter calls
    it makes. *)
Lemma processDeadLetterScrobble_cases st i d r st' :
  NoDup (map dl_id (deadLetterScrobbles st)) ->
  deadLetterScrobbles st !! i = Some d ->
  processDeadLetterScrobble (dl_id d) st = (r, st') ->
  (deadLetterScrobbles st' = deadLetterScrobbles st
   \/ deadLetterScrobbles st' = delete i (deadLetterScrobbles st)
   \/ exists e t, deadLetterScrobbles st' = <[i := failedRetry d e t]> (deadLetterScrobbles st))
  /\ extendsTrace (doScrobbleOnly (dl_play d)) st st'.
Proof.
  intros Hnd Hi.
  pose proof (findDeadIndex_lookup _ _ _ Hnd Hi) as F.
  unfold processDeadLetterScrobble. rewrite F.
  destruct (isReady st); cbv beta iota zeta delta [negb].
  2:{ intros [= <- <-]. split; [now left |]. auto using extendsTrace_refl with trace. }
  destruct (refreshBeforeRetry st) as [r0 st1] eqn:Hr.
  destruct (refreshBeforeRetry_frame _ _ _ Hr) as [[_ Ed1 _ _ _ _] T1].
  apply (extendsTrace_only (dl_play d)) in T1.
  destruct r0 as [[] | e0].
  2:{ intros [= <- <-]. split; [now left | exact T1]. }
  destruct (timeFrameIsValid st1 (dl_play d)) as [valid log]. destruct valid.
  - destruct (callAlreadyScrobbled (dl_play d) st1) as [ra st2] eqn:Ha.
    destruct (callAlreadyScrobbled_frame _ _ _ _ Ha) as [[_ Ed2 _ _ _] T2].
    apply (extendsTrace_only (dl_play d)) in T2.
    pose proof (extendsTrace_trans _ _ _ _ T1 T2) as T12.
    destruct ra as [[|] | ea].
    + intros Hrm. apply (removal_step st _ i d) in Hrm as [Ed T3]; [| congruence | exact F].
      split; [now right; left |]. eapply extendsTrace_trans; eassumption.
    + destruct (scrobble (dl_play d) None st2) as [rs st3] eqn:Hs.
      destruct (scrobble_frame _ _ _ _ _ Hs) as [[_ Ed3 _ _ _] T3].
      pose proof (extendsTrace_trans _ _ _ _ T12 T3) as T123.
      destruct rs as [scrobbledPlay | e].
      * intros Hrm. apply (removal_step st _ i d) in Hrm as [Ed T4].
        -- split; [now right; left |]. eapply extendsTrace_trans; [| exact T4].
           auto with trace.
        -- simpl. congruence.
        -- exact F.
      * intros [= <- <-]. split.
        -- right; right. exists e, (now st3). simpl. congruence.
        -- auto with trace.
    + intros [= <- <-]. split; [left; congruence | exact T12].
  - intros Hrm. apply (removal_step st _ i d) in Hrm as [Ed T3]; [| simpl; congruence | exact F].
    split; [now right; left |]. eapply extendsTrace_trans; [| exact T3]. auto with trace.
Qed.

End DeadLetterFacts.

Section RetryInvariant.
Variable dead0 : list DeadLetterScrobble.
Variable limit : nat.

Lemma elem_of_delete_other {A : Type} (l : list A) i d x :
  l !! i = Some d -> x ∈ l -> x <> d -> x ∈ delete i l.
Proof.
  intros Hi Hx Hne. apply list_elem_of_lookup in Hx as [j Hj].
  assert (j <> i) by congruence.
  apply list_elem_of_lookup. destruct (decide (j < i)).
  - exists j. now rewrite list_lookup_delete_lt.
  - exists (j - 1). rewrite list_lookup_delete_ge by lia.
    now replace (S (j - 1)) with j by lia.
Qed.

Lemma elem_of_insert_other {A : Type} (l : list A) i d d' x :
  l !! i = Some d -> x ∈ l -> x <> d -> x ∈ <[i := d']> l.
Proof.
  intros Hi Hx Hne. apply list_elem_of_lookup in Hx as [j Hj].
  assert (i <> j) by congruence.
  apply list_elem_of_lookup. exists j. now rewrite list_lookup_insert_ne.
Qed.

Lemma elem_of_insert_inv {A : Type} (l : list A) i d' y :
  y ∈ <[i := d']> l -> y = d' \/ y ∈ l.
Proof.
  intros Hy. apply list_elem_of_lookup in Hy as [j Hj].
  destruct (decide (i = j)) as [-> | Hne].
  - destruct (decide (j < length l)).
    + rewrite list_lookup_insert_eq in Hj by assumption. left. congruence.
    + rewrite list_insert_ge in Hj by lia. right. eapply list_elem_of_lookup_2; eauto.
  - rewrite list_lookup_insert_ne in Hj by assumption.
    right. eapply list_elem_of_lookup_2; eauto.
Qed.

Lemma retryInvariant_start : NoDup (map dl_id dead0) -> retryInvariant dead0 limit dead0.
Proof.
  intros Hnd. split; [exact Hnd |]. split; [auto |].
  intros d Hd. exists d. auto.
Qed.

Lemma retryInvariant_delete dead i d :
  retryInvariant dead0 limit dead ->
  dead !! i = Some d -> retries d < limit ->
  retryInvariant dead0 limit (delete i dead).
Proof.
  intros (Hnd & Hkept & Horigin) Hi Hlt. split; [| split].
  - change (map dl_id (delete i dead)) with (dl_id <$> delete i dead).
    rewrite list_fmap_delete. eapply sublist_NoDup; [exact Hnd | apply sublist_delete].
  - intros d0 Hin Hge. apply (elem_of_delete_other dead i d); [exact Hi | auto |].
    intros ->. lia.
  - intros x Hx. apply Horigin. eapply list_elem_of_delete_inv; eauto.
Qed.

Lemma retryInvariant_failed dead i d e t :
  retryInvariant dead0 limit dead ->
  dead !! i = Some d -> retries d < limit ->
  retryInvariant dead0 limit (<[i := failedRetry d e t]> dead).
Proof.
  intros (Hnd & Hkept & Horigin) Hi Hlt. split; [| split].
  - change (map dl_id (<[i := failedRetry d e t]> dead))
      with (dl_id <$> <[i := failedRetry d e t]> dead).
    rewrite list_fmap_insert. simpl.
    rewrite list_insert_id; [exact Hnd |]. now rewrite list_lookup_fmap, Hi.
  - intros d0 Hin Hge. apply (elem_of_insert_other dead i d); [exact Hi | auto |].
    intros ->. lia.
  - intros x Hx. apply elem_of_insert_inv in Hx as [-> | Hx]; [| now apply Horigin].
    destruct (Horigin d) as (d0 & Hin & Hplay & Hor).
    { eapply list_elem_of_lookup_2; eauto. }
    exists d0. split; [exact Hin |]. split; [exact Hplay |].
    right. destruct Hor as [-> | Hlt0]; assumption.
Qed.

End RetryInvariant.

Section RetryLoop.
Context `{Utils} `{Adapter}.
Variable dead0 : list DeadLetterScrobble.
Variable limit : nat.

(** One retry of an entry with fewer than [limit] retries keeps the
    invariant, does not lengthen the queue, and calls the adapter only for
    that entry's play. *)
Lemma processDeadLetterScrobble_invariant st i d r st' :
  retryInvariant dead0 limit (deadLetterScrobbles st) ->
  deadLetterScrobbles st !! i = Some d ->
  retries d < limit ->
  processDeadLetterScrobble (dl_id d) st = (r, st') ->
  retryInvariant dead0 limit (deadLetterScrobbles st')
  /\ length (deadLetterScrobbles st') <= length (deadLetterScrobbles st)
  /\ extendsTrace (retryOfProcessable dead0 limit) st st'.
Proof.
  intros Hinv Hi Hlt Hp.
  destruct (processDeadLetterScrobble_cases st i d r st' (proj1 Hinv) Hi Hp) as [Hcases T].
  split; [| split].
  - destruct Hcases as [-> | [-> | (e & t & ->)]].
    + exact Hinv.
    + now apply (retryInvariant_delete dead0 limit _ i d).
    + now apply retryInvariant_failed.
  - destruct Hcases as [-> | [-> | (e & t & ->)]].
    + reflexivity.
    + rewrite length_delete by (now exists d). lia.
    + now rewrite length_insert.
  - revert T. apply extendsTrace_weaken. intros e Honly p ->.
    rewrite (Honly p eq_refl).
    destruct Hinv as (_ & _ & Horigin).
    destruct (Horigin d) as (d0 & Hin & Hplay & Hor).
    { eapply list_elem_of_lookup_2; eauto. }
    exists d0. split; [exact Hin |]. split; [| exact Hplay].
    destruct Hor as [-> | Hlt0]; assumption.
Qed.


(** The fuel the loop is given, the length of the queue at its start, is
    enough: more fuel changes nothing. *)
Lemma retryDeadScrobbles_enough_fuel fuel : forall extra i removedIds st,
  retryInvariant dead0 limit (deadLetterScrobbles st) ->
  length (deadLetterScrobbles st) <= fuel + i ->
  retryDeadScrobbles (fuel + extra) i limit removedIds st
  = retryDeadScrobbles fuel i limit removedIds st.
Proof.
  induction fuel as [| fuel IH]; intros extra i removedIds st Hinv Hlen.
  - simpl. destruct extra as [| extra]; [reflexivity |]. simpl.
    now rewrite lookup_ge_None_2 by lia.
  - simpl. destruct (deadLetterScrobbles st !! i) as [d |] eqn:Hi; [| reflexivity].
    destruct (retries d <? limit) eqn:Hlt; [| apply IH; [exact Hinv | lia]].
    apply Nat.ltb_lt in Hlt.
    destruct (processDeadLetterScrobble (dl_id d) st) as [rp st1] eqn:Hp.
    destruct (processDeadLetterScrobble_invariant st i d rp st1 Hinv Hi Hlt Hp)
      as (Hinv1 & Hlen1 & _).
    destruct rp as [[scrobbled dead] | e]; [| reflexivity].
    apply IH; [exact Hinv1 | lia].
Qed.

End RetryLoop.

Section RetryQueue.
Context `{Utils} `{Adapter}.


End RetryQueue.




(** * Further properties of the client *)

(** ** The worker loop *)

Section WorkerPasses.
Context `{Utils} `{Adapter}.

Lemma scrobble_tracks play delay st r st3 :
  scrobble play delay st = (r, st3) ->
  tracksScrobbled st3 = tracksScrobbled st /\ idsDrawn st3 = idsDrawn st.
Proof.
  unfold scrobble. intros [= _ <-].
  destruct (negb _); [destruct (0 <? _)%Z |]; split; reflexivity.
Qed.

Lemma processNextQueued_scrobbled st st1 st2 st3 q rest scrobbledPlay :
  queuedScrobbles st = q :: rest ->
  refreshBeforeDequeue st = (Ret tt, st1) ->
  fst (timeFrameIsValid st1 (qs_play q)) = true ->
  callAlreadyScrobbled (qs_play q) (set_queuedScrobbles rest st1) = (Ret false, st2) ->
  scrobble (qs_play q) None st2 = (Ret scrobbledPlay, st3) ->
  processNextQueued st = (Ret tt, scrobbledAndDequeued q scrobbledPlay st3).
Proof.
  intros Hq Hr Hv Ha Hs. unfold processNextQueued. rewrite Hr.
  destruct (refreshBeforeDequeue_frame _ _ _ Hr) as [[Eq _ _ _ _ _] _].
  rewrite Eq, Hq.
  rewrite (timeFrameIsValid_oldest st1 (set_queuedScrobbles rest st1)) by reflexivity.
  destruct (timeFrameIsValid st1 (qs_play q)) as [valid log]. simpl in Hv. subst valid.
  rewrite Ha, Hs. reflexivity.
Qed.

End WorkerPasses.

(** X1. A pass of the worker loop over a queued play that is in the time
    frame, is not known as scrobbled and is taken by the service: the play
    leaves the queue, the pair of the play and the service's answer becomes
    the newest entry of [scrobbledPlayObjs], which never holds more than
    [MAX_STORED_SCROBBLES] entries, [tracksScrobbled] grows by one, the
    dead-letter queue is untouched and the loop goes on. *)
Theorem scrobbled_play_recorded `{Utils} `{Adapter}
    (st st1 st2 st3 : ClientState) (q : QueuedScrobble) (rest : list QueuedScrobble)
    (scrobbledPlay : PlayObject) :
  queuedScrobbles st = q :: rest ->
  refreshBeforeDequeue st = (Ret tt, st1) ->
  fst (timeFrameIsValid st1 (qs_play q)) = true ->
  callAlreadyScrobbled (qs_play q) (set_queuedScrobbles rest st1) = (Ret false, st2) ->
  scrobble (qs_play q) None st2 = (Ret scrobbledPlay, st3) ->
  exists st',
    processNextQueued st = (Ret tt, st')
    /\ queuedScrobbles st' = rest
    /\ scrobbledPlayObjs st'
       = take MAX_STORED_SCROBBLES
           ({| sp_play := qs_play q; sp_scrobble := scrobbledPlay |} :: scrobbledPlayObjs st1)
    /\ scrobbledPlayObjs st' !! 0 = Some {| sp_play := qs_play q; sp_scrobble := scrobbledPlay |}
    /\ length (scrobbledPlayObjs st') <= MAX_STORED_SCROBBLES
    /\ tracksScrobbled st' = S (tracksScrobbled st)
    /\ deadLetterScrobbles st' = deadLetterScrobbles st
    /\ (exists before, trace st' = before ++ [EEmit "scrobble" (PPlay (qs_play q));
                                               EEmit "scrobbleDequeued" (PQueued q)])
    /\ forall fuel, processQueue (S fuel) st = processQueue fuel st'.
Proof.
  intros Hq Hr Hv Ha Hs.
  pose proof (processNextQueued_scrobbled st st1 st2 st3 q rest scrobbledPlay Hq Hr Hv Ha Hs)
    as Hrun.
  destruct (refreshBeforeDequeue_frame _ _ _ Hr) as [[Eq1 Ed1 _ _ Et1 _] _].
  destruct (callAlreadyScrobbled_frame _ _ _ _ Ha) as [[Eq2 Ed2 Es2 _ _] _].
  destruct (scrobble_frame _ _ _ _ _ Hs) as [[Eq3 Ed3 Es3 _ _] _].
  destruct (scrobble_tracks _ _ _ _ _ Hs) as [Et3 _].
  assert (Et2 : tracksScrobbled st2 = tracksScrobbled st1).
  { unfold callAlreadyScrobbled in Ha. now injection Ha as _ <-. }
  simpl in Eq2, Ed2, Es2.
  exists (scrobbledAndDequeued q scrobbledPlay st3).
  split; [exact Hrun |].
  split; [simpl; congruence |].
  assert (Es : scrobbledPlayObjs (scrobbledAndDequeued q scrobbledPlay st3)
               = take MAX_STORED_SCROBBLES
                   ({| sp_play := qs_play q; sp_scrobble := scrobbledPlay |}
                    :: scrobbledPlayObjs st1)).
  { simpl. unfold FixedSizeList_add. now rewrite Es3, Es2. }
  split; [exact Es |].
  split; [rewrite Es; reflexivity |].
  split; [rewrite Es, length_take; lia |].
  split; [simpl; congruence |].
  split; [simpl; congruence |].
  split.
  - exists (trace st3). simpl. now rewrite <- app_assoc.
  - intros fuel. simpl. now rewrite Hq, Hrun.
Qed.

Lemma scrobbled_play_recorded_witness :
  exists st',
    @processNextQueued sampleUtils acceptingAdapter workerWithDuetQueued = (Ret tt, st')
    /\ queuedScrobbles st' = []
    /\ scrobbledPlayObjs st' !! 0 = Some {| sp_play := duetA; sp_scrobble := duetA |}
    /\ tracksScrobbled st' = 1.
Proof.
  pose (A := acceptingAdapter).
  pose (st1 := snd (@refreshBeforeDequeue A workerWithDuetQueued)).
  pose (st2 := snd (@callAlreadyScrobbled A duetA (set_queuedScrobbles [] st1))).
  pose (st3 := snd (@scrobble A duetA None st2)).
  destruct (@scrobbled_play_recorded sampleUtils A workerWithDuetQueued st1 st2 st3
              queuedDuet [] duetA)
    as (st' & Hrun & Hq & _ & Hs & _ & Ht & _); try (vm_compute; reflexivity).
  exists st'. auto.
Defined.

Section KnownPlay.
Context `{Utils} `{Adapter}.

Lemma processNextQueued_known st st1 st2 q rest :
  queuedScrobbles st = q :: rest ->
  refreshBeforeDequeue st = (Ret tt, st1) ->
  fst (timeFrameIsValid st1 (qs_play q)) = true ->
  callAlreadyScrobbled (qs_play q) (set_queuedScrobbles rest st1) = (Ret true, st2) ->
  processNextQueued st = (Ret tt, emitEvent "scrobbleDequeued" (PQueued q) st2).
Proof.
  intros Hq Hr Hv Ha. unfold processNextQueued. rewrite Hr.
  destruct (refreshBeforeDequeue_frame _ _ _ Hr) as [[Eq _ _ _ _ _] _].
  rewrite Eq, Hq.
  rewrite (timeFrameIsValid_oldest st1 (set_queuedScrobbles rest st1)) by reflexivity.
  destruct (timeFrameIsValid st1 (qs_play q)) as [valid log]. simpl in Hv. subst valid.
  now rewrite Ha.
Qed.

End KnownPlay.

(** X2. A pass of the worker loop over a queued play that the client
    reports as already scrobbled: the play leaves the queue without a call
    of the adapter's [doScrobble]; [scrobbledPlayObjs], [tracksScrobbled]
    and the dead-letter queue stay as the refresh left them, and the loop
    goes on. *)
Theorem known_play_dropped `{Utils} `{Adapter}
    (st st1 st2 : ClientState) (q : QueuedScrobble) (rest : list QueuedScrobble) :
  queuedScrobbles st = q :: rest ->
  refreshBeforeDequeue st = (Ret tt, st1) ->
  fst (timeFrameIsValid st1 (qs_play q)) = true ->
  callAlreadyScrobbled (qs_play q) (set_queuedScrobbles rest st1) = (Ret true, st2) ->
  exists st',
    processNextQueued st = (Ret tt, st')
    /\ queuedScrobbles st' = rest
    /\ scrobbledPlayObjs st' = scrobbledPlayObjs st1
    /\ tracksScrobbled st' = tracksScrobbled st
    /\ deadLetterScrobbles st' = deadLetterScrobbles st
    /\ extendsTrace notDoScrobble st st'
    /\ forall fuel, processQueue (S fuel) st = processQueue fuel st'.
Proof.
  intros Hq Hr Hv Ha.
  pose proof (processNextQueued_known st st1 st2 q rest Hq Hr Hv Ha) as Hrun.
  destruct (refreshBeforeDequeue_frame _ _ _ Hr) as [[Eq1 Ed1 _ _ Et1 _] T1].
  destruct (callAlreadyScrobbled_frame _ _ _ _ Ha) as [[Eq2 Ed2 Es2 _ _] T2].
  assert (Et2 : tracksScrobbled st2 = tracksScrobbled st1).
  { unfold callAlreadyScrobbled in Ha. now injection Ha as _ <-. }
  simpl in Eq2, Ed2, Es2.
  exists (emitEvent "scrobbleDequeued" (PQueued q) st2).
  split; [exact Hrun |].
  split; [exact Eq2 |]. split; [exact Es2 |]. split; [simpl; congruence |].
  split; [simpl; congruence |].
  split.
  - apply extendsTrace_emit; [| auto with trace].
    eapply extendsTrace_trans; [exact T1 |].
    eapply extendsTrace_trans; [| exact T2]. now apply extendsTrace_refl.
  - intros fuel. simpl. now rewrite Hq, Hrun.
Qed.

Lemma known_play_dropped_witness :
  exists st',
    @processNextQueued sampleUtils knowingAdapter workerWithDuetQueued = (Ret tt, st')
    /\ queuedScrobbles st' = []
    /\ scrobbledPlayObjs st' = []
    /\ extendsTrace notDoScrobble workerWithDuetQueued st'.
Proof.
  pose (A := knowingAdapter).
  pose (st1 := snd (@refreshBeforeDequeue A workerWithDuetQueued)).
  pose (st2 := snd (@callAlreadyScrobbled A duetA (set_queuedScrobbles [] st1))).
  destruct (@known_play_dropped sampleUtils A workerWithDuetQueued st1 st2 queuedDuet [])
    as (st' & Hrun & Hq & Hs & _ & _ & Ht & _); try (vm_compute; reflexivity).
  exists st'. auto.
Defined.

(** ** Scrobble pacing *)

(** X3. [scrobble] on a client whose last attempt is not in the future:
    when the adapter's [doScrobble] is called, at least the delay in force
    has passed since the last attempt; to get there [scrobble] sleeps at
    most once, and then for the whole delay; afterwards
    [lastScrobbleAttempt] is the time of the call, whether the call
    answered or threw. *)
Theorem scrobble_keeps_delay `{Adapter}
    (playObj : PlayObject) (delay : option (option Z)) (st : ClientState) :
  (lastScrobbleAttempt st <= now st)%Z ->
  let wait := effectiveDelay delay st in
  exists atCall,
    fst (scrobble playObj delay st) = doScrobble atCall playObj
    /\ (wait <= now atCall - lastScrobbleAttempt st)%Z
    /\ (now atCall = now st \/ now atCall = (now st + wait)%Z)
    /\ lastScrobbleAttempt (snd (scrobble playObj delay st)) = now atCall
    /\ now (snd (scrobble playObj delay st)) = now atCall
    /\ (effectsSince st (snd (scrobble playObj delay st)) = [ECallDoScrobble playObj]
        \/ exists text,
             effectsSince st (snd (scrobble playObj delay st))
             = [ELog LDebug text; ESleep wait; ECallDoScrobble playObj]).
Proof.
  intros Hpast wait. unfold scrobble. fold (effectiveDelay delay st). fold wait.
  unfold effectsSince.
  destruct (negb (wait =? 0)%Z) eqn:Hz.
  - destruct (0 <? wait - (now st - lastScrobbleAttempt st))%Z eqn:Hrem.
    + eexists. split; [reflexivity |]. simpl.
      split; [lia |]. split; [now right |]. split; [reflexivity |]. split; [reflexivity |].
      right. eexists. rewrite <- !app_assoc. rewrite drop_app_length. reflexivity.
    + apply Z.ltb_ge in Hrem. exists st. split; [reflexivity |]. simpl.
      split; [lia |]. split; [now left |]. split; [reflexivity |]. split; [reflexivity |].
      left. now rewrite drop_app_length.
  - apply negb_false_iff, Z.eqb_eq in Hz. exists st. split; [reflexivity |]. simpl.
    split; [lia |]. split; [now left |]. split; [reflexivity |]. split; [reflexivity |].
    left. now rewrite drop_app_length.
Qed.

Lemma scrobble_keeps_delay_witness :
  exists atCall,
    fst (@scrobble acceptingAdapter duetA None
           (set_lastScrobbleAttempt 1700000299600 clientWithDuetQueued))
    = @doScrobble acceptingAdapter atCall duetA
    /\ (1000 <= now atCall - 1700000299600)%Z.
Proof.
  destruct (@scrobble_keeps_delay acceptingAdapter duetA None
              (set_lastScrobbleAttempt 1700000299600 clientWithDuetQueued))
    as (atCall & Hcall & Hwait & _).
  - vm_compute. discriminate.
  - exists atCall. split; [exact Hcall | exact Hwait].
Defined.

(** ** The loops of the worker *)

Section WorkerLoops.
Context `{Utils} `{Adapter}.

Lemma callRefreshScrobbles_flags st r st1 :
  callRefreshScrobbles st = (r, st1) ->
  scrobbling st1 = scrobbling st
  /\ userScrobblingStopSignal st1 = userScrobblingStopSignal st.
Proof.
  unfold callRefreshScrobbles. destruct (refreshScrobbles st); intros [= _ <-]; now split.
Qed.

Lemma refreshBeforeDequeue_flags st r st1 :
  refreshBeforeDequeue st = (r, st1) ->
  scrobbling st1 = scrobbling st
  /\ userScrobblingStopSignal st1 = userScrobblingStopSignal st.
Proof.
  unfold refreshBeforeDequeue. destruct (getLatestQueuePlayDate st).
  - destruct (_ <? _)%Z; [apply callRefreshScrobbles_flags |]. intros [= _ <-]; now split.
  - intros [= _ <-]; now split.
Qed.

(** A pass of the worker, however it ends, does not touch the two flags
    that steer the worker. *)
Lemma processNextQueued_flags st r st' :
  processNextQueued st = (r, st') ->
  scrobbling st' = scrobbling st
  /\ userScrobblingStopSignal st' = userScrobblingStopSignal st.
Proof.
  unfold processNextQueued.
  destruct (refreshBeforeDequeue st) as [r0 st1] eqn:Hr.
  destruct (refreshBeforeDequeue_flags _ _ _ Hr) as [F1 G1].
  destruct r0 as [[] | e0]; [| intros [= _ <-]; now split].
  destruct (queuedScrobbles st1) as [| q rest]; [intros [= _ <-]; now split |].
  destruct (timeFrameIsValid _ _) as [valid log]. destruct valid.
  - destruct (callAlreadyScrobbled _ _) as [ra st2] eqn:Ha.
    destruct (callAlreadyScrobbled_frame _ _ _ _ Ha) as [[_ _ _ _ [F2 G2]] _].
    simpl in F2, G2.
    destruct ra as [[|] | ea]; try (intros [= _ <-]; simpl; split; congruence).
    destruct (scrobble _ _ _) as [rs st3] eqn:Hs.
    destruct (scrobble_frame _ _ _ _ _ Hs) as [[_ _ _ _ [F3 G3]] _].
    destruct rs as [scrobbledPlay | e]; [intros [= _ <-]; simpl; split; congruence |].
    destruct (isNonShowStoppingUpstream e); intros [= _ <-]; simpl; split; congruence.
  - intros [= _ <-]. simpl. split; congruence.
Qed.

Lemma processQueue_flags fuel : forall st r st',
  processQueue fuel st = Some (r, st') ->
  scrobbling st' = scrobbling st
  /\ userScrobblingStopSignal st' = userScrobblingStopSignal st.
Proof.
  induction fuel as [| fuel IH]; intros st r st'; simpl.
  - destruct (queuedScrobbles st); [| discriminate]. intros [= _ <-]; now split.
  - destruct (queuedScrobbles st); [intros [= _ <-]; now split |].
    destruct (processNextQueued st) as [r1 st1] eqn:Hp.
    destruct (processNextQueued_flags _ _ _ Hp) as [F1 G1].
    destruct r1 as [u | e].
    + intros Hloop. apply IH in Hloop as [F G]. split; congruence.
    + intros [= _ <-]. now split.
Qed.

(** The inner loop ends without an error only on an empty queue. *)
Lemma processQueue_empties fuel : forall st u st',
  processQueue fuel st = Some (Ret u, st') -> queuedScrobbles st' = [].
Proof.
  induction fuel as [| fuel IH]; intros st u st'; simpl.
  - destruct (queuedScrobbles st) eqn:Eq; [| discriminate]. now intros [= _ <-].
  - destruct (queuedScrobbles st) eqn:Eq; [now intros [= _ <-] |].
    destruct (processNextQueued st) as [r1 st1]. destruct r1 as [u1 | e]; [apply IH | discriminate].
Qed.

Lemma processingLoop_stops fuel : forall st b st',
  processingLoop fuel st = Some (Ret b, st') ->
  b = true /\ scrobbling st' = false /\ userScrobblingStopSignal st' = false.
Proof.
  induction fuel as [| fuel IH]; intros st b st'; simpl.
  - destruct (shouldStopScrobbleProcessing st); [| discriminate].
    intros [= <- <-]. now repeat split.
  - destruct (shouldStopScrobbleProcessing st); [intros [= <- <-]; now repeat split |].
    destruct (processQueue _ st) as [[r1 st1] |]; [| discriminate].
    destruct r1 as [u | e]; [apply IH | discriminate].
Qed.

End WorkerLoops.

(** X4. However [doProcessing] ends on a client that was not scrobbling,
    by its return or by an error, the client is not marked as scrobbling
    afterwards; what it returns is [true], and at its return the stop
    signal is cleared. On a client that is scrobbling already it returns
    [true] and leaves the client as it is. *)
Theorem doProcessing_resets_scrobbling `{Utils} `{Adapter}
    (fuel : nat) (st st' : ClientState) (r : Res bool) :
  doProcessing fuel st = Some (r, st') ->
  (scrobbling st = true -> r = Ret true /\ st' = st)
  /\ (scrobbling st = false ->
      scrobbling st' = false
      /\ forall b, r = Ret b -> b = true /\ userScrobblingStopSignal st' = false).
Proof.
  unfold doProcessing. intros Hrun. split; intros Hs; rewrite Hs in Hrun.
  - now injection Hrun as <- <-.
  - destruct (processingLoop fuel (startProcessing st)) as [[r1 st1] |] eqn:Hloop;
      [| discriminate].
    destruct r1 as [b1 | e1]; injection Hrun as <- <-.
    + destruct (processingLoop_stops _ _ _ _ Hloop) as (-> & F & G).
      split; [exact F |]. intros b [= <-]. now split.
    + split; [reflexivity | discriminate].
Qed.

Lemma doProcessing_resets_scrobbling_witness :
  exists e st',
    @doProcessing sampleUtils (failingAdapter refused) 1 clientWithDuetQueued
    = Some (Throw e, st')
    /\ scrobbling st' = false.
Proof.
  destruct (@doProcessing sampleUtils (failingAdapter refused) 1 clientWithDuetQueued)
    as [[r st'] |] eqn:E; [| vm_compute in E; discriminate E].
  destruct (@doProcessing_resets_scrobbling sampleUtils (failingAdapter refused) 1
              clientWithDuetQueued st' r E) as [_ Hreset].
  destruct (Hreset eq_refl) as [Hs _].
  destruct r as [b | e]; [vm_compute in E; discriminate E |].
  exists e, st'. split; [reflexivity | exact Hs].
Defined.

(** ** More of the dead-letter queue *)

Section DeadLetterEdges.
Context `{Utils} `{Adapter}.

(** What a retry by id returns, and what it has done to the queue then. *)
Lemma processDeadLetterScrobble_outcome st i d r st' :
  NoDup (map dl_id (deadLetterScrobbles st)) ->
  deadLetterScrobbles st !! i = Some d ->
  processDeadLetterScrobble (dl_id d) st = (r, st') ->
  match r with
  | Ret (true, back) =>
      back = None /\ deadLetterScrobbles st' = delete i (deadLetterScrobbles st)
  | Ret (false, back) =>
      (back = Some d /\ deadLetterScrobbles st' = deadLetterScrobbles st)
      \/ exists e t, back = Some (failedRetry d e t)
                     /\ deadLetterScrobbles st' = <[i := failedRetry d e t]> (deadLetterScrobbles st)
  | Throw _ => deadLetterScrobbles st' = deadLetterScrobbles st
  end.
Proof.
  intros Hnd Hi.
  pose proof (findDeadIndex_lookup _ _ _ Hnd Hi) as F.
  unfold processDeadLetterScrobble. rewrite F.
  destruct (isReady st); cbv beta iota zeta delta [negb].
  2:{ intros [= <- <-]. left. now split. }
  destruct (refreshBeforeRetry st) as [r0 st1] eqn:Hr.
  destruct (refreshBeforeRetry_frame _ _ _ Hr) as [[_ Ed1 _ _ _ _] _].
  destruct r0 as [[] | e0]; [| now intros [= <- <-]].
  assert (Hremove : forall st_k (r1 : Res (bool * option DeadLetterScrobble)) st1',
            deadLetterScrobbles st_k = deadLetterScrobbles st ->
            match removeDeadLetterScrobble (dl_id d) st_k with
            | (Ret _, s) => (Ret (true, None), s)
            | (Throw e, s) => (Throw e, s)
            end = (r1, st1') ->
            r1 = Ret (true, None)
            /\ deadLetterScrobbles st1' = delete i (deadLetterScrobbles st)).
  { intros st_k r1 st1' Ek.
    rewrite (removeDeadLetterScrobble_found st_k i d) by now rewrite Ek.
    intros [= <- <-]. split; [reflexivity | simpl; now rewrite Ek]. }
  destruct (timeFrameIsValid st1 (dl_play d)) as [valid log]. destruct valid.
  - destruct (callAlreadyScrobbled (dl_play d) st1) as [ra st2] eqn:Ha.
    destruct (callAlreadyScrobbled_frame _ _ _ _ Ha) as [[_ Ed2 _ _ _] _].
    destruct ra as [[|] | ea].
    + intros Hrm. apply Hremove in Hrm as [-> Ed]; [now split | congruence].
    + destruct (scrobble (dl_play d) None st2) as [rs st3] eqn:Hs.
      destruct (scrobble_frame _ _ _ _ _ Hs) as [[_ Ed3 _ _ _] _].
      destruct rs as [scrobbledPlay | e].
      * intros Hrm. apply Hremove in Hrm as [-> Ed]; [now split | simpl; congruence].
      * intros [= <- <-]. right. exists e, (now st3). split; [reflexivity |].
        simpl. congruence.
    + intros [= <- <-]. congruence.
  - intros Hrm. apply Hremove in Hrm as [-> Ed]; [now split | simpl; congruence].
Qed.

End DeadLetterEdges.

(** X6. A retry of a dead letter whose play is outside the time frame, or
    which the client reports as already scrobbled, removes the entry from
    the dead-letter queue and answers [true], without a call of the
    adapter's [doScrobble] and without an entry in [scrobbledPlayObjs]. *)
Theorem stale_dead_letter_removed `{Utils} `{Adapter}
    (st st1 : ClientState) (i : nat) (d : DeadLetterScrobble) :
  NoDup (map dl_id (deadLetterScrobbles st)) ->
  deadLetterScrobbles st !! i = Some d ->
  isReady st = true ->
  refreshBeforeRetry st = (Ret tt, st1) ->
  (fst (timeFrameIsValid st1 (dl_play d)) = false
   \/ fst (callAlreadyScrobbled (dl_play d) st1) = Ret true) ->
  exists st',
    processDeadLetterScrobble (dl_id d) st = (Ret (true, None), st')
    /\ deadLetterScrobbles st' = delete i (deadLetterScrobbles st)
    /\ scrobbledPlayObjs st' = scrobbledPlayObjs st1
    /\ extendsTrace notDoScrobble st st'.
Proof.
  intros Hnd Hi Hready Hr Hstale.
  pose proof (findDeadIndex_lookup _ _ _ Hnd Hi) as F.
  destruct (refreshBeforeRetry_frame _ _ _ Hr) as [[_ Ed1 _ _ _ _] T1].
  unfold processDeadLetterScrobble. rewrite F, Hready, Hr.
  cbv beta iota zeta delta [negb].
  destruct (timeFrameIsValid st1 (dl_play d)) as [valid log] eqn:Hv. destruct valid.
  - destruct Hstale as [Hinvalid | Hknown]; [discriminate |].
    destruct (callAlreadyScrobbled (dl_play d) st1) as [ra st2] eqn:Ha.
    simpl in Hknown. subst ra.
    destruct (callAlreadyScrobbled_frame _ _ _ _ Ha) as [[_ Ed2 Es2 _ _] T2].
    rewrite (removeDeadLetterScrobble_found st2 i d) by (rewrite Ed2, Ed1; exact F).
    eexists. split; [reflexivity |].
    split; [simpl; now rewrite Ed2, Ed1 |]. split; [exact Es2 |].
    unfold deadRemoved. apply extendsTrace_set_deadLetterScrobbles.
    apply extendsTrace_log; [| auto with trace].
    eapply extendsTrace_trans; eassumption.
  - rewrite (removeDeadLetterScrobble_found _ i d) by (simpl; rewrite Ed1; exact F).
    eexists. split; [reflexivity |].
    split; [simpl; now rewrite Ed1 |]. split; [reflexivity |].
    unfold deadRemoved. auto with trace.
Qed.

Lemma stale_dead_letter_removed_witness :
  exists st',
    @processDeadLetterScrobble sampleUtils acceptingAdapter "q-0" clientWithOldDeadLetter
    = (Ret (true, None), st')
    /\ deadLetterScrobbles st' = []
    /\ scrobbledPlayObjs st' = [].
Proof.
  pose (A := acceptingAdapter).
  pose (st1 := snd (@refreshBeforeRetry A clientWithOldDeadLetter)).
  destruct (@stale_dead_letter_removed sampleUtils A clientWithOldDeadLetter st1 0
              {| dl_id := "q-0"; dl_source := "Sample"; dl_play := oldPlay; retries := 0;
                 error := "Too many requests"; lastRetry := None |})
    as (st' & Hrun & Hd & Hs & _).
  - apply (bool_decide_unpack _). vm_compute. exact I.
  - reflexivity.
  - reflexivity.
  - vm_compute. reflexivity.
  - left. vm_compute. reflexivity.
  - exists st'. auto.
Defined.

(** X7. With an id that no dead letter has, [removeDeadLetterScrobble]
    and, on a ready client, [processDeadLetterScrobble] end by an error and
    leave the dead-letter queue as it was; neither calls the adapter's
    [doScrobble]. *)
Theorem unknown_dead_letter_id_throws `{Utils} `{Adapter} (id : string) (st : ClientState) :
  (forall d, d ∈ deadLetterScrobbles st -> dl_id d <> id) ->
  (exists st',
      removeDeadLetterScrobble id st = (Throw typeError, st')
      /\ deadLetterScrobbles st' = deadLetterScrobbles st
      /\ extendsTrace isLog st st')
  /\ (isReady st = true ->
      exists e st',
        processDeadLetterScrobble id st = (Throw e, st')
        /\ deadLetterScrobbles st' = deadLetterScrobbles st
        /\ extendsTrace notDoScrobble st st'
        /\ (fst (refreshBeforeRetry st) = Ret tt -> e = typeError)).
Proof.
  intros Hnone.
  assert (F : findDeadIndex id (deadLetterScrobbles st) = None).
  { unfold findDeadIndex. apply list_find_None, Forall_forall. exact Hnone. }
  split.
  - unfold removeDeadLetterScrobble. rewrite F. eexists. split; [reflexivity |].
    split; [reflexivity |]. apply extendsTrace_perform. now exists LWarn, ("No scrobble found with ID " +:+ id).
  - intros Hready. unfold processDeadLetterScrobble. rewrite F, Hready.
    cbv beta iota zeta delta [negb].
    destruct (refreshBeforeRetry st) as [r0 st1] eqn:Hr.
    destruct (refreshBeforeRetry_frame _ _ _ Hr) as [[_ Ed1 _ _ _ _] T1].
    destruct r0 as [[] | e0].
    + exists typeError, st1. auto.
    + exists e0, st1. repeat split; auto. discriminate.
Qed.

Lemma unknown_dead_letter_id_throws_witness :
  exists st',
    @processDeadLetterScrobble sampleUtils acceptingAdapter "no-such-id" clientWithDeadLetters
    = (Throw typeError, st')
    /\ deadLetterScrobbles st' = [deadDuet 0; deadSonora 1].
Proof.
  destruct (@unknown_dead_letter_id_throws sampleUtils acceptingAdapter "no-such-id"
              clientWithDeadLetters) as [_ Hrun].
  - intros d Hd. simpl in Hd.
    repeat (apply elem_of_cons in Hd as [-> | Hd]; [discriminate |]).
    now apply elem_of_nil in Hd.
  - destruct (Hrun eq_refl) as (e & st' & Hp & Hd & _ & He).
    rewrite (He eq_refl) in Hp. exists st'. split; [exact Hp | exact Hd].
Defined.

(** X8. [removeDeadLetterScrobble] with the id of some dead letter removes
    the first entry that has the id and nothing else: the entries before
    and behind it keep their order. *)
Theorem removeDeadLetterScrobble_first `{Utils} (id : string) (st : ClientState)
    (d : DeadLetterScrobble) :
  d ∈ deadLetterScrobbles st -> dl_id d = id ->
  exists before found behind st',
    deadLetterScrobbles st = before ++ found :: behind
    /\ dl_id found = id
    /\ (forall x, x ∈ before -> dl_id x <> id)
    /\ removeDeadLetterScrobble id st = (Ret tt, st')
    /\ deadLetterScrobbles st' = before ++ behind
    /\ length (deadLetterScrobbles st') = length (deadLetterScrobbles st) - 1.
Proof.
  intros Hin Hid.
  destruct (list_find (fun x => dl_id x = id) (deadLetterScrobbles st)) as [[i found] |] eqn:F.
  2:{ apply list_find_None in F. rewrite Forall_forall in F. now destruct (F d Hin). }
  pose proof F as F'. apply list_find_Some in F' as (Hi & Hfound & Hfirst).
  exists (take i (deadLetterScrobbles st)), found, (drop (S i) (deadLetterScrobbles st)).
  unfold removeDeadLetterScrobble, findDeadIndex. rewrite F. eexists.
  split; [symmetry; now apply take_drop_middle |]. split; [exact Hfound |].
  split.
  - intros x Hx. apply elem_of_take in Hx as (j & Hj & Hlt). now apply (Hfirst j x).
  - split; [reflexivity |]. simpl. split; [apply delete_take_drop |].
    apply length_delete. now exists found.
Qed.

Lemma removeDeadLetterScrobble_first_witness :
  exists st',
    @removeDeadLetterScrobble sampleUtils "q-2" clientWithDeadLetters = (Ret tt, st')
    /\ deadLetterScrobbles st' = [deadDuet 0].
Proof.
  destruct (@removeDeadLetterScrobble_first sampleUtils "q-2" clientWithDeadLetters (deadSonora 1))
    as (before & found & behind & st' & _ & _ & _ & Hrun & _).
  - apply list_elem_of_further, list_elem_of_here.
  - reflexivity.
  - exists st'. split; [exact Hrun |].
    vm_compute in Hrun. now injection Hrun as <-.
Defined.

Section NotReady.
Context `{Utils} `{Adapter}.

Lemma onlyLogged_refl st : onlyLogged st st.
Proof. exists []. split; [constructor |]. destruct st. simpl. now rewrite app_nil_r. Qed.

Lemma onlyLogged_log st st' level text :
  onlyLogged st st' -> onlyLogged st (logMsg level text st').
Proof.
  intros (logs & Hlogs & ->). exists (logs ++ [ELog level text]). split.
  - apply Forall_app. split; [exact Hlogs |]. repeat constructor. now exists level, text.
  - unfold logMsg, perform. simpl. now rewrite app_assoc.
Qed.

Lemma onlyLogged_ready st st' : onlyLogged st st' -> isReady st' = isReady st.
Proof. now intros (logs & _ & ->). Qed.

Lemma onlyLogged_dead st st' :
  onlyLogged st st' -> deadLetterScrobbles st' = deadLetterScrobbles st.
Proof. now intros (logs & _ & ->). Qed.

Lemma retryDeadScrobbles_not_ready limit fuel : forall i removedIds st0 st,
  isReady st0 = false ->
  onlyLogged st0 st ->
  exists st',
    retryDeadScrobbles fuel i limit removedIds st = (Ret removedIds, st')
    /\ onlyLogged st0 st'.
Proof.
  induction fuel as [| fuel IH]; intros i removedIds st0 st Hready Hlog; simpl.
  - eauto.
  - destruct (deadLetterScrobbles st !! i) as [d |]; [| eauto].
    destruct (retries d <? limit); [| now apply IH].
    unfold processDeadLetterScrobble.
    rewrite (onlyLogged_ready _ _ Hlog), Hready. cbv beta iota zeta delta [negb].
    apply IH; [exact Hready | now apply onlyLogged_log].
Qed.

End NotReady.

(** X9. On a client that is not ready (not initialized, or waiting for
    authentication) a run of [processDeadLetterQueue] only writes log
    lines: it ends without an error, no dead letter is attempted, removed
    or counted as retried, and nothing else of the client changes. *)
Theorem retry_run_not_ready `{Utils} `{Adapter}
    (attemptWithRetries : option nat) (st : ClientState) :
  isReady st = false ->
  exists st',
    processDeadLetterQueue attemptWithRetries st = (Ret tt, st')
    /\ onlyLogged st st'
    /\ deadLetterScrobbles st' = deadLetterScrobbles st.
Proof.
  intros Hready.
  assert (Hgoal : exists st', processDeadLetterQueue attemptWithRetries st = (Ret tt, st')
                              /\ onlyLogged st st').
  { unfold processDeadLetterQueue.
    destruct (length (deadLetterScrobbles st) =? 0); [eauto using onlyLogged_refl |].
    destruct (length (List.filter _ _) =? 0).
    { eexists. split; [reflexivity |]. apply onlyLogged_log, onlyLogged_refl. }
    match goal with
    | |- context [retryDeadScrobbles ?f ?i ?l ?r ?s] =>
        destruct (retryDeadScrobbles_not_ready l f i r st s Hready) as (st1 & -> & Hlog)
    end.
    { apply onlyLogged_log, onlyLogged_refl. }
    simpl. eexists. split; [reflexivity | exact Hlog]. }
  destruct Hgoal as (st' & Hrun & Hlog). exists st'.
  split; [exact Hrun |]. split; [exact Hlog | now apply onlyLogged_dead].
Qed.

Lemma retry_run_not_ready_witness :
  exists st',
    @processDeadLetterQueue sampleUtils acceptingAdapter None (notInitialized clientWithDeadLetters)
    = (Ret tt, st')
    /\ deadLetterScrobbles st' = [deadDuet 0; deadSonora 1].
Proof.
  destruct (@retry_run_not_ready sampleUtils acceptingAdapter None
              (notInitialized clientWithDeadLetters)) as (st' & Hrun & _ & Hd).
  - reflexivity.
  - exists st'. split; [exact Hrun | exact Hd].
Defined.

Section DeadLettersSorted.
Context `{Utils} `{Adapter}.

Lemma StronglySorted_delete {A : Type} (R : relation A) (l : list A) : forall i,
  StronglySorted R l -> StronglySorted R (delete i l).
Proof.
  induction l as [| x l IH]; intros i Hs; [destruct i; exact Hs |].
  apply StronglySorted_inv in Hs as [Hl Hx].
  destruct i as [| i]; [exact Hl |]. simpl. constructor; [now apply IH |].
  rewrite Forall_forall in *. intros y Hy. apply Hx.
  eapply list_elem_of_delete_inv; eauto.
Qed.

Lemma deadDates_delete dead i : deadDates (delete i dead) = delete i (deadDates dead).
Proof. apply list_fmap_delete. Qed.

Lemma deadDates_failed dead i d e t :
  dead !! i = Some d ->
  deadDates (<[i := failedRetry d e t]> dead) = deadDates dead.
Proof.
  intros Hi. unfold deadDates.
  change (map ?f ?l) with (f <$> l). rewrite list_fmap_insert. simpl.
  apply list_insert_id. now rewrite list_lookup_fmap, Hi.
Qed.

Lemma deadDates_sorted_after_sort dead :
  StronglySorted Z.le (deadDates (Array_sort deadByOldestPlayDate dead)).
Proof.
  unfold deadDates, Array_sort.
  apply (StronglySorted_fmap _ (fun a b => deadByOldestPlayDate a b <> Gt)).
  - intros x y Hxy. exact Hxy.
  - apply StronglySorted_merge_sort.
    + intros a b c. unfold deadByOldestPlayDate, sortByOldestPlayDate. apply Z.le_trans.
    + intros a b. unfold deadByOldestPlayDate, sortByOldestPlayDate. apply Z.le_ge_cases.
Qed.

Lemma processNextQueued_dead_sorted st r st' :
  StronglySorted Z.le (deadDates (deadLetterScrobbles st)) ->
  processNextQueued st = (r, st') ->
  StronglySorted Z.le (deadDates (deadLetterScrobbles st')).
Proof.
  intros Hsorted. unfold processNextQueued.
  destruct (refreshBeforeDequeue st) as [r0 st1] eqn:Hr.
  destruct (refreshBeforeDequeue_frame _ _ _ Hr) as [[_ Ed1 _ _ _ _] _].
  rewrite <- Ed1 in Hsorted.
  destruct r0 as [[] | e0]; [| now intros [= _ <-]].
  destruct (queuedScrobbles st1) as [| q rest]; [now intros [= _ <-] |].
  destruct (timeFrameIsValid _ _) as [valid log]. destruct valid; [| now intros [= _ <-]].
  destruct (callAlreadyScrobbled _ _) as [ra st2] eqn:Ha.
  destruct (callAlreadyScrobbled_frame _ _ _ _ Ha) as [[_ Ed2 _ _ _] _]. simpl in Ed2.
  rewrite <- Ed2 in Hsorted.
  destruct ra as [[|] | ea]; try now intros [= _ <-].
  destruct (scrobble _ _ _) as [rs st3] eqn:Hs.
  destruct (scrobble_frame _ _ _ _ _ Hs) as [[_ Ed3 _ _ _] _].
  rewrite <- Ed3 in Hsorted.
  destruct rs as [scrobbledPlay | e]; [now intros [= _ <-] |].
  destruct (isNonShowStoppingUpstream e); intros [= _ <-]; [| exact Hsorted].
  apply deadDates_sorted_after_sort.
Qed.

Lemma retryDeadScrobbles_sorted dead0 limit fuel : forall i removedIds st r st',
  retryInvariant dead0 limit (deadLetterScrobbles st) ->
  StronglySorted Z.le (deadDates (deadLetterScrobbles st)) ->
  retryDeadScrobbles fuel i limit removedIds st = (r, st') ->
  StronglySorted Z.le (deadDates (deadLetterScrobbles st')).
Proof.
  induction fuel as [| fuel IH]; intros i removedIds st r st' Hinv Hsorted; simpl.
  - now intros [= _ <-].
  - destruct (deadLetterScrobbles st !! i) as [d |] eqn:Hi; [| now intros [= _ <-]].
    destruct (retries d <? limit) eqn:Hlt; [| now apply IH].
    apply Nat.ltb_lt in Hlt.
    destruct (processDeadLetterScrobble (dl_id d) st) as [rp st1] eqn:Hp.
    destruct (processDeadLetterScrobble_invariant dead0 limit st i d rp st1 Hinv Hi Hlt Hp)
      as (Hinv1 & _ & _).
    pose proof (processDeadLetterScrobble_outcome st i d rp st1 (proj1 Hinv) Hi Hp) as Hout.
    assert (Hsorted1 : StronglySorted Z.le (deadDates (deadLetterScrobbles st1))).
    { destruct rp as [[[|] back] | e].
      - destruct Hout as [_ ->]. rewrite deadDates_delete. now apply StronglySorted_delete.
      - destruct Hout as [[_ ->] | (e & t & _ & ->)]; [exact Hsorted |].
        now rewrite deadDates_failed.
      - now rewrite Hout. }
    destruct rp as [[scrobbled back] | e]; [now apply IH | now intros [= _ <-]].
Qed.

End DeadLettersSorted.

(** X10. The dead-letter queue is kept oldest first. [addDeadLetterScrobble]
    leaves it sorted by play date whatever it was before; a pass of the
    worker loop and a run of [processDeadLetterQueue] (over entries with
    distinct ids) leave a sorted dead-letter queue sorted. *)
Theorem dead_letters_oldest_first `{Utils} `{Adapter} (st : ClientState) :
  (forall q error,
      StronglySorted Z.le (deadDates (deadLetterScrobbles (addDeadLetterScrobble q error st))))
  /\ (StronglySorted Z.le (deadDates (deadLetterScrobbles st)) ->
      (forall r st', processNextQueued st = (r, st') ->
                     StronglySorted Z.le (deadDates (deadLetterScrobbles st')))
      /\ (NoDup (map dl_id (deadLetterScrobbles st)) ->
          forall attemptWithRetries r st',
            processDeadLetterQueue attemptWithRetries st = (r, st') ->
            StronglySorted Z.le (deadDates (deadLetterScrobbles st')))).
Proof.
  split; [intros q error; apply deadDates_sorted_after_sort |].
  intros Hsorted. split; [intros r st'; now apply processNextQueued_dead_sorted |].
  intros Hnd attemptWithRetries r st'. unfold processDeadLetterQueue.
  destruct (length (deadLetterScrobbles st) =? 0); [now intros [= _ <-] |].
  destruct (length (List.filter _ _) =? 0); [now intros [= _ <-] |].
  destruct (retryDeadScrobbles _ _ _ _ _) as [rl st1] eqn:Hloop.
  apply (retryDeadScrobbles_sorted (deadLetterScrobbles st)) in Hloop;
    [| now apply retryInvariant_start | exact Hsorted].
  destruct rl as [removedIds | e]; [| now intros [= _ <-]].
  destruct (0 <? length removedIds); now intros [= _ <-].
Qed.

Lemma dead_letters_oldest_first_witness :
  StronglySorted Z.le
    (deadDates (deadLetterScrobbles
       (snd (@processDeadLetterQueue sampleUtils (failingAdapter rateLimited) None
               clientWithTwoDeadLetters)))).
Proof.
  destruct (@dead_letters_oldest_first sampleUtils (failingAdapter rateLimited)
              clientWithTwoDeadLetters) as [_ Hkeep].
  destruct Hkeep as [_ Hrun].
  - cbn. repeat first [constructor | lia].
  - apply (fun Hnd => Hrun Hnd None _ _ (surjective_pairing _)).
    apply (bool_decide_unpack _). vm_compute. exact I.
Defined.

Section SkippedEntry.
Context `{Utils} `{Adapter}.

(** The retry loop never touches the entries before its index. *)
Lemma retryDeadScrobbles_prefix dead0 limit fuel : forall i removedIds st r st',
  retryInvariant dead0 limit (deadLetterScrobbles st) ->
  retryDeadScrobbles fuel i limit removedIds st = (r, st') ->
  take i (deadLetterScrobbles st') = take i (deadLetterScrobbles st).
Proof.
  induction fuel as [| fuel IH]; intros i removedIds st r st' Hinv; simpl.
  - now intros [= _ <-].
  - destruct (deadLetterScrobbles st !! i) as [d |] eqn:Hi; [| now intros [= _ <-]].
    assert (Hstep : forall removed st1,
              retryInvariant dead0 limit (deadLetterScrobbles st1) ->
              take i (deadLetterScrobbles st1) = take i (deadLetterScrobbles st) ->
              retryDeadScrobbles fuel (S i) limit removed st1 = (r, st') ->
              take i (deadLetterScrobbles st') = take i (deadLetterScrobbles st)).
    { intros removed st1 Hinv1 Htake Hloop. apply IH in Hloop; [| exact Hinv1].
      rewrite <- Htake.
      replace i with (i `min` S i) by lia. rewrite <- !take_take. now rewrite Hloop. }
    destruct (retries d <? limit) eqn:Hlt; [| now apply Hstep].
    apply Nat.ltb_lt in Hlt.
    destruct (processDeadLetterScrobble (dl_id d) st) as [rp st1] eqn:Hp.
    destruct (processDeadLetterScrobble_invariant dead0 limit st i d rp st1 Hinv Hi Hlt Hp)
      as (Hinv1 & _ & _).
    pose proof (processDeadLetterScrobble_outcome st i d rp st1 (proj1 Hinv) Hi Hp) as Hout.
    assert (Htake : take i (deadLetterScrobbles st1) = take i (deadLetterScrobbles st)).
    { destruct rp as [[[|] back] | e].
      - destruct Hout as [_ ->]. rewrite delete_take_drop.
        rewrite take_app_le by (rewrite length_take; apply lookup_lt_Some in Hi; lia).
        apply take_idemp.
      - destruct Hout as [[_ ->] | (e & t & _ & ->)]; [reflexivity |].
        now apply take_insert_ge.
      - now rewrite Hout. }
    destruct rp as [[scrobbled back] | e]; [now apply Hstep | now intros [= _ <-]].
Qed.

End SkippedEntry.

(** X11. The retry loop skips the entry behind a removed one. When the loop
    of [processDeadLetterQueue] retries the dead letter at its index and
    that retry removes it, the entry behind moves to that index, which the
    loop has passed: at the end of the run that entry is still in the
    queue, unchanged, whatever retries it had left. *)
Theorem retry_loop_skips_next `{Utils} `{Adapter}
    (limit fuel i : nat) (removedIds : list string) (st st1 st' : ClientState)
    (d next : DeadLetterScrobble) (back : option DeadLetterScrobble) (r : Res (list string)) :
  NoDup (map dl_id (deadLetterScrobbles st)) ->
  deadLetterScrobbles st !! i = Some d ->
  deadLetterScrobbles st !! S i = Some next ->
  retries d < limit ->
  processDeadLetterScrobble (dl_id d) st = (Ret (true, back), st1) ->
  retryDeadScrobbles (S fuel) i limit removedIds st = (r, st') ->
  deadLetterScrobbles st1 !! i = Some next
  /\ deadLetterScrobbles st' !! i = Some next.
Proof.
  intros Hnd Hi Hnext Hlt Hp. simpl. rewrite Hi.
  apply Nat.ltb_lt in Hlt as Hltb. rewrite Hltb, Hp. intros Hloop.
  pose proof (retryInvariant_start (deadLetterScrobbles st) limit Hnd) as Hinv.
  destruct (processDeadLetterScrobble_invariant _ limit st i d _ st1 Hinv Hi Hlt Hp)
    as (Hinv1 & _ & _).
  destruct (processDeadLetterScrobble_outcome st i d _ st1 Hnd Hi Hp) as [_ Ed1].
  assert (H1 : deadLetterScrobbles st1 !! i = Some next).
  { rewrite Ed1, list_lookup_delete_ge by lia. exact Hnext. }
  split; [exact H1 |].
  apply (retryDeadScrobbles_prefix (deadLetterScrobbles st) limit) in Hloop; [| exact Hinv1].
  rewrite <- (lookup_take_lt (deadLetterScrobbles st') (S i) i) by lia.
  rewrite Hloop. rewrite lookup_take_lt by lia. exact H1.
Qed.

Lemma retry_loop_skips_next_witness :
  deadLetterScrobbles
    (snd (@retryDeadScrobbles sampleUtils acceptingAdapter 2 0 1 [] clientWithTwoDeadLetters))
  !! 0 = Some (deadDuet 0).
Proof.
  pose (A := acceptingAdapter).
  assert (Hnd : NoDup (map dl_id (deadLetterScrobbles clientWithTwoDeadLetters))).
  { apply (bool_decide_unpack _). vm_compute. exact I. }
  assert (Hlt : retries (deadSonora 0) < 1) by (simpl; lia).
  assert (Hp : @processDeadLetterScrobble sampleUtils A (dl_id (deadSonora 0))
                 clientWithTwoDeadLetters
               = (Ret (true, None),
                  snd (@processDeadLetterScrobble sampleUtils A "q-2" clientWithTwoDeadLetters))).
  { vm_compute. reflexivity. }
  exact (proj2 (@retry_loop_skips_next sampleUtils A 1 1 0 [] clientWithTwoDeadLetters _ _
                  (deadSonora 0) (deadDuet 0) None _ Hnd eq_refl eq_refl Hlt Hp
                  (surjective_pairing _))).
Defined.

(** The same on the whole run: of two dead letters that could both be
    retried, a run against a service that takes every scrobble removes
    the first and leaves the second. *)
Example retry_run_skips_sample :
  deadLetterScrobbles
    (snd (@processDeadLetterQueue sampleUtils acceptingAdapter None clientWithTwoDeadLetters))
  = [deadDuet 0].
Proof. vm_compute. reflexivity. Qed.

(** ** More of the scrobble queue *)

Section LatestQueued.
Context `{Utils}.

Lemma StronglySorted_last_max {A : Type} (R : relation A) (l : list A) (x : A) :
  (forall a, R a a) ->
  StronglySorted R l -> last l = Some x -> forall y, y ∈ l -> R y x.
Proof.
  intros Hrefl Hs. induction Hs as [| a l Hs IH Ha]; intros Hlast y Hy.
  - now apply elem_of_nil in Hy.
  - destruct l as [| b l].
    + injection Hlast as <-. apply list_elem_of_singleton in Hy as ->. apply Hrefl.
    + change (last (a :: b :: l)) with (last (b :: l)) in Hlast.
      apply elem_of_cons in Hy as [-> | Hy]; [| now apply IH].
      rewrite Forall_forall in Ha. apply Ha. now apply last_Some_elem_of.
Qed.

Lemma queuePlays_trace plays source : forall st,
  trace (queuePlays plays source st)
  = trace st ++ map (fun q => EEmit "scrobbleQueued" (PQueued q)) (queuedFor plays source st)
  /\ idsDrawn (queuePlays plays source st) = idsDrawn st + length plays.
Proof.
  unfold queuedFor. induction plays as [| p plays IH]; intros st.
  - simpl. now rewrite app_nil_r, Nat.add_0_r.
  - simpl queuePlays. destruct (IH (set_queuedScrobbles
        (queuedScrobbles st ++ [{| qs_id := nanoid (idsDrawn st); qs_source := source; qs_play := p |}])
        (emitEvent "scrobbleQueued"
           (PQueued {| qs_id := nanoid (idsDrawn st); qs_source := source; qs_play := p |})
           (set_idsDrawn (S (idsDrawn st)) st)))) as [Ht Hi].
    split.
    + rewrite Ht. simpl. rewrite <- app_assoc. simpl. rewrite Nat.add_0_r. do 3 f_equal.
      apply imap_ext. intros k x _. simpl. do 4 f_equal. lia.
    + rewrite Hi. simpl. lia.
Qed.

End LatestQueued.

(** X12. [queueScrobble] emits one [scrobbleQueued] event for each play, in
    the order handed in, and draws one identifier for each. Afterwards
    [getLatestQueuePlayDate] is undefined exactly when nothing is queued;
    otherwise it is the play date of a queued entry, and no queued entry,
    old or new, has a later one. *)
Theorem queueScrobble_latest_play_date `{Utils}
    (data : PlayObject + list PlayObject) (source : string) (st : ClientState) :
  let st' := queueScrobble data source st in
  let new := queuedFor (playsOf data) source st in
  idsDrawn st' = idsDrawn st + length (playsOf data)
  /\ effectsSince st st' = map (fun q => EEmit "scrobbleQueued" (PQueued q)) new
  /\ (getLatestQueuePlayDate st' = None <-> queuedScrobbles st = [] /\ playsOf data = [])
  /\ forall latest,
       getLatestQueuePlayDate st' = Some latest ->
       (exists q, q ∈ queuedScrobbles st ++ new /\ queuedDate q = latest)
       /\ forall q, q ∈ queuedScrobbles st ++ new -> (queuedDate q <= latest)%Z.
Proof.
  intros st' new. subst st' new. unfold queueScrobble. fold (playsOf data).
  destruct (queuePlays_trace (playsOf data) source st) as [Ht Hi].
  pose proof (queuePlays_queued (playsOf data) source st) as Hq.
  set (sorted := Array_sort queuedByOldestPlayDate
                   (queuedScrobbles (queuePlays (playsOf data) source st))).
  assert (Hperm : sorted ≡ₚ queuedScrobbles st ++ queuedFor (playsOf data) source st).
  { unfold sorted. rewrite Hq. apply merge_sort_Permutation. }
  assert (Hsorted : StronglySorted (fun a b => (queuedDate a <= queuedDate b)%Z) sorted).
  { apply (@StronglySorted_merge_sort _ _ _ oldestFirst_trans oldestFirst_total). }
  split; [exact Hi |]. split.
  { unfold effectsSince. simpl. rewrite Ht. apply drop_app_length. }
  unfold getLatestQueuePlayDate. simpl queuedScrobbles. fold sorted.
  split.
  - destruct (last sorted) as [q |] eqn:Hlast.
    + split; [discriminate |]. intros [Hold Hnone].
      apply last_Some_elem_of in Hlast. rewrite Hperm, Hold in Hlast.
      unfold queuedFor in Hlast. rewrite Hnone in Hlast. now apply elem_of_nil in Hlast.
    + split; [| reflexivity]. intros _. apply last_None in Hlast.
      rewrite Hlast in Hperm. apply Permutation_nil_l in Hperm.
      symmetry in Hperm. apply app_eq_nil in Hperm as [Hold Hnew]. split; [exact Hold |].
      rewrite <- (queuedFor_plays (playsOf data) source st). now rewrite Hnew.
  - intros latest. destruct (last sorted) as [q |] eqn:Hlast; [| discriminate].
    intros [= <-]. split.
    + exists q. split; [| reflexivity]. rewrite <- Hperm. now apply last_Some_elem_of.
    + intros x Hx. rewrite <- Hperm in Hx.
      apply (StronglySorted_last_max _ sorted q (fun a => Z.le_refl _) Hsorted Hlast x Hx).
Qed.

(** ** The identifiers of the two queues *)

Section QueueIds.
Context `{Utils} `{Adapter}.

Lemma NoDup_of_submseteq {A : Type} (l k : list A) : l ⊆+ k -> NoDup k -> NoDup l.
Proof.
  intros Hsub Hnd. apply submseteq_Permutation in Hsub as [k' Hp].
  rewrite Hp in Hnd. now apply NoDup_app in Hnd as [? _].
Qed.

Lemma idsFresh_fewer st st' :
  queueIds st' ⊆+ queueIds st -> idsDrawn st <= idsDrawn st' -> idsFresh st -> idsFresh st'.
Proof.
  intros Hsub Hle [Hnd Hdrawn]. split.
  - eapply NoDup_of_submseteq; eassumption.
  - intros id Hid. destruct (Hdrawn id) as (k & Hk & ->).
    + eapply elem_of_submseteq; eassumption.
    + exists k. split; [lia | reflexivity].
Qed.

Lemma callAlreadyScrobbled_ids play st r st2 :
  callAlreadyScrobbled play st = (r, st2) -> idsDrawn st2 = idsDrawn st.
Proof. now intros [= _ <-]. Qed.

Lemma scrobble_ids play delay st r st3 :
  scrobble play delay st = (r, st3) -> idsDrawn st3 = idsDrawn st.
Proof.
  unfold scrobble. intros [= _ <-].
  destruct (negb _); [destruct (0 <? _)%Z |]; reflexivity.
Qed.

(** A pass of the worker moves identifiers, it makes none: what the two
    queues hold afterwards, they held before. *)
Lemma processNextQueued_ids st r st' :
  processNextQueued st = (r, st') ->
  queueIds st' ⊆+ queueIds st /\ idsDrawn st <= idsDrawn st'.
Proof.
  unfold processNextQueued, queueIds.
  destruct (refreshBeforeDequeue st) as [r0 st1] eqn:Hr.
  destruct (refreshBeforeDequeue_frame _ _ _ Hr) as [[Eq1 Ed1 _ _ _ Ei1] _].
  rewrite <- Eq1, <- Ed1, <- Ei1.
  destruct r0 as [[] | e0]; [| intros [= _ <-]; split; [reflexivity | lia]].
  destruct (queuedScrobbles st1) as [| q rest] eqn:Eq.
  { intros [= _ <-]. rewrite Eq. split; [reflexivity | lia]. }
  destruct (timeFrameIsValid _ _) as [valid log]. destruct valid.
  - destruct (callAlreadyScrobbled _ _) as [ra st2] eqn:Ha.
    destruct (callAlreadyScrobbled_frame _ _ _ _ Ha) as [[Eq2 Ed2 _ _ _] _].
    pose proof (callAlreadyScrobbled_ids _ _ _ _ Ha) as Ei2. simpl in Eq2, Ed2, Ei2.
    destruct ra as [[|] | ea].
    + intros [= _ <-]. simpl. rewrite Eq2, Ed2, Ei2.
      split; [apply submseteq_cons; reflexivity | lia].
    + destruct (scrobble _ _ _) as [rs st3] eqn:Hs.
      destruct (scrobble_frame _ _ _ _ _ Hs) as [[Eq3 Ed3 _ _ _] _].
      pose proof (scrobble_ids _ _ _ _ _ Hs) as Ei3.
      destruct rs as [scrobbledPlay | e].
      * intros [= _ <-]. simpl. rewrite Eq3, Ed3, Ei3, Eq2, Ed2, Ei2.
        split; [apply submseteq_cons; reflexivity | lia].
      * destruct (isNonShowStoppingUpstream e).
        -- intros [= _ <-]. simpl. rewrite Eq3, Ed3, Ei3, Eq2, Ed2, Ei2.
           split; [| lia]. apply Permutation_submseteq.
           rewrite Array_sort_Permutation, map_app. simpl.
           rewrite app_assoc, <- Permutation_cons_append. reflexivity.
        -- intros [= _ <-]. simpl. rewrite Eq3, Ed3, Ei3, Eq2, Ed2, Ei2.
           split; [reflexivity | lia].
    + intros [= _ <-]. rewrite Eq2, Ed2, Ei2. simpl.
      split; [apply submseteq_cons; reflexivity | lia].
  - intros [= _ <-]. simpl. split; [apply submseteq_cons; reflexivity | lia].
Qed.

Lemma removeDeadLetterScrobble_ids id st r st' :
  removeDeadLetterScrobble id st = (r, st') ->
  queueIds st' ⊆+ queueIds st /\ idsDrawn st' = idsDrawn st.
Proof.
  unfold removeDeadLetterScrobble, queueIds.
  destruct (findDeadIndex id (deadLetterScrobbles st)) as [[index found] |].
  - intros [= _ <-]. simpl. split; [| reflexivity].
    apply submseteq_skips_l, sublist_submseteq.
    change (map dl_id) with (fmap (M := list) dl_id). rewrite list_fmap_delete.
    apply sublist_delete.
  - now intros [= _ <-].
Qed.

(** A retry by id makes no identifier either; a failed retry keeps the
    identifier of its entry. *)
Lemma processDeadLetterScrobble_ids id st r st' :
  processDeadLetterScrobble id st = (r, st') ->
  queueIds st' ⊆+ queueIds st /\ idsDrawn st' = idsDrawn st.
Proof.
  unfold processDeadLetterScrobble.
  destruct (isReady st); cbv beta iota zeta delta [negb]; [| now intros [= _ <-]].
  destruct (refreshBeforeRetry st) as [r0 st1] eqn:Hr.
  destruct (refreshBeforeRetry_frame _ _ _ Hr) as [[Eq1 Ed1 _ _ _ Ei1] _].
  assert (Hsame : forall st_k,
            queuedScrobbles st_k = queuedScrobbles st ->
            deadLetterScrobbles st_k = deadLetterScrobbles st ->
            queueIds st_k = queueIds st).
  { intros st_k Eq Ed. unfold queueIds. now rewrite Eq, Ed. }
  destruct r0 as [[] | e0].
  2:{ intros [= _ <-]. now rewrite (Hsame st1). }
  destruct (findDeadIndex id (deadLetterScrobbles st)) as [[i d] |] eqn:F.
  2:{ intros [= _ <-]. now rewrite (Hsame st1). }
  assert (Hremove : forall st_k (r1 : Res (bool * option DeadLetterScrobble)) st1',
            queueIds st_k = queueIds st -> idsDrawn st_k = idsDrawn st ->
            match removeDeadLetterScrobble (dl_id d) st_k with
            | (Ret _, s) => (Ret (true, None), s)
            | (Throw e, s) => (Throw e, s)
            end = (r1, st1') ->
            queueIds st1' ⊆+ queueIds st /\ idsDrawn st1' = idsDrawn st).
  { intros st_k r1 st1' Ek Ei.
    destruct (removeDeadLetterScrobble (dl_id d) st_k) as [rr s] eqn:Hrm.
    apply removeDeadLetterScrobble_ids in Hrm as [Hsub Hi]. rewrite Ek in Hsub.
    destruct rr; intros [= _ <-]; (split; [exact Hsub | congruence]). }
  destruct (timeFrameIsValid st1 (dl_play d)) as [valid log]. destruct valid.
  - destruct (callAlreadyScrobbled (dl_play d) st1) as [ra st2] eqn:Ha.
    destruct (callAlreadyScrobbled_frame _ _ _ _ Ha) as [[Eq2 Ed2 _ _ _] _].
    pose proof (callAlreadyScrobbled_ids _ _ _ _ Ha) as Ei2.
    destruct ra as [[|] | ea].
    + apply Hremove; [apply Hsame |]; congruence.
    + destruct (scrobble (dl_play d) None st2) as [rs st3] eqn:Hs.
      destruct (scrobble_frame _ _ _ _ _ Hs) as [[Eq3 Ed3 _ _ _] _].
      pose proof (scrobble_ids _ _ _ _ _ Hs) as Ei3.
      destruct rs as [scrobbledPlay | e].
      * apply Hremove; [apply Hsame |]; simpl; congruence.
      * intros [= _ <-]. split; [| simpl; congruence].
        unfold queueIds. simpl. rewrite Eq3, Eq2, Eq1, Ed3, Ed2, Ed1.
        apply submseteq_skips_l.
        change (map dl_id) with (fmap (M := list) dl_id). rewrite list_fmap_insert.
        simpl. rewrite list_insert_id; [reflexivity |].
        apply list_find_Some in F as [Hi _]. now rewrite list_lookup_fmap, Hi.
    + intros [= _ <-]. rewrite (Hsame st2) by congruence. split; [reflexivity | congruence].
  - apply Hremove; [apply Hsame |]; simpl; congruence.
Qed.

Lemma retryDeadScrobbles_ids limit fuel : forall i removedIds st r st',
  retryDeadScrobbles fuel i limit removedIds st = (r, st') ->
  queueIds st' ⊆+ queueIds st /\ idsDrawn st' = idsDrawn st.
Proof.
  induction fuel as [| fuel IH]; intros i removedIds st r st'; simpl.
  - now intros [= _ <-].
  - destruct (deadLetterScrobbles st !! i) as [d |]; [| now intros [= _ <-]].
    destruct (retries d <? limit); [| apply IH].
    destruct (processDeadLetterScrobble (dl_id d) st) as [rp st1] eqn:Hp.
    apply processDeadLetterScrobble_ids in Hp as [Hsub Hi].
    destruct rp as [[scrobbled back] | e].
    + intros Hloop. apply IH in Hloop as [Hsub' Hi'].
      split; [now rewrite Hsub' | congruence].
    + now intros [= _ <-].
Qed.

Lemma processDeadLetterQueue_ids attemptWithRetries st r st' :
  processDeadLetterQueue attemptWithRetries st = (r, st') ->
  queueIds st' ⊆+ queueIds st /\ idsDrawn st' = idsDrawn st.
Proof.
  unfold processDeadLetterQueue.
  destruct (length (deadLetterScrobbles st) =? 0); [now intros [= _ <-] |].
  destruct (length (List.filter _ _) =? 0); [now intros [= _ <-] |].
  destruct (retryDeadScrobbles _ _ _ _ _) as [rl st1] eqn:Hloop.
  apply retryDeadScrobbles_ids in Hloop as [Hsub Hi].
  destruct rl as [removedIds | e]; [destruct (0 <? _) |]; now intros [= _ <-].
Qed.

Lemma queuePlays_dead plays source : forall st,
  deadLetterScrobbles (queuePlays plays source st) = deadLetterScrobbles st.
Proof.
  induction plays as [| p plays IH]; intros st; [reflexivity |].
  simpl queuePlays. now rewrite IH.
Qed.

(** [queueScrobble] gives the plays the next identifiers of [nanoid()]. *)
Lemma queueScrobble_ids data source st :
  queueIds (queueScrobble data source st)
  ≡ₚ queueIds st ++ map nanoid (seq (idsDrawn st) (length (playsOf data))).
Proof.
  unfold queueScrobble, queueIds. fold (playsOf data). simpl.
  rewrite Array_sort_Permutation, queuePlays_queued, queuePlays_dead, map_app.
  unfold queuedFor.
  change (map qs_id) with (fmap (M := list) qs_id). rewrite fmap_imap.
  change (map nanoid) with (fmap (M := list) nanoid). rewrite <- imap_seq.
  rewrite <- !app_assoc. apply Permutation_app_head, Permutation_app_comm.
Qed.

End QueueIds.

(** X13. As long as [nanoid()] never hands out an identifier twice, the
    identifiers of the queued scrobbles and of the dead letters stay distinct
    from one another, whatever the client does with its queues: queueing
    plays, a pass of the worker (which moves a failed scrobble to the dead
    letters under the identifier it was queued with) and a retry run over
    the dead letters all keep them so. *)
Theorem queue_ids_stay_distinct `{Utils} `{Adapter} (st : ClientState) :
  (forall j k, nanoid j = nanoid k -> j = k) ->
  idsFresh st ->
  (forall data source, idsFresh (queueScrobble data source st))
  /\ (forall r st', processNextQueued st = (r, st') -> idsFresh st')
  /\ (forall attemptWithRetries r st',
        processDeadLetterQueue attemptWithRetries st = (r, st') -> idsFresh st').
Proof.
  intros Hinj Hfresh. split; [| split].
  - intros data source. destruct Hfresh as [Hnd Hdrawn].
    pose proof (queueScrobble_ids data source st) as Hperm.
    assert (Hi : idsDrawn (queueScrobble data source st)
                 = idsDrawn st + length (playsOf data)).
    { unfold queueScrobble. fold (playsOf data). simpl. apply queuePlays_trace. }
    split.
    + rewrite Hperm. apply NoDup_app. split; [exact Hnd |]. split.
      * intros id Hold Hnew. destruct (Hdrawn id Hold) as (k & Hk & ->).
        apply list_elem_of_In, in_map_iff in Hnew as (j & Hjk & Hj).
        apply Hinj in Hjk as ->. apply in_seq in Hj. lia.
      * change (map nanoid) with (fmap (M := list) nanoid).
        apply NoDup_fmap_2; [exact Hinj | apply NoDup_seq].
    + intros id Hid. rewrite Hperm in Hid. rewrite Hi.
      apply elem_of_app in Hid as [Hold | Hnew].
      * destruct (Hdrawn id Hold) as (k & Hk & ->). exists k. split; [lia | reflexivity].
      * apply list_elem_of_In, in_map_iff in Hnew as (j & <- & Hj).
        apply in_seq in Hj. exists j. split; [lia | reflexivity].
  - intros r st' Hp. apply processNextQueued_ids in Hp as [Hsub Hle].
    now apply (idsFresh_fewer st).
  - intros attemptWithRetries r st' Hp. apply processDeadLetterQueue_ids in Hp as [Hsub Hi].
    apply (idsFresh_fewer st); [exact Hsub | lia | exact Hfresh].
Qed.

Lemma queue_ids_stay_distinct_witness :
  @idsFresh sampleUtils clientAfterQueueing
  /\ @idsFresh sampleUtils (@queueScrobble sampleUtils (inl duetB) "Sample" clientAfterQueueing)
  /\ @idsFresh sampleUtils
       (snd (@processNextQueued sampleUtils (failingAdapter rateLimited) clientAfterQueueing)).
Proof.
  assert (Hinj : forall j k, @nanoid sampleUtils j = @nanoid sampleUtils k -> j = k).
  { simpl. intros j k [= E]. now apply pretty_nat_inj in E. }
  assert (Hfresh : @idsFresh sampleUtils clientAfterQueueing).
  { split.
    - apply (bool_decide_unpack _). vm_compute. exact I.
    - intros id Hid. change (queueIds clientAfterQueueing) with ["id-1"; "id-0"] in Hid.
      apply elem_of_cons in Hid as [-> | Hid]; [exists 1; split; [simpl; lia | reflexivity] |].
      apply list_elem_of_singleton in Hid as ->. exists 0. split; [simpl; lia | reflexivity]. }
  destruct (@queue_ids_stay_distinct sampleUtils (failingAdapter rateLimited)
              clientAfterQueueing Hinj Hfresh) as (Hqueue & Hpass & _).
  split; [exact Hfresh |]. split; [apply Hqueue |].
  apply (Hpass (fst (@processNextQueued sampleUtils (failingAdapter rateLimited)
                       clientAfterQueueing))).
  apply surjective_pairing.
Defined.

(** ** More of the existing-scrobble check *)

Section RecentScrobbles.
Context `{Utils}.

(** Keeping the closest match up to date does not change what
    [recentScrobbles.find] finds. *)
Lemma findRecentScrobble_find playObj recent : forall closestMatch,
  fst (findRecentScrobble playObj recent closestMatch)
  = List.find (scoresAsDuplicate playObj) recent.
Proof.
  induction recent as [| x rest IH]; intros closestMatch; [reflexivity |].
  simpl. unfold scoresAsDuplicate at 1.
  destruct (Qle_bool DUP_SCORE_THRESHOLD (candidateScore x playObj)); [reflexivity | apply IH].
Qed.

Lemma Qle_bool_false (x y : Q) : Qle_bool x y = false -> (y < x)%Q.
Proof.
  intros E. apply Qnot_le_lt. intros Hle. apply Qle_bool_iff in Hle. congruence.
Qed.

(** When nothing reaches the threshold, the closest match is the best of
    all recent scrobbles. *)
Lemma findRecentScrobble_none playObj recent : forall closestMatch closest,
  (0 <= cm_score closestMatch)%Q ->
  findRecentScrobble playObj recent closestMatch = (None, closest) ->
  (cm_score closestMatch <= cm_score closest)%Q
  /\ Forall (fun x => (candidateScore x playObj <= cm_score closest)%Q) recent
  /\ (closest = closestMatch
      \/ exists y, y ∈ recent /\ (0 < candidateScore y playObj)%Q
                   /\ closest = closestIs playObj y).
Proof.
  induction recent as [| x rest IH]; intros closestMatch closest Hpos; simpl.
  - intros [= <-]. split; [apply Qle_refl |]. split; [constructor | now left].
  - destruct (Qle_bool DUP_SCORE_THRESHOLD (candidateScore x playObj)); [discriminate |].
    destruct (Qle_bool (cm_score closestMatch) (candidateScore x playObj)) eqn:Hle;
      [destruct (Qltb 0 (candidateScore x playObj)) eqn:Hlt |]; simpl; intros Hrest.
    + apply Qle_bool_iff in Hle. apply Qltb_lt in Hlt.
      apply IH in Hrest as (Hge & Hall & Hwhich); [| simpl; now apply Qlt_le_weak].
      simpl in Hge. split; [now apply Qle_trans with (candidateScore x playObj) |].
      split; [now constructor |]. right.
      destruct Hwhich as [-> | (y & Hy & Hypos & ->)].
      * exists x. split; [apply list_elem_of_here | now split].
      * exists y. split; [now apply list_elem_of_further | now split].
    + apply Qle_bool_iff in Hle.
      assert (Hnonpos : (candidateScore x playObj <= 0)%Q).
      { apply Qnot_lt_le. intros Hlt'. apply Qltb_lt in Hlt'. congruence. }
      apply IH in Hrest as (Hge & Hall & Hwhich); [| exact Hpos].
      split; [exact Hge |]. split.
      * constructor; [| exact Hall].
        apply Qle_trans with 0%Q; [exact Hnonpos |]. now apply Qle_trans with (cm_score closestMatch).
      * destruct Hwhich as [-> | (y & Hy & Hypos & ->)]; [now left |].
        right. exists y. split; [now apply list_elem_of_further | now split].
    + apply Qle_bool_false in Hle.
      apply IH in Hrest as (Hge & Hall & Hwhich); [| exact Hpos].
      split; [exact Hge |]. split.
      * constructor; [| exact Hall].
        apply Qle_trans with (cm_score closestMatch); [now apply Qlt_le_weak | exact Hge].
      * destruct Hwhich as [-> | (y & Hy & Hypos & ->)]; [now left |].
        right. exists y. split; [now apply list_elem_of_further | now split].
Qed.

(** A recent scrobble that reaches the threshold is the closest match. *)
Lemma findRecentScrobble_some playObj recent : forall closestMatch x closest,
  (cm_score closestMatch < DUP_SCORE_THRESHOLD)%Q ->
  (0 < DUP_SCORE_THRESHOLD)%Q ->
  findRecentScrobble playObj recent closestMatch = (Some x, closest) ->
  closest = closestIs playObj x.
Proof.
  induction recent as [| x rest IH]; intros closestMatch found closest Hbelow Hthreshold; simpl.
  - discriminate.
  - destruct (Qle_bool DUP_SCORE_THRESHOLD (candidateScore x playObj)) eqn:Hdup.
    + apply Qle_bool_iff in Hdup.
      assert (Hle : Qle_bool (cm_score closestMatch) (candidateScore x playObj) = true).
      { apply Qle_bool_iff, Qlt_le_weak. now apply Qlt_le_trans with DUP_SCORE_THRESHOLD. }
      assert (Hlt : Qltb 0 (candidateScore x playObj) = true).
      { apply Qltb_lt. now apply Qlt_le_trans with DUP_SCORE_THRESHOLD. }
      rewrite Hle, Hlt. simpl. now intros [= <- <-].
    + apply Qle_bool_false in Hdup. apply IH; [| exact Hthreshold].
      destruct (_ && _); [exact Hdup | exact Hbelow].
Qed.

End RecentScrobbles.

(** X14. With the check on, [existingScrobble] looks in two places, in this
    order: the plays this client scrobbled itself, where the first entry
    that matches the play's data and date wins and its stored response is
    the answer; then the recent scrobbles of the service, where the first
    one whose score reaches the duplicate threshold is the answer. It
    finds nothing exactly when neither place has such an entry. *)
Theorem existingScrobble_lookup_order `{Utils} (st : ClientState) (playObj : PlayObject) :
  checkExistingScrobbles st = true ->
  existingScrobble st playObj
  = match List.find (submittedMatch playObj) (scrobbledPlayObjs st) with
    | Some submitted => Some (sp_scrobble submitted)
    | None => List.find (scoresAsDuplicate playObj) (recentScrobbles st)
    end
  /\ (existingScrobble st playObj = None
      <-> (forall submitted, submitted ∈ scrobbledPlayObjs st ->
                             submittedMatch playObj submitted = false)
          /\ forall x, x ∈ recentScrobbles st -> scoresAsDuplicate playObj x = false).
Proof.
  intros Hon.
  assert (E : existingScrobble st playObj
              = match List.find (submittedMatch playObj) (scrobbledPlayObjs st) with
                | Some submitted => Some (sp_scrobble submitted)
                | None => List.find (scoresAsDuplicate playObj) (recentScrobbles st)
                end).
  { unfold existingScrobble, existingScrobbleWithClosest.
    rewrite Hon, <- findExistingSubmittedPlayObj_find. simpl.
    destruct (findExistingSubmittedPlayObj st playObj) as [[submitted |] others]; simpl;
      [reflexivity |].
    destruct (recentScrobbles st) as [| x rest] eqn:Hrecent; [reflexivity |].
    cbv beta iota zeta delta [length Nat.eqb]. apply findRecentScrobble_find. }
  split; [exact E |]. rewrite E.
  destruct (List.find (submittedMatch playObj) (scrobbledPlayObjs st)) as [submitted |] eqn:F.
  - split; [discriminate |]. intros [Hall _].
    apply find_some in F as [Hin Hm]. apply list_elem_of_In in Hin.
    rewrite (Hall submitted Hin) in Hm. discriminate.
  - split.
    + intros Hnone. split.
      * intros submitted Hin. apply (find_none _ _ F). now apply list_elem_of_In.
      * intros x Hin. apply (find_none _ _ Hnone). now apply list_elem_of_In.
    + intros [_ Hall].
      destruct (List.find (scoresAsDuplicate playObj) (recentScrobbles st)) as [x |] eqn:R;
        [| reflexivity].
      apply find_some in R as [Hin Hm]. apply list_elem_of_In in Hin.
      rewrite (Hall x Hin) in Hm. discriminate.
Qed.

Lemma existingScrobble_lookup_order_witness :
  @existingScrobble sampleUtils (clientWithRecent [sonoraScrobbled; duetB]) duetA = Some duetB.
Proof.
  destruct (@existingScrobble_lookup_order sampleUtils
              (clientWithRecent [sonoraScrobbled; duetB]) duetA) as [E _].
  - reflexivity.
  - rewrite E. vm_compute. reflexivity.
Defined.

(** X15. The closest match that [existingScrobble] reports when this
    client did not scrobble the play itself. When a recent scrobble is
    found and the threshold is positive, the closest match is that scrobble
    with its score. When none is found, no recent scrobble scores higher
    than the closest match, which is a recent scrobble with a positive
    score, or the initial one (score 0, no scrobble) when no score is
    positive. *)
Theorem closest_match_is_best `{Utils}
    (st : ClientState) (playObj : PlayObject) (found : option PlayObject) (closest : ClosestMatch) :
  checkExistingScrobbles st = true ->
  List.find (submittedMatch playObj) (scrobbledPlayObjs st) = None ->
  existingScrobbleWithClosest st playObj = (found, closest) ->
  match found with
  | Some x => (0 < DUP_SCORE_THRESHOLD)%Q -> closest = closestIs playObj x
  | None =>
      Forall (fun x => (candidateScore x playObj <= cm_score closest)%Q) (recentScrobbles st)
      /\ (closest = noClosestMatch
          \/ exists y, y ∈ recentScrobbles st /\ (0 < candidateScore y playObj)%Q
                       /\ closest = closestIs playObj y)
  end.
Proof.
  intros Hon Hsub. unfold existingScrobbleWithClosest.
  rewrite Hon. rewrite <- findExistingSubmittedPlayObj_find in Hsub. simpl.
  destruct (findExistingSubmittedPlayObj st playObj) as [submitted others].
  simpl in Hsub. subst submitted.
  destruct (recentScrobbles st) as [| x rest] eqn:Hrecent.
  - intros [= <- <-]. split; [constructor | now left].
  - cbv beta iota zeta delta [length Nat.eqb]. intros Hfind.
    destruct found as [y |].
    + intros Hthreshold.
      apply (findRecentScrobble_some playObj (x :: rest) noClosestMatch); assumption.
    + apply findRecentScrobble_none in Hfind as (_ & Hall & Hwhich); [| apply Qle_refl].
      split; [exact Hall | exact Hwhich].
Qed.

Lemma closest_match_is_best_witness :
  (@candidateScore sampleUtils duetB oldPlay
   <= cm_score (snd (@existingScrobbleWithClosest sampleUtils
                       (clientWithRecent [sonoraScrobbled; duetB]) oldPlay)))%Q.
Proof.
  pose proof (@closest_match_is_best sampleUtils (clientWithRecent [sonoraScrobbled; duetB]) oldPlay
                None
                (snd (@existingScrobbleWithClosest sampleUtils
                        (clientWithRecent [sonoraScrobbled; duetB]) oldPlay))
                eq_refl eq_refl) as Hbest.
  destruct Hbest as [Hall _].
  - vm_compute. reflexivity.
  - apply Forall_cons in Hall as [_ Hall]. apply Forall_cons in Hall as [Hduet _]. exact Hduet.
Defined.

Section Scores.
Context `{Utils}.

Lemma timeMatchOf_bounds (m : TemporalAccuracy) : (0 <= timeMatchOf m <= 1)%Q.
Proof. destruct m; vm_compute; split; discriminate. Qed.

Lemma candidateScore_cases x playObj :
  let artist := fst (compareExistingScrobbleArtist x playObj) in
  candidateScore x playObj = weightedScore x playObj
  \/ ((0.1 < artist)%Q
      /\ candidateScore x playObj
         = ((ARTIST_WEIGHT + 0.05)
            * (artist + Math_max3 (artist * 0.5)%Q ((1 - artist) * 0.75)%Q 0.1%Q)
            + TITLE_WEIGHT * compareExistingScrobbleTitle x playObj
            + TIME_WEIGHT * timeMatchOf (comparePlayTemporally x playObj))%Q).
Proof.
  intros artist. unfold candidateScore, weightedScore.
  cbv beta iota zeta delta [compareExistingScrobbleArtist fst].
  destruct (Qltb _ 1 && _ && _ && Qltb 0.1 _ && _ && _) eqn:G; [| now left].
  right. split; [| reflexivity].
  rewrite !andb_true_iff in G. destruct G as [[[_ G] _] _]. now apply Qltb_lt in G.
Qed.

End Scores.

(** X16. The subscores are capped: the title and the artist subscore are
    at most 1 and the time subscore lies between 0 and 1, so with weights
    that are not negative the weighted sum is at most the sum of the
    weights. The artist bonus never lowers a score: with an artist weight
    that is not negative, the score of a recent scrobble is at least its
    weighted sum, so a scrobble whose weighted sum reaches the threshold
    counts as a duplicate with or without the bonus. *)
Theorem bonus_never_lowers_score `{Utils} (x playObj : PlayObject) :
  (0 <= ARTIST_WEIGHT)%Q ->
  (compareExistingScrobbleTitle x playObj <= 1)%Q
  /\ (fst (compareExistingScrobbleArtist x playObj) <= 1)%Q
  /\ (0 <= timeMatchOf (comparePlayTemporally x playObj) <= 1)%Q
  /\ ((0 <= TITLE_WEIGHT)%Q -> (0 <= TIME_WEIGHT)%Q ->
      (weightedScore x playObj <= ARTIST_WEIGHT + TITLE_WEIGHT + TIME_WEIGHT)%Q)
  /\ (weightedScore x playObj <= candidateScore x playObj)%Q
  /\ ((DUP_SCORE_THRESHOLD <= weightedScore x playObj)%Q -> scoresAsDuplicate playObj x = true).
Proof.
  intros Hweight.
  assert (Htitle : (compareExistingScrobbleTitle x playObj <= 1)%Q) by apply Q.le_min_r.
  assert (Hartist : (fst (compareExistingScrobbleArtist x playObj) <= 1)%Q) by apply Q.le_min_r.
  pose proof (timeMatchOf_bounds (comparePlayTemporally x playObj)) as Htime.
  assert (Hscore : (weightedScore x playObj <= candidateScore x playObj)%Q).
  { destruct (candidateScore_cases x playObj) as [-> | [Hgt ->]]; [apply Qle_refl |].
    unfold weightedScore.
    destruct (Math_max3_is_max (fst (compareExistingScrobbleArtist x playObj) * 0.5)%Q
                ((1 - fst (compareExistingScrobbleArtist x playObj)) * 0.75)%Q 0.1%Q)
      as (_ & _ & Hbonus & _).
    set (artist := fst (compareExistingScrobbleArtist x playObj)) in *.
    set (bonus := Math_max3 _ _ _) in *.
    generalize dependent (TITLE_WEIGHT * compareExistingScrobbleTitle x playObj)%Q.
    generalize dependent (TIME_WEIGHT * timeMatchOf (comparePlayTemporally x playObj))%Q.
    intros. nra. }
  split; [exact Htitle |]. split; [exact Hartist |]. split; [exact Htime |].
  split; [| split; [exact Hscore |]].
  - intros Ht Hi. unfold weightedScore.
    set (artist := fst (compareExistingScrobbleArtist x playObj)) in *.
    set (title := compareExistingScrobbleTitle x playObj) in *.
    set (time := timeMatchOf (comparePlayTemporally x playObj)) in *.
    destruct Htime as [_ Htime]. nra.
  - intros Hreach. unfold scoresAsDuplicate. apply Qle_bool_iff.
    now apply Qle_trans with (weightedScore x playObj).
Qed.

Lemma bonus_never_lowers_score_witness :
  (@weightedScore sampleUtils duetB duetA <= @candidateScore sampleUtils duetB duetA)%Q.
Proof.
  apply (@bonus_never_lowers_score sampleUtils duetB duetA). vm_compute. discriminate.
Defined.

Section OldestDuplicate.
Context `{Utils}.

(** In a sorted list, [find] answers with an element that is before every
    other one that would do. *)
Lemma find_StronglySorted {A : Type} (R : relation A) (f : A -> bool) (l : list A) (x : A) :
  (forall a, R a a) ->
  StronglySorted R l -> List.find f l = Some x ->
  forall y, y ∈ l -> f y = true -> R x y.
Proof.
  intros Hrefl Hs. induction Hs as [| a l Hs IH Ha]; simpl; [discriminate |].
  destruct (f a) eqn:Hfa.
  - intros [= <-] y Hy _. apply elem_of_cons in Hy as [-> | Hy]; [apply Hrefl |].
    rewrite Forall_forall in Ha. now apply Ha.
  - intros Hfind y Hy Hfy. apply elem_of_cons in Hy as [-> | Hy]; [congruence |].
    now apply IH.
Qed.

Lemma recentScrobbles_sorted scrobbles st :
  StronglySorted (fun a b => (playDate (data a) <= playDate (data b))%Z)
    (recentScrobbles (set_recentScrobbles scrobbles st))
  /\ recentScrobbles (set_recentScrobbles scrobbles st) ≡ₚ scrobbles.
Proof.
  split; [| apply merge_sort_Permutation].
  apply (@StronglySorted_merge_sort _ (fun a b => sortByOldestPlayDate a b <> Gt)).
  - intros a b c. unfold sortByOldestPlayDate. apply Z.le_trans.
  - intros a b. unfold sortByOldestPlayDate. apply Z.le_ge_cases.
Qed.

End OldestDuplicate.

(** X17. The recent scrobbles that a client stores through its setter are
    kept oldest first. So when [existingScrobble] answers with a recent
    scrobble, it is one of those stored, it reaches the duplicate threshold,
    and none of the stored scrobbles that reach the threshold was played
    before it. *)
Theorem oldest_recent_duplicate_found `{Utils}
    (st : ClientState) (scrobbles : list PlayObject) (playObj x : PlayObject) :
  checkExistingScrobbles st = true ->
  List.find (submittedMatch playObj) (scrobbledPlayObjs st) = None ->
  existingScrobble (set_recentScrobbles scrobbles st) playObj = Some x ->
  x ∈ scrobbles
  /\ scoresAsDuplicate playObj x = true
  /\ forall y, y ∈ scrobbles -> scoresAsDuplicate playObj y = true ->
               (playDate (data x) <= playDate (data y))%Z.
Proof.
  intros Hon Hsub.
  destruct (recentScrobbles_sorted scrobbles st) as [Hsorted Hperm].
  unfold existingScrobble, existingScrobbleWithClosest.
  change (checkExistingScrobbles (set_recentScrobbles scrobbles st))
    with (checkExistingScrobbles st).
  rewrite Hon. simpl negb. cbv iota.
  assert (Hsame : findExistingSubmittedPlayObj (set_recentScrobbles scrobbles st) playObj
                  = findExistingSubmittedPlayObj st playObj) by reflexivity.
  rewrite Hsame. rewrite <- findExistingSubmittedPlayObj_find in Hsub.
  destruct (findExistingSubmittedPlayObj st playObj) as [submitted others].
  simpl in Hsub. subst submitted.
  destruct (length (recentScrobbles (set_recentScrobbles scrobbles st)) =? 0);
    [discriminate |].
  rewrite findRecentScrobble_find. intros Hfind.
  pose proof (find_some _ _ Hfind) as [Hin Hdup]. apply list_elem_of_In in Hin.
  split; [now rewrite <- Hperm |]. split; [exact Hdup |].
  intros y Hy Hydup. rewrite <- Hperm in Hy.
  apply (find_StronglySorted _ _ _ x (fun a => Z.le_refl _) Hsorted Hfind y Hy Hydup).
Qed.

Lemma oldest_recent_duplicate_found_witness :
  @existingScrobble sampleUtils
    (set_recentScrobbles [duetB; duetA; sonora] (clientWithRecent [])) duetA = Some duetA
  /\ (playDate (data duetA) <= playDate (data duetB))%Z.
Proof.
  assert (Hfound : @existingScrobble sampleUtils
            (set_recentScrobbles [duetB; duetA; sonora] (clientWithRecent [])) duetA = Some duetA)
    by (vm_compute; reflexivity).
  split; [exact Hfound |].
  destruct (@oldest_recent_duplicate_found sampleUtils (clientWithRecent [])
              [duetB; duetA; sonora] duetA duetA eq_refl eq_refl Hfound) as (_ & _ & Holdest).
  apply Holdest; [repeat constructor | vm_compute; reflexivity].
Defined.

(** ** More of the Spotify play format *)


(** ** The status of the worker *)

Section StatusEvents.
Context `{Utils} `{Adapter}.

Lemma callRefreshScrobbles_quiet st r st1 :
  callRefreshScrobbles st = (r, st1) -> extendsTrace noStatus st st1.
Proof.
  unfold callRefreshScrobbles. destruct (refreshScrobbles st); intros [= <- <-];
    now apply (extendsTrace_perform _ ECallRefreshScrobbles).
Qed.

Lemma refreshBeforeDequeue_quiet st r st1 :
  refreshBeforeDequeue st = (r, st1) -> extendsTrace noStatus st st1.
Proof.
  unfold refreshBeforeDequeue. destruct (getLatestQueuePlayDate st).
  - destruct (_ <? _)%Z; [apply callRefreshScrobbles_quiet |].
    intros [= <- <-]. now apply extendsTrace_refl.
  - intros [= <- <-]. now apply extendsTrace_refl.
Qed.

Lemma scrobble_quiet play delay st r st3 :
  scrobble play delay st = (r, st3) -> extendsTrace noStatus st st3.
Proof.
  unfold scrobble. intros [= <- <-].
  destruct (negb _); [destruct (0 <? _)%Z |].
  - apply extendsTrace_set_lastScrobbleAttempt, extendsTrace_then; [| reflexivity].
    apply extendsTrace_sleep; [| reflexivity].
    apply extendsTrace_perform. reflexivity.
  - apply extendsTrace_set_lastScrobbleAttempt, extendsTrace_perform. reflexivity.
  - apply extendsTrace_set_lastScrobbleAttempt, extendsTrace_perform. reflexivity.
Qed.

Ltac quiet :=
  repeat first
    [ apply extendsTrace_emit; [| reflexivity]
    | apply extendsTrace_log; [| reflexivity]
    | apply extendsTrace_sleep; [| reflexivity]
    | apply extendsTrace_then; [| reflexivity]
    | apply extendsTrace_addScrobbledTrack
    | apply extendsTrace_set_queuedScrobbles
    | apply extendsTrace_set_deadLetterScrobbles
    | apply extendsTrace_set_idsDrawn
    | apply extendsTrace_set_scrobbling
    | assumption ].

(** A pass of the worker announces no status. *)
Lemma processNextQueued_quiet st r st' :
  processNextQueued st = (r, st') -> extendsTrace noStatus st st'.
Proof.
  unfold processNextQueued.
  destruct (refreshBeforeDequeue st) as [r0 st1] eqn:Hr.
  pose proof (refreshBeforeDequeue_quiet _ _ _ Hr) as T1.
  destruct r0 as [[] | e0]; [| now intros [= _ <-]].
  destruct (queuedScrobbles st1) as [| q rest]; [now intros [= _ <-] |].
  destruct (timeFrameIsValid _ _) as [valid log]. destruct valid.
  - destruct (callAlreadyScrobbled _ _) as [ra st2] eqn:Ha.
    assert (T2 : extendsTrace noStatus st st2).
    { injection Ha as _ <-. quiet. }
    destruct ra as [[|] | ea]; [| | now intros [= _ <-]].
    + intros [= _ <-]. quiet.
    + destruct (scrobble _ _ _) as [rs st3] eqn:Hs.
      pose proof (extendsTrace_trans _ _ _ _ T2 (scrobble_quiet _ _ _ _ _ Hs)) as T3.
      destruct rs as [scrobbledPlay | e].
      * intros [= _ <-]. quiet.
      * destruct (isNonShowStoppingUpstream e); intros [= _ <-].
        -- unfold addDeadLetterScrobble. quiet.
        -- quiet.
  - intros [= _ <-]. quiet.
Qed.

Lemma processQueue_quiet fuel : forall st r st',
  processQueue fuel st = Some (r, st') -> extendsTrace noStatus st st'.
Proof.
  induction fuel as [| fuel IH]; intros st r st'; simpl.
  - destruct (queuedScrobbles st); [| discriminate].
    intros [= _ <-]. now apply extendsTrace_refl.
  - destruct (queuedScrobbles st); [intros [= _ <-]; now apply extendsTrace_refl |].
    destruct (processNextQueued st) as [r1 st1] eqn:Hp.
    apply processNextQueued_quiet in Hp.
    destruct r1 as [u | e].
    + intros Hrest. apply IH in Hrest. eapply extendsTrace_trans; eassumption.
    + now intros [= _ <-].
Qed.

Lemma announces_quiet st st' : extendsTrace noStatus st st' -> announces st st' [].
Proof.
  intros (new & E & Hall). exists new. split; [exact E |]. clear E.
  induction Hall as [| e l He _ IH]; [reflexivity |].
  unfold statusChanges in *. simpl. unfold noStatus in He. now rewrite He.
Qed.

Lemma announces_trans st1 st2 st3 l1 l2 :
  announces st1 st2 l1 -> announces st2 st3 l2 -> announces st1 st3 (l1 ++ l2).
Proof.
  intros (n1 & E1 & <-) (n2 & E2 & <-). exists (n1 ++ n2).
  rewrite E2, E1, app_assoc. split; [reflexivity | apply omap_app].
Qed.

Lemma announces_since st st' l : announces st st' l -> statusChanges (effectsSince st st') = l.
Proof. intros (new & E & <-). unfold effectsSince. now rewrite E, drop_app_length. Qed.

Lemma doStopScrobbling_announces reason st : announces st (doStopScrobbling reason st) ["Idle"].
Proof. eexists. unfold doStopScrobbling. simpl. rewrite <- app_assoc. split; reflexivity. Qed.

(** The loops of the worker announce one status, when they end without an
    error: [Idle]. *)
Lemma processingLoop_announces fuel : forall st r st',
  processingLoop fuel st = Some (r, st') ->
  announces st st' (match r with Ret _ => ["Idle"] | Throw _ => [] end).
Proof.
  induction fuel as [| fuel IH]; intros st r st'; simpl.
  - destruct (shouldStopScrobbleProcessing st); [| discriminate].
    intros [= <- <-]. apply doStopScrobbling_announces.
  - destruct (shouldStopScrobbleProcessing st).
    { intros [= <- <-]. apply doStopScrobbling_announces. }
    destruct (processQueue _ st) as [[[u | e] st1] |] eqn:Hq; [| | discriminate].
    + apply processQueue_quiet in Hq. intros Hloop. apply IH in Hloop.
      assert (Hsleep : extendsTrace noStatus st (sleep (scrobbleSleep st1) st1)) by quiet.
      apply (announces_trans _ _ _ [] _ (announces_quiet _ _ Hsleep) Hloop).
    + apply processQueue_quiet in Hq. intros [= <- <-]. now apply announces_quiet.
Qed.

(** [doProcessing] announces [Running] when it starts and [Idle] when it
    ends, with or without an error; when the worker runs already, it
    announces nothing. *)
Lemma doProcessing_announces fuel st r st' :
  doProcessing fuel st = Some (r, st') ->
  announces st st' (if scrobbling st then [] else ["Running"; "Idle"]).
Proof.
  unfold doProcessing. destruct (scrobbling st).
  { intros [= <- <-]. exists []. now rewrite app_nil_r. }
  destruct (processingLoop fuel (startProcessing st)) as [[[b | e] st1] |] eqn:Hloop;
    [| | discriminate]; intros [= <- <-]; apply processingLoop_announces in Hloop.
  - apply (announces_trans st (startProcessing st) _ ["Running"]); [| exact Hloop].
    eexists. unfold startProcessing. simpl. rewrite <- app_assoc. split; reflexivity.
  - apply (announces_trans st (startProcessing st) _ ["Running"] ([] ++ ["Idle"])).
    + eexists. unfold startProcessing. simpl. rewrite <- app_assoc. split; reflexivity.
    + apply (announces_trans _ st1 _ [] ["Idle"] Hloop).
      eexists. unfold interruptProcessing. simpl. rewrite <- !app_assoc. split; reflexivity.
Qed.

End StatusEvents.

Section SupervisorFacts.
Context `{Utils} `{Adapter}.
Variable pollingBackoff : nat -> Z -> Z.
Variable DEFAULT_RETRY_MULTIPLIER : Z.
Variables identifier name : string.

Lemma doProcessing_idle fuel st r st' :
  scrobbling st = false -> doProcessing fuel st = Some (r, st') -> scrobbling st' = false.
Proof.
  unfold doProcessing. intros ->.
  destruct (processingLoop fuel (startProcessing st)) as [[[b | e] st1] |] eqn:Hloop;
    [| | discriminate]; intros [= <- <-]; [| reflexivity].
  now destruct (processingLoop_stops _ _ _ _ Hloop) as (_ & F & _).
Qed.

(** What the [catch] of the loop does: it leaves the worker idle, announces
    no status, notifies once, and counts the failure unless it leaves the
    loop. *)
Lemma afterFailedProcessing_facts e maxRetries retryMultiplier sv leave sv' :
  afterFailedProcessing pollingBackoff identifier name e maxRetries retryMultiplier sv
  = (leave, sv') ->
  scrobbling (client sv') = scrobbling (client sv)
  /\ announces (client sv) (client sv') []
  /\ (exists n, notified sv' = notified sv ++ [n])
  /\ maxPollRetries sv' = maxPollRetries sv
  /\ scrobbleRetries sv' = (if leave then scrobbleRetries sv else S (scrobbleRetries sv))
  /\ (leave = true <->
      initialized (client sv) = false
      \/ (requiresAuth (client sv) = true /\ authed (client sv) = false)).
Proof.
  unfold afterFailedProcessing.
  destruct (initialized (client sv)) eqn:Hinit; simpl.
  - destruct (requiresAuth (client sv) && negb (authed (client sv))) eqn:Hauth.
    + intros [= <- <-]. simpl. split; [reflexivity |].
      split; [eexists; split; reflexivity |]. split; [eauto |]. split; [reflexivity |].
      split; [reflexivity |]. split; [intros _ | reflexivity].
      right. apply andb_true_iff in Hauth as [-> Ha]. now destruct (authed (client sv)).
    + destruct (Z.of_nat (scrobbleRetries sv) <? maxRetries)%Z; intros [= <- <-]; simpl;
        (split; [reflexivity |];
         split; [apply announces_quiet;
                 repeat first [ apply extendsTrace_sleep; [| reflexivity]
                              | apply extendsTrace_log; [| reflexivity]
                              | now apply extendsTrace_refl ] |];
         split; [eauto |]; split; [reflexivity |]; split; [reflexivity |];
         split; [discriminate |]; intros [Hn | [Hr Ha]]; [discriminate |];
         rewrite Hr, Ha in Hauth; discriminate).
  - intros [= <- <-]. simpl. split; [reflexivity |].
    split; [eexists; split; reflexivity |]. split; [eauto |]. split; [reflexivity |].
    split; [reflexivity |]. split; [now left | reflexivity].
Qed.

Lemma runsAnnounced_S attempts :
  ["Running"; "Idle"] ++ [] ++ runsAnnounced attempts = runsAnnounced (S attempts).
Proof. reflexivity. Qed.

Lemma pollLoop_facts workerFuel maxRetries retryMultiplier fuel : forall sv sv',
  scrobbling (client sv) = false ->
  scrobbleRetries sv <= S (Z.to_nat maxRetries) ->
  pollLoop pollingBackoff identifier name fuel workerFuel maxRetries retryMultiplier sv
  = Returned sv' ->
  exists attempts new,
    announces (client sv) (client sv') (runsAnnounced attempts)
    /\ attempts + scrobbleRetries sv <= S (Z.to_nat maxRetries)
    /\ scrobbling (client sv') = false
    /\ scrobbleRetries sv <= scrobbleRetries sv' <= S (Z.to_nat maxRetries)
    /\ notified sv' = notified sv ++ new /\ length new <= attempts
    /\ maxPollRetries sv' = maxPollRetries sv
    /\ ((0 <= maxRetries)%Z -> scrobbleRetries sv = 0 -> 1 <= attempts).
Proof.
  induction fuel as [| fuel IH]; intros sv sv' Hidle Hk; simpl.
  - destruct (Z.of_nat (scrobbleRetries sv) <=? maxRetries)%Z eqn:Hle; [discriminate |].
    intros [= <-]. exists 0, []. rewrite app_nil_r.
    split; [exists []; now rewrite app_nil_r |]. apply Z.leb_gt in Hle.
    repeat split; try reflexivity; try assumption; try lia.
  - destruct (Z.of_nat (scrobbleRetries sv) <=? maxRetries)%Z eqn:Hle.
    2:{ intros [= <-]. exists 0, []. rewrite app_nil_r.
        split; [exists []; now rewrite app_nil_r |]. apply Z.leb_gt in Hle.
        repeat split; try reflexivity; try assumption; try lia. }
    apply Z.leb_le in Hle.
    destruct (doProcessing workerFuel (client sv)) as [[[b | e] st1] |] eqn:Hrun;
      [| | discriminate].
    + intros [= <-]. exists 1, []. rewrite app_nil_r. simpl.
      pose proof (doProcessing_announces _ _ _ _ Hrun) as Hann. rewrite Hidle in Hann.
      split; [exact Hann |]. split; [lia |].
      split; [exact (doProcessing_idle _ _ _ _ Hidle Hrun) |].
      repeat split; try reflexivity; lia.
    + destruct (afterFailedProcessing _ _ _ e maxRetries retryMultiplier _) as [leave sv1] eqn:Hcatch.
      destruct (afterFailedProcessing_facts _ _ _ _ _ _ Hcatch)
        as (Hs1 & Hann1 & (n & Hn1) & Hm1 & Hr1 & _).
      simpl in Hs1, Hann1, Hn1, Hm1, Hr1.
      pose proof (doProcessing_announces _ _ _ _ Hrun) as Hann. rewrite Hidle in Hann.
      pose proof (doProcessing_idle _ _ _ _ Hidle Hrun) as Hidle1.
      pose proof (announces_trans _ _ _ _ _ Hann Hann1) as Hann2.
      destruct leave.
      * intros [= <-]. exists 1, [n]. rewrite app_nil_r in Hann2.
        split; [exact Hann2 |]. split; [lia |]. split; [congruence |].
        rewrite Hr1. repeat split; try assumption; simpl; lia.
      * intros Hloop. apply IH in Hloop as (a & new & Ha & Hb & Hc & Hd & He & Hf & Hg & _);
          [| congruence | lia].
        exists (S a), (n :: new).
        split; [rewrite <- runsAnnounced_S, app_assoc; eapply announces_trans; eassumption |].
        rewrite Hr1 in Hb, Hd.
        split; [lia |]. split; [exact Hc |]. split; [lia |].
        split; [rewrite He, Hn1, <- app_assoc; reflexivity |].
        split; [simpl; lia |]. split; [congruence |]. intros; lia.
Qed.

(** A run of the worker that does not end was started by the loop, on a
    client that is not scrobbling, after fewer complete runs than there are
    retries left. *)
Lemma pollLoop_worker workerFuel maxRetries retryMultiplier fuel : forall sv st,
  scrobbling (client sv) = false ->
  pollLoop pollingBackoff identifier name fuel workerFuel maxRetries retryMultiplier sv
  = WorkerRunsOn st ->
  doProcessing workerFuel st = None
  /\ scrobbling st = false
  /\ exists attempts,
       announces (client sv) st (runsAnnounced attempts)
       /\ attempts + scrobbleRetries sv <= Z.to_nat maxRetries.
Proof.
  induction fuel as [| fuel IH]; intros sv st Hidle; simpl;
    (destruct (Z.of_nat (scrobbleRetries sv) <=? maxRetries)%Z eqn:Hle; [| discriminate]);
    apply Z.leb_le in Hle; [discriminate |].
  destruct (doProcessing workerFuel (client sv)) as [[[b | e] st1] |] eqn:Hrun;
    [discriminate | |].
  - destruct (afterFailedProcessing _ _ _ e maxRetries retryMultiplier _) as [leave sv1] eqn:Hcatch.
    destruct (afterFailedProcessing_facts _ _ _ _ _ _ Hcatch)
      as (Hs1 & Hann1 & _ & _ & Hr1 & _).
    simpl in Hs1, Hann1, Hr1.
    pose proof (doProcessing_announces _ _ _ _ Hrun) as Hann. rewrite Hidle in Hann.
    pose proof (doProcessing_idle _ _ _ _ Hidle Hrun) as Hidle1.
    pose proof (announces_trans _ _ _ _ _ Hann Hann1) as Hann2.
    destruct leave; [discriminate |].
    intros Hloop. apply IH in Hloop as (Hnone & Hst & a & Ha & Hb); [| congruence].
    split; [exact Hnone |]. split; [exact Hst |].
    exists (S a). rewrite Hr1 in Hb.
    split; [rewrite <- runsAnnounced_S, app_assoc; eapply announces_trans; eassumption | lia].
  - intros [= <-]. split; [exact Hrun |]. split; [exact Hidle |].
    exists 0. split; [exists []; now rewrite app_nil_r | simpl; lia].
Qed.

(** With more fuel than retries are left, the loop of [startScrobbling]
    does not go round more often than its fuel. *)
Lemma pollLoop_fuel workerFuel maxRetries retryMultiplier fuel : forall sv,
  S (Z.to_nat maxRetries) - scrobbleRetries sv <= fuel ->
  pollLoop pollingBackoff identifier name fuel workerFuel maxRetries retryMultiplier sv
  <> LoopRunsOn.
Proof.
  induction fuel as [| fuel IH]; intros sv Hfuel; simpl;
    (destruct (Z.of_nat (scrobbleRetries sv) <=? maxRetries)%Z eqn:Hle; [| discriminate]);
    apply Z.leb_le in Hle.
  - lia.
  - destruct (doProcessing workerFuel (client sv)) as [[[b | e] st1] |] eqn:Hrun;
      [discriminate | | discriminate].
    destruct (afterFailedProcessing _ _ _ e maxRetries retryMultiplier _) as [leave sv1] eqn:Hcatch.
    destruct (afterFailedProcessing_facts _ _ _ _ _ _ Hcatch) as (_ & _ & _ & _ & Hr1 & _).
    simpl in Hr1. destruct leave; [discriminate |].
    apply IH. lia.
Qed.

End SupervisorFacts.

(** X19. The status the worker announces. [doProcessing] on a client that
    is not scrobbling announces [Running] when it starts and [Idle] when it
    ends, by its return or by an error, and no other status in between; on
    a client that is scrobbling already it announces nothing. *)
Theorem doProcessing_status_events `{Utils} `{Adapter}
    (fuel : nat) (st st' : ClientState) (r : Res bool) :
  doProcessing fuel st = Some (r, st') ->
  statusChanges (effectsSince st st')
  = if scrobbling st then [] else ["Running"; "Idle"].
Proof. intros Hrun. apply announces_since. now apply (doProcessing_announces fuel st r). Qed.

Lemma doProcessing_status_events_witness :
  exists r st',
    @doProcessing sampleUtils (failingAdapter refused) 1 clientWithDuetQueued = Some (r, st')
    /\ statusChanges (effectsSince clientWithDuetQueued st') = ["Running"; "Idle"].
Proof.
  pose (out := default (Ret true, clientWithDuetQueued)
                 (@doProcessing sampleUtils (failingAdapter refused) 1 clientWithDuetQueued)).
  assert (Hrun : @doProcessing sampleUtils (failingAdapter refused) 1 clientWithDuetQueued
                 = Some (fst out, snd out)) by (vm_compute; reflexivity).
  exists (fst out), (snd out). split; [exact Hrun |].
  exact (@doProcessing_status_events sampleUtils (failingAdapter refused) 1 clientWithDuetQueued
           (snd out) (fst out) Hrun).
Defined.

(** X20. [startScrobbling] on a client that is not scrobbling, with more
    fuel for its loop than [max(0, maxPollRetries)] (5 unless configured).
    The loop never goes round more often than that fuel: [startScrobbling]
    returns unless a run of the worker does not end, and that run was
    started by the loop on a client that is not scrobbling, after at most
    [max(0, maxPollRetries)] complete runs. When it returns, it has run the
    worker at least once and at most once more than [max(0, maxPollRetries)]
    times, each run announcing [Running] and then [Idle]; it has notified
    at most once for each run; and it leaves the client not scrobbling. *)
Theorem startScrobbling_attempts `{Utils} `{Adapter}
    (pollingBackoff : nat -> Z -> Z) (DEFAULT_RETRY_MULTIPLIER : Z) (identifier name : string)
    (fuel workerFuel : nat) (sv : Supervised) :
  scrobbling (client sv) = false ->
  maxRetriesOf sv < fuel ->
  match startScrobbling pollingBackoff DEFAULT_RETRY_MULTIPLIER identifier name fuel workerFuel sv
  with
  | LoopRunsOn => False
  | WorkerRunsOn st =>
      doProcessing workerFuel st = None
      /\ scrobbling st = false
      /\ exists attempts,
           statusChanges (effectsSince (client sv) st) = runsAnnounced attempts
           /\ attempts <= maxRetriesOf sv
  | Returned sv' =>
      exists attempts new,
        statusChanges (effectsSince (client sv) (client sv')) = runsAnnounced attempts
        /\ 1 <= attempts <= S (maxRetriesOf sv)
        /\ scrobbleRetries sv' <= S (maxRetriesOf sv)
        /\ scrobbling (client sv') = false
        /\ notified sv' = notified sv ++ new /\ length new <= attempts
  end.
Proof.
  intros Hidle Hfuel. unfold startScrobbling. simpl. rewrite Hidle.
  fold (maxRetriesOf sv) in Hfuel. unfold maxRetriesOf in *.
  destruct (pollLoop _ _ _ fuel workerFuel _ _ _) as [sv' | st |] eqn:Hloop.
  - apply pollLoop_facts in Hloop
      as (attempts & new & Hann & Hbound & Hs & Hr & Hn & Hlen & _ & Hpos);
      [| exact Hidle | simpl; lia].
    simpl in Hann, Hbound, Hn, Hr. exists attempts, new.
    split; [now apply announces_since |].
    split; [split; [apply Hpos; [lia | reflexivity] | lia] |].
    split; [lia |]. split; [exact Hs |]. now split.
  - apply pollLoop_worker in Hloop as (Hnone & Hst & attempts & Hann & Hbound);
      [| exact Hidle].
    simpl in Hann, Hbound.
    split; [exact Hnone |]. split; [exact Hst |].
    exists attempts. split; [now apply announces_since | lia].
  - apply pollLoop_fuel in Hloop; [exact Hloop | simpl; lia].
Qed.

Lemma startScrobbling_attempts_witness :
  exists sv',
    @startScrobbling sampleUtils (failingAdapter refused) samplePollingBackoff 1 "Sample - a" "a"
      3 1 (supervised clientWithDuetQueued) = Returned sv'
    /\ scrobbling (client sv') = false.
Proof.
  pose (out := match @startScrobbling sampleUtils (failingAdapter refused) samplePollingBackoff 1
                       "Sample - a" "a" 3 1 (supervised clientWithDuetQueued) with
               | Returned sv' => sv'
               | _ => supervised clientWithDuetQueued
               end).
  assert (Hrun : @startScrobbling sampleUtils (failingAdapter refused) samplePollingBackoff 1
                   "Sample - a" "a" 3 1 (supervised clientWithDuetQueued) = Returned out)
    by (vm_compute; reflexivity).
  exists out. split; [exact Hrun |].
  assert (Hfuel : maxRetriesOf (supervised clientWithDuetQueued) < 3)
    by (change (maxRetriesOf (supervised clientWithDuetQueued)) with 2; lia).
  pose proof (@startScrobbling_attempts sampleUtils (failingAdapter refused) samplePollingBackoff 1
                "Sample - a" "a" 3 1 (supervised clientWithDuetQueued) eq_refl Hfuel) as Hm.
  rewrite Hrun in Hm. destruct Hm as (attempts & new & _ & _ & _ & Hs & _). exact Hs.
Defined.

(** A service that refuses every scrobble: the worker is run three times
    when two retries are allowed, with a notification after each run. *)
Example startScrobbling_gives_up_sample :
  exists sv',
    @startScrobbling sampleUtils (failingAdapter refused) samplePollingBackoff 1 "Sample - a" "a"
      3 1 (supervised clientWithDuetQueued) = Returned sv'
    /\ scrobbleRetries sv' = 3
    /\ map priority (notified sv') = ["warn"; "warn"; "error"]
    /\ statusChanges (trace (client sv')) = runsAnnounced 3.
Proof.
  eexists. split; [vm_compute; reflexivity |].
  split; [vm_compute; reflexivity |]. split; vm_compute; reflexivity.
Qed.

(** A service that accepts every scrobble: the first run of the worker
    goes on, waiting for more to scrobble, and so does [startScrobbling]. *)
Example startScrobbling_goes_on_sample :
  @startScrobbling sampleUtils acceptingAdapter samplePollingBackoff 1 "Sample - a" "a"
    3 4 (supervised clientWithDuetQueued) = WorkerRunsOn clientWithDuetQueued.
Proof. vm_compute. reflexivity. Qed.

(** X21. The authentication test decides whether authentication is tried
    again. After [testAuth] the client is authenticated exactly when
    [doAuthentication] answered [true]. A client that requires
    authentication can try again exactly when [doAuthentication] threw an
    error that holds a network exception or an upstream error that is not
    show-stopping: after an answer of [false], or after any other error,
    the failure is final. *)
Theorem testAuth_retry_policy
    (doAuthentication : ClientState -> Res bool)
    (hasNodeNetworkException hasNonShowStoppingUpstreamError : JsError -> bool)
    (sv : Supervised) :
  let sv' := testAuth doAuthentication hasNodeNetworkException hasNonShowStoppingUpstreamError sv in
  let transient e := hasNodeNetworkException e || hasNonShowStoppingUpstreamError e in
  (authed (client sv') = true <-> doAuthentication (client sv) = Ret true)
  /\ (authFailure sv' = Some false
      <-> doAuthentication (client sv) = Ret true
          \/ exists e, doAuthentication (client sv) = Throw e /\ transient e = true)
  /\ (canTryAuth sv' = true
      <-> requiresAuth (client sv) = true
          /\ exists e, doAuthentication (client sv) = Throw e /\ transient e = true)
  /\ isReady (client sv')
     = initialized (client sv) && (negb (requiresAuth (client sv)) || authed (client sv'))
  /\ queuedScrobbles (client sv') = queuedScrobbles (client sv)
  /\ deadLetterScrobbles (client sv') = deadLetterScrobbles (client sv).
Proof.
  intros sv' transient. subst sv' transient. unfold testAuth, canTryAuth, isReady, authGated.
  destruct (doAuthentication (client sv)) as [[|] | e]; simpl.
  - split; [tauto |]. split; [split; [tauto | reflexivity] |].
    split.
    { rewrite andb_false_r. split; [discriminate |]. intros [_ (e & [= ] & _)]. }
    split; [now destruct (initialized (client sv)), (requiresAuth (client sv)) |].
    now split.
  - split; [split; discriminate |].
    split; [split; [discriminate | intros [[= ] | (e & [= ] & _)]] |].
    split.
    { rewrite andb_true_r, andb_false_r. split; [discriminate |]. intros [_ (e & [= ] & _)]. }
    split; [now destruct (initialized (client sv)), (requiresAuth (client sv)) |].
    now split.
  - split; [split; discriminate |].
    destruct (hasNodeNetworkException e || hasNonShowStoppingUpstreamError e) eqn:Ht; simpl.
    + split; [split; [eauto | reflexivity] |].
      split.
      { rewrite !andb_true_r. split; [intros ->; eauto |]. now intros [-> _]. }
      split; [now destruct (initialized (client sv)), (requiresAuth (client sv)) |].
      now split.
    + split; [split; [discriminate | intros [[= ] | (e' & [= <-] & He)]; congruence] |].
      split.
      { rewrite andb_false_r. split; [discriminate |].
        intros [_ (e' & [= <-] & He)]. congruence. }
      split; [now destruct (initialized (client sv)), (requiresAuth (client sv)) |].
      now split.
Qed.

(** * The Spotify API of the source *)

Import SpotifyApi.

Section CallApiFacts.
Context `{Web} {T : Type}.
Variable func : nat -> option string -> ApiFailure + T.

Lemma sleepsOf_retry tok level text ms new :
  sleepsOf (ARequest tok :: ALog level text :: ASleep ms :: new) = ms :: sleepsOf new.
Proof. reflexivity. Qed.

Lemma count_retry tok level text ms new :
  let retried := ARequest tok :: ALog level text :: ASleep ms :: new in
  count isRequest retried = S (count isRequest new)
  /\ count isRefresh retried = count isRefresh new
  /\ count isWrite retried = count isWrite new.
Proof. now repeat split. Qed.

Ltac effects_eq :=
  unfold logError, logger, note, setAccessToken; simpl; rewrite <- ?app_assoc; reflexivity.

Ltac leaf :=
  intros [= <- <-]; eexists; split; [effects_eq |];
  split; [now repeat split |];
  unfold count, sleepsOf; simpl;
  split; [lia |]; split; [lia |]; split; [lia |]; split; [lia |].

Lemma callApi_facts fuel : forall retries st r st',
  callApi func fuel retries st = Some (r, st') ->
  exists new,
    effects st' = effects st ++ new
    /\ (maxRequestRetries st' = maxRequestRetries st
        /\ retryMultiplier st' = retryMultiplier st
        /\ refreshToken st' = refreshToken st)
    /\ requests st' = requests st + count isRequest new
    /\ 1 <= count isRequest new <= retriesLeft retries st + 2
    /\ length (sleepsOf new) <= retriesLeft retries st
    /\ count isWrite new <= count isRefresh new <= 1
    /\ match r with
       | Ret result => func (requests st' - 1) (accessToken st') = inr result
       | Throw e =>
           (e = noRefreshToken /\ refreshToken st = None)
           \/ exists msg cause, e = UpstreamError msg false (Some cause)
       end
    /\ (forall creds, AWriteFile creds ∈ new ->
          exists body,
            refreshAccessToken (refreshToken st) = inr body
            /\ token creds = access_token <$> body
            /\ token creds = accessToken st'
            /\ refreshTokenStored creds
               = match body ≫= refresh_token with
                 | Some r => Some r
                 | None => refreshToken st
                 end
            /\ refreshTokenStored creds <> None)
    /\ (count isRefresh new = 0 -> accessToken st' = accessToken st)
    /\ (count isRefresh new <> 0 -> refreshToken st <> None)
    /\ (forall i ms, sleepsOf new !! i = Some ms ->
          exists e, func (requests st + i) (accessToken st) = inl e
                    /\ unauthorized e = false
                    /\ ms = (waitAfter st e (retries + Z.of_nat i + 1) * 1000)%Z).
Proof.
  induction fuel as [| fuel IH]; intros retries st r st'; simpl;
    (destruct (func (requests st) (accessToken st)) as [e | result] eqn:Hfirst;
     [fold (unauthorized e); destruct (unauthorized e) eqn:Hun;
      [| fold (maxRetries st); destruct (retries <? maxRetries st)%Z eqn:Hlt] |]).
  1, 5: destruct (refreshToken st) as [rt |] eqn:Hrt;
    [unfold refreshTokens; simpl;
     destruct (refreshAccessToken (Some rt)) as [refreshError | body] eqn:Hrefresh; simpl;
     [| match goal with
        | |- context [writeFile ?c] => destruct (writeFile c) as [writeError |] eqn:Hwrite
        end; simpl;
        [| match goal with
           | |- context [func ?n ?t] => destruct (func n t) as [ee | result] eqn:Hsecond
           end]] |].
  all: try (leaf; split; [first [solve [right; eauto] | solve [left; split; reflexivity] | assumption | rewrite Nat.sub_0_r; assumption] |];
            split;
            [intros creds Hin;
             repeat (apply elem_of_cons in Hin as [Hin | Hin];
                     [first [discriminate Hin
                            | injection Hin as ->; exists body; simpl;
                              split; [reflexivity |];
                              split; [reflexivity |]; split; [reflexivity |];
                              split; [reflexivity |];
                              destruct (body ≫= refresh_token); discriminate] |]);
             now apply elem_of_nil in Hin |];
            split; [try discriminate; reflexivity |];
            split; [first [discriminate | intros Hn; now destruct Hn] |];
            intros i ms Hi; now rewrite lookup_nil in Hi).
  - discriminate.
  - intros Hrec.
    apply IH in Hrec
      as (new & He & (Hm & Hmul & Hrt) & Hreq & Hcount & Hsleep & Hwr & Hres & Hcreds & Hacc & Hpresent
          & Hback).
    unfold logger, note in He, Hm, Hmul, Hrt, Hreq, Hres, Hcreds, Hacc, Hback.
    simpl in He, Hm, Hmul, Hrt, Hreq, Hcreds, Hacc, Hback.
    rewrite <- !app_assoc in He. simpl in He.
    assert (Hleft : retriesLeft retries st = S (retriesLeft (retries + 1) st)).
    { apply Z.ltb_lt in Hlt. unfold retriesLeft. lia. }
    assert (Hleft' : forall st2, maxRequestRetries st2 = maxRequestRetries st ->
                                 retriesLeft (retries + 1) st2 = retriesLeft (retries + 1) st).
    { intros st2 E. unfold retriesLeft, maxRetries. now rewrite E. }
    rewrite Hleft' in Hcount, Hsleep by reflexivity.
    eexists. split; [exact He |]. split; [now repeat split |].
    match goal with
    | |- context [count isRequest (ARequest ?tok :: ALog ?level ?text :: ASleep ?ms :: new)] =>
        destruct (count_retry tok level text ms new) as (-> & -> & ->)
    end.
    rewrite sleepsOf_retry. simpl.
    split; [lia |]. split; [lia |]. split; [lia |]. split; [lia |].
    split; [destruct r; [exact Hres | exact Hres] |].
    split.
    { intros creds Hin.
      repeat (apply elem_of_cons in Hin as [Hin | Hin]; [discriminate Hin |]).
      now apply Hcreds. }
    split; [exact Hacc |]. split; [exact Hpresent |].
    intros [| i] ms.
    + simpl. intros [= <-]. exists e. split; [now rewrite Nat.add_0_r |]. split; [exact Hun |].
      unfold waitAfter. do 3 f_equal. lia.
    + simpl. intros Hi. apply Hback in Hi as (e0 & Hfail & Hun0 & ->).
      exists e0. split; [| split; [exact Hun0 |]].
      * now replace (requests st + S i) with (S (requests st + i)) by lia.
      * unfold waitAfter. simpl. do 3 f_equal. lia.
Qed.

Lemma callApi_total fuel : forall retries st,
  retriesLeft retries st <= fuel -> exists res, callApi func fuel retries st = Some res.
Proof.
  induction fuel as [| fuel IH]; intros retries st Hfuel; simpl;
    (destruct (func (requests st) (accessToken st)) as [e | result]; [| eauto];
     destruct (_ && _);
     [destruct (refreshToken st); [| eauto];
      destruct (refreshTokens _) as [[refreshError |] st1]; [eauto |];
      destruct (func _ _); eauto |];
     fold (maxRetries st); destruct (retries <? maxRetries st)%Z eqn:Hlt; [| eauto]).
  - apply Z.ltb_lt in Hlt. unfold retriesLeft in Hfuel. lia.
  - apply IH. apply Z.ltb_lt in Hlt. unfold retriesLeft, maxRetries in *. simpl. lia.
Qed.

(** A result of [callApi] is the answer to the last request. *)
Lemma callApi_answer fuel retries st result st' :
  callApi func fuel retries st = Some (Ret result, st') ->
  func (requests st' - 1) (accessToken st') = inr result.
Proof.
  intros Hrun. destruct (callApi_facts fuel retries st (Ret result) st' Hrun)
    as (new & _ & _ & _ & _ & _ & _ & Hres & _).
  exact Hres.
Qed.

End CallApiFacts.

Section PlaysFacts.
Context `{Web} `{Endpoints}.
Variable parseDate : string -> Z.
Variable toISOString : Z -> string.
Variable deviceLabel : option string -> option string -> option string.
Variable NO_DEVICE NO_USER : string.

Local Abbreviation format := (formatPlayObj parseDate toISOString deviceLabel NO_DEVICE NO_USER).
Local Abbreviation formatEach := (formatAll parseDate toISOString deviceLabel NO_DEVICE NO_USER).

Lemma formatAll_Ret items : forall plays,
  formatEach items = Ret plays ->
  Forall2 (fun x play => format x false = Ret play) items plays.
Proof.
  induction items as [| x rest IH]; simpl; intros plays.
  - intros [= <-]. constructor.
  - destruct (format x false) as [play | e] eqn:Hx; [| discriminate].
    destruct (formatEach rest) as [others | e]; [| discriminate].
    intros [= <-]. constructor; [exact Hx | now apply IH].
Qed.

Lemma formatAll_Throw items e :
  formatEach items = Throw e -> exists x, x ∈ items /\ format x false = Throw e.
Proof.
  induction items as [| x rest IH]; simpl; [discriminate |].
  destruct (format x false) as [play | e0] eqn:Hx.
  - destruct (formatEach rest) as [others | e1]; [discriminate |].
    intros [= <-]. destruct IH as (y & Hy & Hfail); [reflexivity |].
    exists y. split; [now apply list_elem_of_further | exact Hfail].
  - intros [= <-]. exists x. split; [apply list_elem_of_here | exact Hx].
Qed.

End PlaysFacts.

(** ** [callApi] *)

(** X22. [callApi] ends: a recursion as deep as the retries that are left
    is enough. It makes at least one request and at most two more than the
    retries left when it is entered, sleeps at most once for each retry
    left and refreshes the access token at most once. *)
Theorem callApi_ends `{Web} {T : Type} (func : nat -> option string -> ApiFailure + T)
    (fuel : nat) (retries : Z) (st : SourceState) :
  retriesLeft retries st <= fuel ->
  exists r st' new,
    callApi func fuel retries st = Some (r, st')
    /\ effects st' = effects st ++ new
    /\ requests st' = requests st + count isRequest new
    /\ 1 <= count isRequest new <= retriesLeft retries st + 2
    /\ length (sleepsOf new) <= retriesLeft retries st
    /\ count isRefresh new <= 1.
Proof.
  intros Hfuel. destruct (callApi_total func fuel retries st Hfuel) as [[r st'] Hrun].
  destruct (callApi_facts func fuel retries st r st' Hrun)
    as (new & He & _ & Hreq & Hcount & Hsleep & Hwr & _).
  exists r, st', new. repeat split; try assumption; lia.
Qed.

Lemma callApi_ends_witness :
  exists r st',
    @callApi sampleWeb string (flaky "ok") 2 0 sampleSource = Some (r, st') /\ requests st' <= 4.
Proof.
  destruct (@callApi_ends sampleWeb string (flaky "ok") 2 0 sampleSource)
    as (r & st' & new & Hrun & _ & Hreq & Hcount & _).
  - change (retriesLeft 0 sampleSource) with 2. lia.
  - exists r, st'. split; [exact Hrun |].
    change (retriesLeft 0 sampleSource) with 2 in Hcount.
    change (requests sampleSource) with 0 in Hreq. lia.
Defined.

(** X23. What [callApi] answers with. A result is the answer to the last
    request the source made, with the access token it holds now. An error
    is the plain error about the missing refresh token, thrown only when
    the source has no refresh token, or else an [UpstreamError] that is not
    show-stopping and has a cause. *)
Theorem callApi_result `{Web} {T : Type} (func : nat -> option string -> ApiFailure + T)
    (fuel : nat) (retries : Z) (st : SourceState) (r : Res T) (st' : SourceState) :
  callApi func fuel retries st = Some (r, st') ->
  match r with
  | Ret result => func (requests st' - 1) (accessToken st') = inr result
  | Throw e =>
      (e = noRefreshToken /\ refreshToken st = None)
      \/ (isNonShowStoppingUpstream e = true
          /\ exists msg cause, e = UpstreamError msg false (Some cause))
  end.
Proof.
  intros Hrun. destruct (callApi_facts func fuel retries st r st' Hrun)
    as (new & _ & _ & _ & _ & _ & _ & Hres & _).
  destruct r as [result | e]; [exact Hres |].
  destruct Hres as [Hnone | (msg & cause & ->)]; [now left |].
  right. split; [reflexivity | eauto].
Qed.

Lemma callApi_result_witness :
  exists st', @callApi sampleWeb string (flaky "ok") 2 0 sampleSource = Some (Ret "ok", st')
              /\ flaky "ok" (requests st' - 1) (accessToken st') = inr "ok".
Proof.
  eexists. split; [vm_compute; reflexivity |].
  apply (@callApi_result sampleWeb string (flaky "ok") 2 0 sampleSource (Ret "ok")).
  vm_compute. reflexivity.
Defined.

(** X24. The tokens. [callApi] never touches the refresh token of the API
    object, and it changes the access token only by a refresh, which it
    tries only when a refresh token is there. It writes the credentials
    file at most once, and only when the refresh was answered: what it
    writes is the access token of that answer, which is the one the API
    object holds afterwards, and a refresh token: the one in the answer
    when Spotify sent one, or else the one the API object had. *)
Theorem callApi_credentials `{Web} {T : Type} (func : nat -> option string -> ApiFailure + T)
    (fuel : nat) (retries : Z) (st : SourceState) (r : Res T) (st' : SourceState) :
  callApi func fuel retries st = Some (r, st') ->
  exists new,
    effects st' = effects st ++ new
    /\ refreshToken st' = refreshToken st
    /\ count isWrite new <= count isRefresh new <= 1
    /\ (count isRefresh new = 0 -> accessToken st' = accessToken st)
    /\ (count isRefresh new <> 0 -> refreshToken st <> None)
    /\ forall creds, AWriteFile creds ∈ new ->
         exists body,
           refreshAccessToken (refreshToken st) = inr body
           /\ token creds = access_token <$> body
           /\ token creds = accessToken st'
           /\ refreshTokenStored creds
              = match body ≫= refresh_token with
                | Some r => Some r
                | None => refreshToken st
                end
           /\ refreshTokenStored creds <> None.
Proof.
  intros Hrun. destruct (callApi_facts func fuel retries st r st' Hrun)
    as (new & He & (_ & _ & Hrt) & _ & _ & _ & Hwr & _ & Hcreds & Hacc & Hpresent & _).
  exists new. split; [exact He |]. split; [exact Hrt |]. split; [lia |].
  split; [exact Hacc |]. split; [exact Hpresent |]. exact Hcreds.
Qed.

Lemma callApi_credentials_witness :
  exists r st',
    @callApi sampleWeb string (flaky "ok") 2 0 sampleSource = Some (r, st')
    /\ refreshToken st' = Some "refresh".
Proof.
  pose (out := default (Ret "", sampleSource)
                 (@callApi sampleWeb string (flaky "ok") 2 0 sampleSource)).
  assert (Hrun : @callApi sampleWeb string (flaky "ok") 2 0 sampleSource
                 = Some (fst out, snd out)) by (vm_compute; reflexivity).
  exists (fst out), (snd out). split; [exact Hrun |].
  destruct (@callApi_credentials sampleWeb string (flaky "ok") 2 0 sampleSource
              (fst out) (snd out) Hrun) as (new & _ & Hrt & _).
  exact Hrt.
Defined.

(** X25. The waits between the attempts. While an attempt fails without
    making [callApi] refresh the token and retries are left, the source
    sleeps before the next attempt: as many seconds as the failure asks
    for, or else the retry multiplier (2 unless configured) times the
    number of the failed attempt. *)
Theorem callApi_backoff `{Web} {T : Type} (func : nat -> option string -> ApiFailure + T)
    (fuel : nat) (retries : Z) (st : SourceState) (r : Res T) (st' : SourceState) :
  callApi func fuel retries st = Some (r, st') ->
  exists new,
    effects st' = effects st ++ new
    /\ forall i ms,
         sleepsOf new !! i = Some ms ->
         exists e, func (requests st + i) (accessToken st) = inl e
                   /\ unauthorized e = false
                   /\ ms = (waitAfter st e (retries + Z.of_nat i + 1) * 1000)%Z
                   /\ (parseRetryAfterSecsFromObj e = None ->
                       ms = (default 2 (retryMultiplier st) * (retries + Z.of_nat i + 1) * 1000)%Z).
Proof.
  intros Hrun. destruct (callApi_facts func fuel retries st r st' Hrun)
    as (new & He & _ & _ & _ & _ & _ & _ & _ & _ & _ & Hback).
  exists new. split; [exact He |]. intros i ms Hi.
  destruct (Hback i ms Hi) as (e & Hfail & Hun & ->).
  exists e. repeat split; try assumption.
  intros Hnone. unfold waitAfter. now rewrite Hnone.
Qed.

Lemma callApi_backoff_witness :
  exists r st' new,
    @callApi sampleWeb string down 2 0 sampleSource = Some (r, st')
    /\ effects st' = effects sampleSource ++ new.
Proof.
  pose (out := default (Ret "", sampleSource)
                 (@callApi sampleWeb string down 2 0 sampleSource)).
  assert (Hrun : @callApi sampleWeb string down 2 0 sampleSource
                 = Some (fst out, snd out)) by (vm_compute; reflexivity).
  destruct (@callApi_backoff sampleWeb string down 2 0 sampleSource (fst out) (snd out) Hrun)
    as (new & He & _).
  exists (fst out), (snd out), new. split; [exact Hrun | exact He].
Defined.

(** A source that may retry twice waits 2 and then 4 seconds when the API
    stays unavailable. *)
Example callApi_backoff_sample :
  exists r st',
    @callApi sampleWeb string down 2 0 sampleSource = Some (r, st')
    /\ sleepsOf (effects st') = [2000; 4000]%Z.
Proof. eexists _, _. split; vm_compute; reflexivity. Qed.

(** ** The plays of the API *)

(** X26. [getPlayHistory] asks for 20 plays unless told otherwise. When it
    answers, its plays are the conversions of the items of the last answer
    of the API, each made with [newFromSource] off, sorted by play date,
    oldest first. When it fails, either [callApi] failed with that error,
    or an item of the answer could not be converted, and that item was not
    a play-history object: an answer of play-history objects is always
    converted. *)
Theorem getPlayHistory_oldest_first `{Web} `{Endpoints}
    (parseDate : string -> Z) (toISOString : Z -> string)
    (deviceLabel : option string -> option string -> option string)
    (NO_DEVICE NO_USER : string)
    (limit : option Z) (fuel : nat) (st : SourceState)
    (r : Res (list PlayObject)) (st' : SourceState) :
  let format := formatPlayObj parseDate toISOString deviceLabel NO_DEVICE NO_USER in
  getPlayHistory parseDate toISOString deviceLabel NO_DEVICE NO_USER limit fuel st = Some (r, st') ->
  exists answer,
    callApi (getMyRecentlyPlayedTracks (default 20%Z limit)) fuel 0 st = Some (answer, st')
    /\ match r with
       | Ret plays =>
           exists items formatted,
             answer = Ret items
             /\ getMyRecentlyPlayedTracks (default 20%Z limit) (requests st' - 1) (accessToken st')
                = inr items
             /\ Forall2 (fun x play => format x false = Ret play) items formatted
             /\ plays ≡ₚ formatted
             /\ StronglySorted (fun a b => (playDate (data a) <= playDate (data b))%Z) plays
       | Throw e =>
           answer = Throw e
           \/ exists items x,
                answer = Ret items /\ x ∈ items /\ format x false = Throw e
                /\ forall h, x <> Spotify.History h
       end.
Proof.
  intros format. unfold getPlayHistory.
  destruct (callApi _ fuel 0 st) as [[[items | e] st1] |] eqn:Hrun; [| | discriminate].
  - destruct (formatAll _ _ _ _ _ items) as [formatted | e] eqn:Hall.
    + intros [= <- <-]. exists (Ret items). split; [reflexivity |].
      exists items, formatted. split; [reflexivity |].
      split; [exact (callApi_answer _ _ _ _ _ _ Hrun) |].
      split; [now apply formatAll_Ret |].
      split; [apply merge_sort_Permutation |].
      apply (@StronglySorted_merge_sort _ (fun a b => sortByOldestPlayDate a b <> Gt)).
      * intros a b c. unfold sortByOldestPlayDate. apply Z.le_trans.
      * intros a b. unfold sortByOldestPlayDate. apply Z.le_ge_cases.
    + intros [= <- <-]. exists (Ret items). split; [reflexivity |]. right.
      apply formatAll_Throw in Hall as (x & Hx & Hfail).
      exists items, x. split; [reflexivity |]. split; [exact Hx |]. split; [exact Hfail |].
      intros h ->. discriminate Hfail.
  - intros [= <- <-]. exists (Throw e). split; [reflexivity | now left].
Qed.

Lemma getPlayHistory_oldest_first_witness :
  exists r st' answer,
    @getPlayHistory sampleWeb sampleEndpoints sampleParseDate sampleToISOString sampleDeviceLabel
      "NoDevice" "SingleUser" None 2 sampleSource = Some (r, st')
    /\ @callApi sampleWeb _ (@getMyRecentlyPlayedTracks sampleEndpoints (default 20%Z None)) 2 0
         sampleSource
       = Some (answer, st').
Proof.
  pose (out := default (Ret [], sampleSource)
                 (@getPlayHistory sampleWeb sampleEndpoints sampleParseDate sampleToISOString
                    sampleDeviceLabel "NoDevice" "SingleUser" None 2 sampleSource)).
  assert (Hrun : @getPlayHistory sampleWeb sampleEndpoints sampleParseDate sampleToISOString
                   sampleDeviceLabel "NoDevice" "SingleUser" None 2 sampleSource
                 = Some (fst out, snd out)) by (vm_compute; reflexivity).
  destruct (@getPlayHistory_oldest_first sampleWeb sampleEndpoints sampleParseDate
              sampleToISOString sampleDeviceLabel "NoDevice" "SingleUser" None 2 sampleSource
              (fst out) (snd out) Hrun) as (answer & Hcall & _).
  exists (fst out), (snd out), answer. split; [exact Hrun | exact Hcall].
Defined.



(** A track is playing, but the answer names no device: no state is
    reported. *)
Example playing_without_device_sample :
  exists st',
    @getCurrentPlaybackState sampleWeb sampleEndpoints sampleParseDate sampleToISOString
      sampleDeviceLabel "NoDevice" "SingleUser" 2 sampleSource
    = Some (Ret {| ps_device := None; playerState := None |}, st').
Proof. eexists. vm_compute. reflexivity. Qed.


